(** * ReactiveObserve: the reactive observation core of toolkit-mvvm-plugin

    A shallow embedding of [src/assets/core/ReactiveObserve.ts].

    The module keeps its state in [rawToProxy], [proxyToRaw],
    [connectionStore] and [reactionStack], in the Set objects the store
    refers to, in the reaction function objects, and in the JavaScript heap
    itself; these are the fields of [state] below, and every function of
    the module is a state transformer.  User code (the functions given to
    [observe] and the top-level script) is a tree of calls into the module,
    [prog]; the functions of the module that call back into user code are
    defined over an abstract [apply_fn], and the knot is tied by [exec],
    which recurses on a step budget.

    What the model leaves out is marked [Unmodelled] where it would be
    reached: inherited properties and function-valued properties of plain
    objects, holes and non-index properties of arrays, the contents of
    typed arrays, the iterators and [forEach] of Maps and Sets, numbers
    that are not integers.

    Of the code that calls the module, [onSet] of [src/assets/index.ts] is
    embedded as well. *)

From Stdlib Require Import ZArith.
From stdpp Require Import gmap strings list fin_maps.

Open Scope Z_scope.

(** ** Values and keys *)

Abbreviation loc := nat (only parsing).
Abbreviation rid := nat (only parsing).
Abbreviation setid := nat (only parsing).

(** JavaScript values.  Numbers are the integers plus [NaN]; objects are
    heap references.  Function values are not first class in the model:
    reactions are referred to by their identity ([rid]). *)
Inductive value :=
  | VUndefined
  | VNull
  | VBool (b : bool)
  | VNum (z : Z)
  | VNaN
  | VStr (s : string)
  | VObj (l : loc).

(** Property keys that user code can form: strings, canonical array
    indices (the strings "0", "1", ...), and the well-known symbols. *)
Inductive PropertyKey :=
  | PStr (s : string)
  | PIdx (i : nat)
  | PSym (name : string).

(** Keys of a [ReactionForRaw] map: a property key (registered by the proxy
    traps), an arbitrary value (registered by the Map/Set instrumentations)
    or the module-private symbol [ITERATION_KEY]. *)
Inductive StoreKey :=
  | SKProp (k : PropertyKey)
  | SKVal (v : value)
  | ITERATION_KEY.

Global Instance value_eq_dec : EqDecision value.
Proof. solve_decision. Defined.
Global Instance PropertyKey_eq_dec : EqDecision PropertyKey.
Proof. solve_decision. Defined.
Global Instance StoreKey_eq_dec : EqDecision StoreKey.
Proof. solve_decision. Defined.

Global Instance value_countable : Countable value.
Proof.
  refine (inj_countable'
    (λ v, match v with
          | VUndefined => inl (inl 0%nat)
          | VNull => inl (inl 1%nat)
          | VNaN => inl (inl 2%nat)
          | VBool b => inl (inr b)
          | VNum z => inr (inl z)
          | VStr s => inr (inr (inl s))
          | VObj l => inr (inr (inr l))
          end)
    (λ e, match e with
          | inl (inl 0%nat) => VUndefined
          | inl (inl 1%nat) => VNull
          | inl (inl _) => VNaN
          | inl (inr b) => VBool b
          | inr (inl z) => VNum z
          | inr (inr (inl s)) => VStr s
          | inr (inr (inr l)) => VObj l
          end) _).
  by intros [].
Defined.

Global Instance PropertyKey_countable : Countable PropertyKey.
Proof.
  refine (inj_countable'
    (λ k, match k with
          | PStr s => inl s
          | PIdx i => inr (inl i)
          | PSym s => inr (inr s)
          end)
    (λ e, match e with
          | inl s => PStr s
          | inr (inl i) => PIdx i
          | inr (inr s) => PSym s
          end) _).
  by intros [].
Defined.

Global Instance StoreKey_countable : Countable StoreKey.
Proof.
  refine (inj_countable'
    (λ k, match k with
          | SKProp p => inl p
          | SKVal v => inr (inl v)
          | ITERATION_KEY => inr (inr ())
          end)
    (λ e, match e with
          | inl p => SKProp p
          | inr (inl v) => SKVal v
          | inr (inr _) => ITERATION_KEY
          end) _).
  by intros [].
Defined.

(** [typeof val === "object" && val !== null] *)
Definition isObject (v : value) : bool :=
  match v with VObj _ => true | _ => false end.

(** JavaScript [===]: structural on the model's values, except that [NaN]
    is different from itself. *)
Definition strict_eq (a b : value) : bool :=
  match a, b with
  | VNaN, _ | _, VNaN => false
  | _, _ => bool_decide (a = b)
  end.

(** ** Operations *)

Inductive OpType :=
  | OpGet | OpIterate | OpAdd | OpSet | OpDelete | OpClear | OpHas | OpArray.

Global Instance OpType_eq_dec : EqDecision OpType.
Proof. solve_decision. Defined.

(** The [Operation] interface.  An optional field that is left out of the
    object literal is [None]; [key] left out reads as [undefined]. *)
Record Operation := mkOperation {
  op_type : OpType;
  op_target : loc;
  op_key : option StoreKey;
  op_receiver : option loc;
  op_value : option value;
  op_oldValue : option value;
  op_inserted : option (list value);
  op_insertedStart : option Z;
  op_deleted : option (list value);
  op_deletedStart : option Z
}.

(** The key an operation is stored or looked up under in a JavaScript
    [Map]: a missing key is the value [undefined]. *)
Definition key_of (k : option StoreKey) : StoreKey :=
  default (SKVal VUndefined) k.

(** ** Objects *)

Inductive TypedArrayKind :=
  | Int8 | Uint8 | Uint8Clamped | Int16 | Uint16 | Int32 | Uint32
  | Float32 | Float64.

(** What [obj.constructor] evaluates to. *)
Inductive Ctor :=
  | CObject
  | CArray
  | CTypedArray (k : TypedArrayKind)
  | CMap
  | CSet
  | CWeakMap
  | CWeakSet
  | CGlobal (name : string)   (* another constructor installed on the global
                                 object under its own name: Date, RegExp... *)
  | CUser (name : string)     (* a class that [globalObj[name]] does not give *)
  | CNone.                    (* [constructor] is not a function *)

Inductive Handlers := baseHandlers | arrayHandlers | collectionHandlers.

Global Instance Handlers_eq_dec : EqDecision Handlers.
Proof. solve_decision. Defined.

(** The internal data of a raw object: own properties in insertion order,
    the elements of a dense array, the entries of a Map, the members of a
    Set, or nothing the model looks into. *)
Inductive Data :=
  | DProps (ps : list (PropertyKey * value))
  | DArray (es : list value)
  | DMap (entries : list (value * value))
  | DSet (members : list value)
  | DOpaque.

Inductive Cell :=
  | ORaw (c : Ctor) (d : Data)
  | OProxy (target : loc) (h : Handlers).

(** The methods of arrays, Maps and Sets that the model knows. *)
Inductive Method :=
  | push | pop | shift | unshift | splice
  | indexOf | lastIndexOf | includes | reverse
  | forEach
  | has | get | set | add | delete | clear.

Global Instance Method_eq_dec : EqDecision Method.
Proof. solve_decision. Defined.

(** [String(key)] for the property key a method is read under. *)
Definition method_name (m : Method) : string :=
  match m with
  | push => "push" | pop => "pop" | shift => "shift"
  | unshift => "unshift" | splice => "splice"
  | indexOf => "indexOf" | lastIndexOf => "lastIndexOf"
  | includes => "includes" | reverse => "reverse"
  | forEach => "forEach"
  | has => "has" | get => "get" | set => "set" | add => "add"
  | delete => "delete" | clear => "clear"
  end.

(** ** User code

    A program is a tree of calls into the module; the continuation receives
    what the call returned. *)
Inductive api :=
  | AReactive (o : loc)
  | ARaw (v : value)
  | AUnobserve (r : rid)
  | AInvoke (r : rid) (arg : option Operation)
  | AGet (o : loc) (k : PropertyKey)
  | ASet (o : loc) (k : PropertyKey) (v : value)
  | ADelete (o : loc) (k : PropertyKey)
  | AMethod (o : loc) (m : Method) (args : list value)
  | ANew (c : Ctor) (d : Data).

Inductive prog :=
  | Ret (v : value)
  | Throw (e : value)
  | Call (a : api) (k : value → prog)
  | Observe (fn : option Operation → prog) (k : rid → prog)
  | ForEach (o : loc) (cb : value → value → prog) (k : value → prog)
  | OwnKeys (o : loc) (k : list PropertyKey → prog)
  | TryCatch (body : prog) (k : value + value → prog).

(** ** The module state *)

(** A reaction function object: the wrapped [fn] and the two expando
    properties [cleaners] and [unobserved] ([None]: never assigned). *)
Record Reaction := mkReaction {
  fn : option Operation → prog;
  cleaners : option (list setid);
  unobserved : bool
}.

Record state := mkState {
  heap : gmap loc Cell;
  rawToProxy : gmap loc loc;
  proxyToRaw : gmap loc loc;
  connectionStore : gmap loc (gmap StoreKey setid);
  sets : gmap setid (list rid);       (* the [ReactionForKey] Set objects *)
  reactions : gmap rid Reaction;      (* the reaction function objects *)
  reactionStack : list rid;
  nextLoc : loc;                      (* the next object to be allocated *)
  nextSet : setid;                    (* the next Set to be allocated *)
  nextRid : rid;                      (* the next reaction to be created *)
  triggered : list (rid * Operation)  (* ghost: calls made by
                                         [queueReactionsForOperation] *)
}.

Definition empty_state : state :=
  mkState ∅ ∅ ∅ ∅ ∅ ∅ [] 0%nat 0%nat 0%nat [].

(** Field updates. *)
Definition with_heap (f : gmap loc Cell → gmap loc Cell) (σ : state) : state :=
  mkState (f (heap σ)) (rawToProxy σ) (proxyToRaw σ) (connectionStore σ)
    (sets σ) (reactions σ) (reactionStack σ) (nextLoc σ) (nextSet σ)
    (nextRid σ) (triggered σ).
Definition with_sets (f : gmap setid (list rid) → gmap setid (list rid))
    (σ : state) : state :=
  mkState (heap σ) (rawToProxy σ) (proxyToRaw σ) (connectionStore σ)
    (f (sets σ)) (reactions σ) (reactionStack σ) (nextLoc σ) (nextSet σ)
    (nextRid σ) (triggered σ).
Definition with_reactions (f : gmap rid Reaction → gmap rid Reaction)
    (σ : state) : state :=
  mkState (heap σ) (rawToProxy σ) (proxyToRaw σ) (connectionStore σ)
    (sets σ) (f (reactions σ)) (reactionStack σ) (nextLoc σ) (nextSet σ)
    (nextRid σ) (triggered σ).
Definition with_stack (f : list rid → list rid) (σ : state) : state :=
  mkState (heap σ) (rawToProxy σ) (proxyToRaw σ) (connectionStore σ)
    (sets σ) (reactions σ) (f (reactionStack σ)) (nextLoc σ) (nextSet σ)
    (nextRid σ) (triggered σ).
Definition with_triggered (f : list (rid * Operation) → list (rid * Operation))
    (σ : state) : state :=
  mkState (heap σ) (rawToProxy σ) (proxyToRaw σ) (connectionStore σ)
    (sets σ) (reactions σ) (reactionStack σ) (nextLoc σ) (nextSet σ)
    (nextRid σ) (f (triggered σ)).

(** What a call into the module comes to: it returns, it throws, or the
    model gives no answer (the step budget ran out, or the call leaves the
    fragment of JavaScript that is modelled). *)
Inductive stuck := OutOfFuel | Unmodelled.

Inductive outcome (A : Type) :=
  | Done (a : A) (σ : state)
  | Thrown (e : value) (σ : state)
  | Stuck (why : stuck).
Arguments Done {A} a σ.
Arguments Thrown {A} e σ.
Arguments Stuck {A} why.

Definition M (A : Type) := state → outcome A.

Definition ret {A} (a : A) : M A := λ σ, Done a σ.
Definition throw {A} (e : value) : M A := λ σ, Thrown e σ.
Definition unmodelled {A} : M A := λ _, Stuck Unmodelled.
Definition bind {A B} (m : M A) (f : A → M B) : M B :=
  λ σ, match m σ with
       | Done a σ' => f a σ'
       | Thrown e σ' => Thrown e σ'
       | Stuck w => Stuck w
       end.
Definition modify (f : state → state) : M () := λ σ, Done () (f σ).
Definition gets {A} (f : state → A) : M A := λ σ, Done (f σ) σ.

Notation "'let!' x := m 'in' k" := (bind m (λ x, k))
  (at level 10, x name, m at level 100, k at level 200,
   format "'[v' 'let!'  x  :=  m  'in' '/' k ']'").
Notation "m >> k" := (bind m (λ _, k))
  (at level 100, k at level 200, right associativity).

(** The exception the runtime raises when a property of [undefined] is read
    or [undefined] is called. *)
Definition TypeError : value := VStr "TypeError".

(** ** Proxy registry ([reactive], [raw]) *)

(** The rows of the [handlers] table. *)
Definition handlers_get (c : Ctor) : option Handlers :=
  match c with
  | CObject => Some baseHandlers
  | CArray | CTypedArray _ => Some arrayHandlers
  | CMap | CSet | CWeakMap | CWeakSet => Some collectionHandlers
  | CGlobal _ | CUser _ | CNone => None
  end.

(** [typeof constructor === "function" && constructor.name in globalObj &&
    globalObj[constructor.name] === constructor] *)
Definition isBuiltIn (c : Ctor) : bool :=
  match c with
  | CUser _ | CNone => false
  | _ => true
  end.

Definition shouldInstrument (c : Ctor) : bool :=
  negb (isBuiltIn c) || bool_decide (is_Some (handlers_get c)).

Definition getHandlers (c : Ctor) : Handlers :=
  default baseHandlers (handlers_get c).

(** [obj.constructor] of a raw object. *)
Definition constructor_of (σ : state) (o : loc) : option Ctor :=
  match heap σ !! o with
  | Some (ORaw c _) => Some c
  | _ => None
  end.

Definition storeObservable (value : loc) (σ : state) : state :=
  mkState (heap σ) (rawToProxy σ) (proxyToRaw σ)
    (<[value := ∅]> (connectionStore σ))
    (sets σ) (reactions σ) (reactionStack σ) (nextLoc σ) (nextSet σ)
    (nextRid σ) (triggered σ).

(** [new Proxy(raw, getHandlers(raw))] allocates the proxy object; the two
    WeakMaps are then updated and the store entry allocated. *)
Definition createReactive (raw : loc) (c : Ctor) (σ : state) : loc * state :=
  let reactive := nextLoc σ in
  (reactive,
   storeObservable raw
     (mkState (<[reactive := OProxy raw (getHandlers c)]> (heap σ))
        (<[raw := reactive]> (rawToProxy σ))
        (<[reactive := raw]> (proxyToRaw σ))
        (connectionStore σ) (sets σ) (reactions σ) (reactionStack σ)
        (S (nextLoc σ)) (nextSet σ) (nextRid σ) (triggered σ))).

(** [reactive(raw)].  A reference that is neither a registered proxy nor a
    raw object of the heap does not occur in a JavaScript run; it is
    returned as it is. *)
Definition reactive (raw : loc) (σ : state) : loc * state :=
  if bool_decide (is_Some (proxyToRaw σ !! raw)) then (raw, σ)
  else match constructor_of σ raw with
       | None => (raw, σ)
       | Some c =>
         if negb (shouldInstrument c) then (raw, σ)
         else match rawToProxy σ !! raw with
              | Some exitProxy => (exitProxy, σ)
              | None => createReactive raw c σ
              end
       end.

(** [raw(proxy)]: [proxyToRaw.get(proxy)]. *)
Definition raw (proxy : value) (σ : state) : value :=
  match proxy with
  | VObj p => match proxyToRaw σ !! p with
              | Some o => VObj o
              | None => VUndefined
              end
  | _ => VUndefined
  end.

(** [proxyToRaw.get(v) || v] *)
Definition toRaw (σ : state) (v : value) : value :=
  match v with
  | VObj p => match proxyToRaw σ !! p with
              | Some o => VObj o
              | None => v
              end
  | _ => v
  end.

(** ** Dependency store *)

(** A [Set] of reactions keeps insertion order and has no duplicates. *)
Definition set_add (r : rid) (s : list rid) : list rid :=
  if bool_decide (r ∈ s) then s else s ++ [r].
Definition set_delete (r : rid) (s : list rid) : list rid :=
  filter (λ x, x ≠ r) s.

(** The members of the Set object [s]. *)
Definition members (σ : state) (s : setid) : list rid :=
  default [] (sets σ !! s).

(** [reaction.cleaners.push(reactionsForKey)]; [None] when [cleaners] was
    never assigned (the push then raises). *)
Definition cleaners_push (reaction : rid) (s : setid) (σ : state)
    : option state :=
  match reactions σ !! reaction with
  | Some (mkReaction f (Some cl) u) =>
      Some (with_reactions
              (<[reaction := mkReaction f (Some (cl ++ [s])) u]>) σ)
  | _ => None
  end.

(** [reactionsForRaw.get(key)], creating and storing a new Set when the key
    has none. *)
Definition reactionsForKey_of (target : loc)
    (reactionsForRaw : gmap StoreKey setid) (key : StoreKey) (σ : state)
    : setid * state :=
  match reactionsForRaw !! key with
  | Some s => (s, σ)
  | None =>
      let s := nextSet σ in
      (s, mkState (heap σ) (rawToProxy σ) (proxyToRaw σ)
            (<[target := <[key := s]> reactionsForRaw]> (connectionStore σ))
            (<[s := []]> (sets σ)) (reactions σ) (reactionStack σ)
            (nextLoc σ) (S (nextSet σ)) (nextRid σ) (triggered σ))
  end.

Definition registerReactionForOperation (reaction : rid) (op : Operation)
    : M () := λ σ,
  let key := match op_type op with
             | OpIterate => ITERATION_KEY
             | _ => key_of (op_key op)
             end in
  match connectionStore σ !! op_target op with
  | None => Thrown TypeError σ
  | Some reactionsForRaw =>
      let '(s, σ1) := reactionsForKey_of (op_target op) reactionsForRaw key σ in
      if bool_decide (reaction ∈ members σ1 s) then Done () σ1
      else
        let σ2 := with_sets (<[s := members σ1 s ++ [reaction]]>) σ1 in
        match cleaners_push reaction s σ2 with
        | Some σ3 => Done () σ3
        | None => Thrown TypeError σ2
        end
  end.

(** [Array.isArray(target)] for a raw target. *)
Definition isArray (σ : state) (target : loc) : bool :=
  match heap σ !! target with
  | Some (ORaw _ (DArray _)) => true
  | _ => false
  end.

Definition addReactionsForKey (reactionsForKey : list rid) (σ : state)
    (reactionsForTarget : gmap StoreKey setid) (key : StoreKey) : list rid :=
  match reactionsForTarget !! key with
  | Some s => foldl (λ acc reaction, set_add reaction acc) reactionsForKey
                (members σ s)
  | None => reactionsForKey
  end.

Definition structural (t : OpType) : bool :=
  match t with
  | OpAdd | OpDelete | OpClear | OpArray => true
  | _ => false
  end.

(** [None]: [connectionStore.get(target)] is [undefined], and the lookup in
    [addReactionsForKey] raises. *)
Definition getReactionsForOperation (σ : state) (op : Operation)
    : option (list rid) :=
  match connectionStore σ !! op_target op with
  | None => None
  | Some reactionsForTarget =>
      let reactionsForKey :=
        addReactionsForKey [] σ reactionsForTarget (key_of (op_key op)) in
      Some (if structural (op_type op)
            then
              let iterationKey :=
                if isArray σ (op_target op) then SKProp (PStr "length")
                else ITERATION_KEY in
              addReactionsForKey reactionsForKey σ reactionsForTarget
                iterationKey
            else reactionsForKey)
  end.

(** [releaseReaction].  An identity that names no reaction does not occur
    in a run and is left alone. *)
Definition releaseReaction (reaction : rid) (σ : state) : state :=
  match reactions σ !! reaction with
  | None => σ
  | Some (mkReaction f cl u) =>
      let σ1 :=
        match cl with
        | Some cl =>
            with_sets (λ S, foldl (λ S reactionsForKey,
                                     alter (set_delete reaction)
                                       reactionsForKey S) S cl) σ
        | None => σ
        end in
      with_reactions (<[reaction := mkReaction f (Some []) u]>) σ1
  end.

(** ** Reaction stack *)

Definition isRunning (reaction : rid) (σ : state) : bool :=
  bool_decide (reaction ∈ reactionStack σ).

Definition hasRunningReaction (σ : state) : bool :=
  bool_decide (0 < length (reactionStack σ))%nat.

(** The stack grows at its end, as the JavaScript array does. *)
Definition getRunningReaction (σ : state) : option rid :=
  last (reactionStack σ).

Definition registerRunningReaction (op : Operation) : M () := λ σ,
  match getRunningReaction σ with
  | Some runningReaction => registerReactionForOperation runningReaction op σ
  | None => Done () σ
  end.

Definition stack_push (reaction : rid) : state → state :=
  with_stack (λ st, st ++ [reaction]).
Definition stack_pop : state → state :=
  with_stack (λ st, take (Nat.pred (length st)) st).

(** [unobserve] *)
Definition unobserve (reaction : rid) (σ : state) : state :=
  match reactions σ !! reaction with
  | Some (mkReaction f cl false) =>
      releaseReaction reaction
        (with_reactions (<[reaction := mkReaction f cl true]>) σ)
  | _ => σ
  end.

(** ** The JavaScript heap: ordinary objects, arrays, Maps and Sets

    What [Reflect.get], [Reflect.set], [hasOwnProperty] and the native
    methods do on a raw object.  [None] marks what the model leaves out:
    inherited and function-valued properties, holes in arrays, properties
    of Maps and Sets other than their methods. *)

Fixpoint assoc {K V} `{EqDecision K} (k : K) (l : list (K * V)) : option V :=
  match l with
  | [] => None
  | (k', v) :: l' => if decide (k = k') then Some v else assoc k l'
  end.

Fixpoint assoc_set {K V} `{EqDecision K} (k : K) (v : V) (l : list (K * V))
    : list (K * V) :=
  match l with
  | [] => [(k, v)]
  | (k', v') :: l' =>
      if decide (k = k') then (k, v) :: l' else (k', v') :: assoc_set k v l'
  end.

Definition assoc_delete {K V} `{EqDecision K} (k : K) (l : list (K * V))
    : list (K * V) :=
  filter (λ kv, kv.1 ≠ k) l.

(** [arr[i] = v] on a dense array; a write past the end fills the gap
    (the model has [undefined] where JavaScript has holes). *)
Definition array_write (i : nat) (v : value) (es : list value) : list value :=
  if bool_decide (i < length es)%nat then <[i := v]> es
  else es ++ replicate (i - length es) VUndefined ++ [v].

Definition array_resize (n : nat) (es : list value) : list value :=
  take n es ++ replicate (n - length es) VUndefined.

Definition data_get (d : Data) (k : PropertyKey) : option value :=
  match d, k with
  | DProps ps, _ => Some (default VUndefined (assoc k ps))
  | DArray es, PIdx i => Some (default VUndefined (es !! i))
  | DArray es, PStr "length" => Some (VNum (Z.of_nat (length es)))
  | _, _ => None
  end.

Definition data_hasOwn (d : Data) (k : PropertyKey) : option bool :=
  match d, k with
  | DProps ps, _ => Some (bool_decide (is_Some (assoc k ps)))
  | DArray es, PIdx i => Some (bool_decide (i < length es)%nat)
  | DArray es, PStr "length" => Some true
  | _, _ => None
  end.

Definition data_set (d : Data) (k : PropertyKey) (v : value) : option Data :=
  match d, k with
  | DProps ps, _ => Some (DProps (assoc_set k v ps))
  | DArray es, PIdx i => Some (DArray (array_write i v es))
  | DArray es, PStr "length" =>
      match v with
      | VNum n => if bool_decide (0 ≤ n)
                  then Some (DArray (array_resize (Z.to_nat n) es))
                  else None
      | _ => None
      end
  | _, _ => None
  end.

Definition data_delete (d : Data) (k : PropertyKey) : option Data :=
  match d with
  | DProps ps => Some (DProps (assoc_delete k ps))
  | _ => None
  end.

Definition data_ownKeys (d : Data) : option (list PropertyKey) :=
  match d with
  | DProps ps => Some (ps.*1)
  | DArray es => Some (map PIdx (seq 0 (length es)) ++ [PStr "length"])
  | _ => None
  end.

Definition raw_data (σ : state) (o : loc) : option Data :=
  match heap σ !! o with
  | Some (ORaw _ d) => Some d
  | _ => None
  end.

Definition write_data (o : loc) (d : Data) (σ : state) : state :=
  with_heap (alter (λ c, match c with
                         | ORaw ct _ => ORaw ct d
                         | OProxy t h => OProxy t h
                         end) o) σ.

(** Lift a heap read or write on the raw object [o] into [M]. *)
Definition Reflect_get (o : loc) (k : PropertyKey) : M value := λ σ,
  match raw_data σ o ≫= λ d, data_get d k with
  | Some v => Done v σ
  | None => Stuck Unmodelled
  end.

Definition hasOwnProperty (o : loc) (k : PropertyKey) : M bool := λ σ,
  match raw_data σ o ≫= λ d, data_hasOwn d k with
  | Some b => Done b σ
  | None => Stuck Unmodelled
  end.

Definition Reflect_set (o : loc) (k : PropertyKey) (v : value) : M bool := λ σ,
  match raw_data σ o ≫= λ d, data_set d k v with
  | Some d' => Done true (write_data o d' σ)
  | None => Stuck Unmodelled
  end.

Definition Reflect_deleteProperty (o : loc) (k : PropertyKey) : M bool := λ σ,
  match raw_data σ o ≫= λ d, data_delete d k with
  | Some d' => Done true (write_data o d' σ)
  | None => Stuck Unmodelled
  end.

Definition Reflect_ownKeys (o : loc) : M (list PropertyKey) := λ σ,
  match raw_data σ o ≫= data_ownKeys with
  | Some ks => Done ks σ
  | None => Stuck Unmodelled
  end.

(** *** Native array methods *)

Fixpoint index_from (x : value) (es : list value) (i : nat) : Z :=
  match es with
  | [] => -1
  | e :: es' => if strict_eq e x then Z.of_nat i else index_from x es' (S i)
  end.

Fixpoint last_index_from (x : value) (es : list value) (i : nat) : Z :=
  match es with
  | [] => -1
  | e :: es' =>
      let later := last_index_from x es' (S i) in
      if bool_decide (0 ≤ later) then later
      else if strict_eq e x then Z.of_nat i else -1
  end.

(** What a native method hands back: a value, or a newly created array
    with the given elements. *)
Inductive NativeResult :=
  | RValue (v : value)
  | RArray (es : list value).

(** The start and the count that [Array.prototype.splice] works with. *)
Definition splice_start (len : nat) (start : Z) : nat :=
  if bool_decide (start < 0) then Z.to_nat (Z.max (Z.of_nat len + start) 0)
  else Z.to_nat (Z.min start (Z.of_nat len)).

Definition splice_count (len actualStart : nat) (rest : list value)
    : option nat :=
  match rest with
  | [] => Some (len - actualStart)%nat
  | VNum dc :: _ =>
      Some (Z.to_nat (Z.min (Z.max dc 0) (Z.of_nat (len - actualStart))))
  | VUndefined :: _ => Some 0%nat
  | _ => None
  end.

(** [native_array m self args es]: the elements of the array after
    [Array.prototype.m] ran on it with [args], and the result. *)
Definition native_array (m : Method) (self : loc) (args : list value)
    (es : list value) : option (list value * NativeResult) :=
  match m, args with
  | push, _ =>
      Some (es ++ args, RValue (VNum (Z.of_nat (length (es ++ args)))))
  | pop, _ =>
      Some (take (Nat.pred (length es)) es,
            RValue (default VUndefined (last es)))
  | shift, _ => Some (drop 1 es, RValue (default VUndefined (head es)))
  | unshift, _ =>
      Some (args ++ es, RValue (VNum (Z.of_nat (length (args ++ es)))))
  | splice, VNum start :: rest =>
      let actualStart := splice_start (length es) start in
      match splice_count (length es) actualStart rest with
      | Some count =>
          Some (take actualStart es ++ drop 1 rest
                  ++ drop (actualStart + count) es,
                RArray (take count (drop actualStart es)))
      | None => None
      end
  | indexOf, [x] => Some (es, RValue (VNum (index_from x es 0)))
  | lastIndexOf, [x] => Some (es, RValue (VNum (last_index_from x es 0)))
  | includes, [x] => Some (es, RValue (VBool (bool_decide (x ∈ es))))
  | reverse, _ => Some (rev es, RValue (VObj self))
  | _, _ => None
  end.

(** *** Native Map and Set methods

    Keys are compared by SameValueZero, which on the model's values is
    equality.  [Some None]: the prototype has no such method (a Map has no
    [add], a Set no [get] or [set]) and calling it raises. *)
Definition native_collection (m : Method) (self : loc) (args : list value)
    (d : Data) : option (option (Data * value)) :=
  let key := default VUndefined (args !! 0%nat) in
  let val := default VUndefined (args !! 1%nat) in
  match d, m with
  | DMap es, has => Some (Some (d, VBool (bool_decide (is_Some (assoc key es)))))
  | DMap es, get => Some (Some (d, default VUndefined (assoc key es)))
  | DMap es, set => Some (Some (DMap (assoc_set key val es), VObj self))
  | DMap es, delete =>
      Some (Some (DMap (assoc_delete key es),
                  VBool (bool_decide (is_Some (assoc key es)))))
  | DMap es, clear => Some (Some (DMap [], VUndefined))
  | DSet ms, has => Some (Some (d, VBool (bool_decide (key ∈ ms))))
  | DSet ms, add =>
      Some (Some (DSet (if bool_decide (key ∈ ms) then ms else ms ++ [key]),
                  VObj self))
  | DSet ms, delete =>
      Some (Some (DSet (filter (λ x, x ≠ key) ms),
                  VBool (bool_decide (key ∈ ms))))
  | DSet ms, clear => Some (Some (DSet [], VUndefined))
  | DMap _, add | DSet _, (get | set) => Some None
  | _, _ => None
  end.

Definition array_length (target : loc) : M Z := λ σ,
  match raw_data σ target with
  | Some (DArray es) => Done (Z.of_nat (length es)) σ
  | _ => Stuck Unmodelled
  end.

(** Allocate a raw object. *)
Definition alloc (c : Ctor) (d : Data) : M loc := λ σ,
  Done (nextLoc σ)
    (mkState (<[nextLoc σ := ORaw c d]> (heap σ)) (rawToProxy σ)
       (proxyToRaw σ) (connectionStore σ) (sets σ) (reactions σ)
       (reactionStack σ) (S (nextLoc σ)) (nextSet σ) (nextRid σ)
       (triggered σ)).

(** [Reflect.apply(result, target, args)] for a native array method. *)
Definition apply_native_array (m : Method) (target : loc) (args : list value)
    : M NativeResult := λ σ,
  match raw_data σ target with
  | Some (DArray es) =>
      match native_array m target args es with
      | Some (es', r) => Done r (write_data target (DArray es') σ)
      | None => Stuck Unmodelled
      end
  | _ => Stuck Unmodelled
  end.

(** The JavaScript value of a native result; a new array is allocated. *)
Definition result_value (r : NativeResult) : M value :=
  match r with
  | RValue v => ret v
  | RArray es => let! l := alloc CArray (DArray es) in ret (VObj l)
  end.

(** [proto.m.apply(target, args)] for a Map or Set. *)
Definition apply_native_collection (m : Method) (target : loc)
    (args : list value) : M value := λ σ,
  match raw_data σ target ≫= native_collection m target args with
  | Some (Some (d', v)) => Done v (write_data target d' σ)
  | Some None => Thrown TypeError σ
  | None => Stuck Unmodelled
  end.

Definition collection_size (target : loc) : M value := λ σ,
  match raw_data σ target with
  | Some (DMap es) => Done (VNum (Z.of_nat (length es))) σ
  | Some (DSet ms) => Done (VNum (Z.of_nat (length ms))) σ
  | _ => Stuck Unmodelled
  end.

(** Operation literals. *)
Definition operation (t : OpType) (target : loc) : Operation :=
  mkOperation t target None None None None None None None None.

Definition op_trap (t : OpType) (target : loc) (key : StoreKey)
    (receiver : option loc) (value oldValue : option value) : Operation :=
  mkOperation t target (Some key) receiver value oldValue None None None None.

(** The reaction function object that [observe] creates. *)
Definition new_reaction (f : option Operation → prog) (σ : state) : state :=
  mkState (heap σ) (rawToProxy σ) (proxyToRaw σ) (connectionStore σ)
    (sets σ) (<[nextRid σ := mkReaction f None false]> (reactions σ))
    (reactionStack σ) (nextLoc σ) (nextSet σ) (S (nextRid σ))
    (triggered σ).

(** Ghost: record that [queueReactionsForOperation] calls [reaction]. *)
Definition log (reaction : rid) (op : Operation) : state → state :=
  with_triggered (λ t, t ++ [(reaction, op)]).

(** The state the function of [reaction] starts in: the reaction is
    released and pushed. *)
Definition enter (reaction : rid) (σ : state) : state :=
  stack_push reaction (releaseReaction reaction σ).

(** ** Handlers and reactions

    Everything that may call a user function is defined over [apply_fn],
    which stands for [Reflect.apply(fn, thisArgument, args)] on the body
    of a user function. *)
Section Engine.
Variable apply_fn : prog → M value.

(** *** Reaction engine *)

Definition runReactionWrap (reaction : rid) (args : option Operation)
    : M value := λ σ,
  match reactions σ !! reaction with
  | None => Stuck Unmodelled
  | Some R =>
      if unobserved R then apply_fn (fn R args) σ
      else if isRunning reaction σ then Done VUndefined σ
      else
        match apply_fn (fn R args) (enter reaction σ) with
        | Done v σ' => Done v (stack_pop σ')
        | Thrown e σ' => Thrown e (stack_pop σ')
        | Stuck w => Stuck w
        end
  end.

(** [set.forEach(reaction => reaction(operation))] on the Set that
    [getReactionsForOperation] built. *)
Fixpoint forEach_reaction (rs : list rid) (operation : Operation) : M () :=
  match rs with
  | [] => ret ()
  | reaction :: rs' =>
      modify (log reaction operation) >>
      runReactionWrap reaction (Some operation) >>
      forEach_reaction rs' operation
  end.

Definition queueReactionsForOperation (operation : Operation) : M () := λ σ,
  match getReactionsForOperation σ operation with
  | Some rs => forEach_reaction rs operation σ
  | None => Thrown TypeError σ
  end.

Definition observe (f : option Operation → prog) : M rid := λ σ,
  let reaction := nextRid σ in
  (runReactionWrap reaction None >> ret reaction) (new_reaction f σ).

(** *** Plain-object strategy *)

Definition baseHandlers_get (target : loc) (key : PropertyKey)
    (receiver : loc) : M value :=
  let! result := Reflect_get target key in
  match key with
  | PSym _ => ret result
  | _ =>
      registerRunningReaction
        (op_trap OpGet target (SKProp key) (Some receiver) None None) >>
      match result with
      | VObj l => λ σ,
          match rawToProxy σ !! l with
          | Some reactiveResult => Done (VObj reactiveResult) σ
          | None => let '(p, σ') := reactive l σ in Done (VObj p) σ'
          end
      | _ => ret result
      end
  end.

Definition baseHandlers_ownKeys (target : loc) : M (list PropertyKey) :=
  registerRunningReaction (operation OpIterate target) >>
  Reflect_ownKeys target.

Definition baseHandlers_set (target : loc) (key : PropertyKey)
    (value : value) (receiver : loc) : M bool :=
  let! value := gets (λ σ, if isObject value then toRaw σ value else value) in
  let! hadKey := hasOwnProperty target key in
  let! oldValue := Reflect_get target key in
  let! result := Reflect_set target key value in
  (if negb hadKey then
     queueReactionsForOperation
       (op_trap OpAdd target (SKProp key) (Some receiver) (Some value) None)
   else if negb (strict_eq oldValue value) then
     queueReactionsForOperation
       (op_trap OpSet target (SKProp key) (Some receiver) (Some value)
          (Some oldValue))
   else ret ()) >>
  ret result.

Definition baseHandlers_deleteProperty (target : loc) (key : PropertyKey)
    : M bool :=
  let! hadKey := hasOwnProperty target key in
  let! oldValue := Reflect_get target key in
  let! result := Reflect_deleteProperty target key in
  (if hadKey : bool then
     queueReactionsForOperation
       (op_trap OpDelete target (SKProp key) None None (Some oldValue))
   else ret ()) >>
  ret result.

(** *** Indexed-sequence strategy *)

Definition doArrayKeys (target receiver : loc) (key : Method)
    (args : list value) (result : NativeResult) : M () :=
  let! length := array_length target in
  let single := match result with RValue v => [v] | RArray _ => [] end in
  let '(inserted, insertedStart, deleted, deletedStart) :=
    match key with
    | push => (Some args, length - Z.of_nat (List.length args), None, -1)
    | pop => (None, -1, Some single, length)
    | shift => (None, -1, Some single, 0)
    | unshift => (Some args, 0, None, -1)
    | splice =>
        let startIdx := match args !! 0%nat with
                        | Some (VNum z) => z | _ => 0 end in
        let deleteCount := match args !! 1%nat with
                           | Some (VNum z) => z | _ => 0 end in
        let items := drop 2 args in
        (Some items,
         if bool_decide (0 ≤ startIdx) then startIdx else length,
         match result with RArray es => Some es | RValue _ => None end,
         if bool_decide (0 < deleteCount) then startIdx else -1)
    | _ => (None, -1, None, -1)
    end in
  queueReactionsForOperation
    (mkOperation OpArray target (Some (SKProp (PStr (method_name key))))
       (Some receiver) None None inserted (Some insertedStart) deleted
       (Some deletedStart)).

(** Reading a property that is not a function through [arrayHandlers.get]:
    the result is returned as it is. *)
Definition arrayHandlers_get (target : loc) (key : PropertyKey)
    (receiver : loc) : M value :=
  let! result := Reflect_get target key in
  match key with
  | PSym _ => ret result
  | _ =>
      registerRunningReaction
        (op_trap OpGet target (SKProp key) (Some receiver) None None) >>
      ret result
  end.

Definition is_array_method (m : Method) : bool :=
  match m with
  | push | pop | shift | unshift | splice | indexOf | lastIndexOf
  | includes | reverse | forEach => true
  | _ => false
  end.

(** Reading a method through [arrayHandlers.get] and calling what the
    trap returned. *)
Definition arrayHandlers_call (target : loc) (key : Method)
    (receiver : loc) (args : list value) : M value :=
  registerRunningReaction
    (op_trap OpGet target (SKProp (PStr (method_name key))) (Some receiver)
       None None) >>
  if negb (is_array_method key) then throw TypeError
  else
    match key with
    | indexOf | lastIndexOf =>
        let! arg0 := gets (λ σ, toRaw σ (default VUndefined (args !! 0%nat))) in
        let! r := apply_native_array key target (arg0 :: drop 1 args) in
        result_value r
    | _ =>
        let! function_result := apply_native_array key target args in
        doArrayKeys target receiver key args function_result >>
        result_value function_result
    end.

(** [Array.prototype.forEach] on the raw array: the callback gets the
    elements as they are stored. *)
Fixpoint forEach_loop (target : loc) (cb : value → value → prog)
    (i n : nat) : M () :=
  match n with
  | O => ret ()
  | S n' => λ σ,
      match raw_data σ target with
      | Some (DArray es) =>
          match es !! i with
          | Some e =>
              (apply_fn (cb e (VNum (Z.of_nat i))) >>
               forEach_loop target cb (S i) n') σ
          | None => forEach_loop target cb (S i) n' σ
          end
      | _ => Stuck Unmodelled
      end
  end.

Definition native_forEach (target : loc) (cb : value → value → prog)
    : M () :=
  let! len := array_length target in
  forEach_loop target cb 0 (Z.to_nat len).

Definition arrayHandlers_forEach (target receiver : loc)
    (cb : value → value → prog) : M value :=
  registerRunningReaction
    (op_trap OpGet target (SKProp (PStr "forEach")) (Some receiver)
       None None) >>
  native_forEach target cb >>
  doArrayKeys target receiver forEach [] (RValue VUndefined) >>
  ret VUndefined.

(** *** Keyed-collection strategy *)

Definition findReactive (obj : value) : M value := λ σ,
  let reactiveObj := match obj with
                     | VObj l => rawToProxy σ !! l
                     | _ => None
                     end in
  if hasRunningReaction σ && isObject obj then
    match reactiveObj, obj with
    | Some p, _ => Done (VObj p) σ
    | None, VObj l => let '(p, σ') := reactive l σ in Done (VObj p) σ'
    | None, _ => Done obj σ
    end
  else Done (from_option VObj obj reactiveObj) σ.

(** [proxyToRaw.get(this)] *)
Definition this_target (this : loc) : M loc := λ σ,
  match proxyToRaw σ !! this with
  | Some target => Done target σ
  | None => Stuck Unmodelled
  end.

Definition arg (args : list value) (i : nat) : value :=
  default VUndefined (args !! i).

Definition instrumentations_has (this : loc) (args : list value) : M value :=
  let! target := this_target this in
  registerRunningReaction
    (op_trap OpHas target (SKVal (arg args 0)) None None None) >>
  apply_native_collection has target args.

Definition instrumentations_get (this : loc) (args : list value) : M value :=
  let! target := this_target this in
  registerRunningReaction
    (op_trap OpGet target (SKVal (arg args 0)) None None None) >>
  let! v := apply_native_collection get target args in
  findReactive v.

Definition instrumentations_set (this : loc) (args : list value) : M value :=
  let key := arg args 0 in
  let value := arg args 1 in
  let! target := this_target this in
  let! hadKey := apply_native_collection has target [key] in
  let! oldValue := apply_native_collection get target [key] in
  let! result := apply_native_collection set target args in
  (if negb (bool_decide (hadKey = VBool true)) then
     queueReactionsForOperation
       (op_trap OpAdd target (SKVal key) None None None)
   else if negb (strict_eq value oldValue) then
     queueReactionsForOperation
       (op_trap OpSet target (SKVal key) None None None)
   else ret ()) >>
  ret result.

Definition instrumentations_add (this : loc) (args : list value) : M value :=
  let key := arg args 0 in
  let! target := this_target this in
  let! hadKey := apply_native_collection has target [key] in
  let! result := apply_native_collection add target args in
  (if negb (bool_decide (hadKey = VBool true)) then
     queueReactionsForOperation
       (op_trap OpAdd target (SKVal key) None None None)
   else ret ()) >>
  ret result.

Definition instrumentations_delete (this : loc) (args : list value)
    : M value :=
  let key := arg args 0 in
  let! target := this_target this in
  let! hadKey := apply_native_collection has target [key] in
  let! result := apply_native_collection delete target args in
  (if bool_decide (hadKey = VBool true) then
     queueReactionsForOperation
       (op_trap OpDelete target (SKVal key) None None None)
   else ret ()) >>
  ret result.

Definition instrumentations_clear (this : loc) (args : list value)
    : M value :=
  let! target := this_target this in
  let! size := collection_size target in
  let! result := apply_native_collection clear target args in
  (if negb (bool_decide (size = VNum 0)) then
     queueReactionsForOperation (operation OpClear target)
   else ret ()) >>
  ret result.

Definition instrumentations_size (this : loc) : M value :=
    let! target := this_target this in
    registerRunningReaction (operation OpIterate target) >>
    collection_size target.
End Engine.

(** ** Running user code

    A property access or a method call goes through the traps of the
    handler the proxy was created with, or straight to the object when it
    is raw.  [arrayHandlers] has a [get] trap only and [collectionHandlers]
    too, so a write or a delete on such a proxy reaches the target as on
    the raw object. *)
Section Dispatch.
Variable apply_fn : prog → M value.

Definition do_get (o : loc) (k : PropertyKey) : M value := λ σ,
  match heap σ !! o with
  | Some (OProxy target baseHandlers) => baseHandlers_get target k o σ
  | Some (OProxy target arrayHandlers) => arrayHandlers_get target k o σ
  | Some (OProxy target collectionHandlers) =>
      match k with
      | PStr "size" => instrumentations_size o σ
      | _ => Stuck Unmodelled
      end
  | Some (ORaw _ _) => Reflect_get o k σ
  | None => Stuck Unmodelled
  end.

Definition do_set (o : loc) (k : PropertyKey) (v : value) : M value := λ σ,
  match heap σ !! o with
  | Some (OProxy target baseHandlers) =>
      (baseHandlers_set apply_fn target k v o >> ret v) σ
  | Some (OProxy target arrayHandlers) => (Reflect_set target k v >> ret v) σ
  | Some (OProxy target collectionHandlers) => Stuck Unmodelled
  | Some (ORaw _ _) => (Reflect_set o k v >> ret v) σ
  | None => Stuck Unmodelled
  end.

Definition do_delete (o : loc) (k : PropertyKey) : M value := λ σ,
  match heap σ !! o with
  | Some (OProxy target baseHandlers) =>
      (let! b := baseHandlers_deleteProperty apply_fn target k in
       ret (VBool b)) σ
  | Some (OProxy target _) =>
      (let! b := Reflect_deleteProperty target k in ret (VBool b)) σ
  | Some (ORaw _ _) =>
      (let! b := Reflect_deleteProperty o k in ret (VBool b)) σ
  | None => Stuck Unmodelled
  end.

Definition do_ownKeys (o : loc) : M (list PropertyKey) := λ σ,
  match heap σ !! o with
  | Some (OProxy target baseHandlers) => baseHandlers_ownKeys target σ
  | Some (OProxy target _) => Reflect_ownKeys target σ
  | Some (ORaw _ _) => Reflect_ownKeys o σ
  | None => Stuck Unmodelled
  end.

Definition do_method (o : loc) (m : Method) (args : list value)
    : M value := λ σ,
  match heap σ !! o with
  | Some (OProxy target arrayHandlers) =>
      match m with
      | forEach => Stuck Unmodelled
      | _ => arrayHandlers_call apply_fn target m o args σ
      end
  | Some (OProxy target collectionHandlers) =>
      match m with
      | has => instrumentations_has o args σ
      | get => instrumentations_get o args σ
      | set => instrumentations_set apply_fn o args σ
      | add => instrumentations_add apply_fn o args σ
      | delete => instrumentations_delete apply_fn o args σ
      | clear => instrumentations_clear apply_fn o args σ
      | _ => Stuck Unmodelled
      end
  | Some (ORaw _ (DArray _)) =>
      match m with
      | forEach => Stuck Unmodelled
      | _ => (if is_array_method m
              then let! r := apply_native_array m o args in result_value r
              else throw TypeError) σ
      end
  | Some (ORaw _ (DMap _ | DSet _)) => apply_native_collection m o args σ
  | _ => Stuck Unmodelled
  end.

Definition do_forEach (o : loc) (cb : value → value → prog)
    : M value := λ σ,
  match heap σ !! o with
  | Some (OProxy target arrayHandlers) =>
      arrayHandlers_forEach apply_fn target o cb σ
  | Some (ORaw _ (DArray _)) => (native_forEach apply_fn o cb >> ret VUndefined) σ
  | _ => Stuck Unmodelled
  end.

Definition do_call (a : api) : M value :=
    match a with
    | AReactive o => λ σ, let '(p, σ') := reactive o σ in Done (VObj p) σ'
    | ARaw v => gets (raw v)
    | AUnobserve r => modify (unobserve r) >> ret VUndefined
    | AInvoke r arg => runReactionWrap apply_fn r arg
    | AGet o k => do_get o k
    | ASet o k v => do_set o k v
    | ADelete o k => do_delete o k
    | AMethod o m args => do_method o m args
    | ANew c d => let! l := alloc c d in ret (VObj l)
    end.
End Dispatch.

(** [exec fuel p]: run the user code [p]; every call into the module and
    every call of a user function takes one unit of [fuel]. *)
Fixpoint exec (fuel : nat) (p : prog) : M value :=
  match fuel with
  | O => λ _, Stuck OutOfFuel
  | S n =>
      match p with
      | Ret v => ret v
      | Throw e => throw e
      | Call a k => let! v := do_call (exec n) a in exec n (k v)
      | Observe f k => let! r := observe (exec n) f in exec n (k r)
      | ForEach o cb k => let! v := do_forEach (exec n) o cb in exec n (k v)
      | OwnKeys o k => let! ks := do_ownKeys o in exec n (k ks)
      | TryCatch body k => λ σ,
          match exec n body σ with
          | Done v σ' => exec n (k (inl v)) σ'
          | Thrown e σ' => exec n (k (inr e)) σ'
          | Stuck w => Stuck w
          end
      end
  end.

(** ** A caller: [onSet] of [src/assets/index.ts]

    [onSet(property, target, callback)] observes a function that reads
    [target[property]] and, unless it is the first run, passes the value to
    [callback]. *)

(** [p; q]: run [p], drop what it returns, go on with [q]. *)
Fixpoint seq (p q : prog) : prog :=
  match p with
  | Ret _ => q
  | Throw e => Throw e
  | Call a k => Call a (λ v, seq (k v) q)
  | Observe f k => Observe f (λ r, seq (k r) q)
  | ForEach o cb k => ForEach o cb (λ v, seq (k v) q)
  | OwnKeys o k => OwnKeys o (λ ks, seq (k ks) q)
  | TryCatch body k => TryCatch body (λ r, seq (k r) q)
  end.



(** * Specification vocabulary

    The predicates the theorems are stated with, and the scenarios they
    are checked on. *)

(** [after o Q]: the state that the outcome [o] ends in, if any, has [Q]. *)
Definition after {A} (o : outcome A) (Q : state → Prop) : Prop :=
  match o with
  | Done _ σ' | Thrown _ σ' => Q σ'
  | Stuck _ => True
  end.

(** The calls of [forEach_reaction]: each reaction of the list is logged
    and run in turn, until the list ends or one of them throws. *)
Inductive Loop (Rel : state → state → Prop) (op : Operation)
    : list rid → state → state → Prop :=
  | Loop_nil σ : Loop Rel op [] σ σ
  | Loop_cons r rs σ σ1 σ2 :
      Rel (log r op σ) σ1 → Loop Rel op rs σ1 σ2 →
      Loop Rel op (r :: rs) σ σ2
  | Loop_abort r rs σ σ1 :
      Rel (log r op σ) σ1 → Loop Rel op (r :: rs) σ σ1.

Definition respects (Rel : state → state → Prop) {A} (m : M A) : Prop :=
  ∀ σ, after (m σ) (Rel σ).

(** A computation that leaves the state as it is. *)
Definition readonly {A} (m : M A) : Prop :=
  ∀ σ, after (m σ) (λ σ', σ' = σ).

(** Raw objects and their wrappers are paired both ways, a wrapper is a
    proxy object over its raw object, [nextLoc] is beyond every allocated
    object, and what has a wrapper is a raw object. *)
Definition registry_wf (σ : state) : Prop :=
  (∀ o p, rawToProxy σ !! o = Some p → proxyToRaw σ !! p = Some o) ∧
  (∀ p o, proxyToRaw σ !! p = Some o →
          rawToProxy σ !! o = Some p ∧ ∃ h, heap σ !! p = Some (OProxy o h)) ∧
  (∀ l, is_Some (heap σ !! l) → (l < nextLoc σ)%nat) ∧
  (∀ o p, rawToProxy σ !! o = Some p → is_Some (constructor_of σ o)).

(** A state with one object that is not instrumented: a [Date]. *)
Definition date_state : state :=
  match alloc (CGlobal "Date") DOpaque empty_state with
  | Done _ σ => σ
  | _ => empty_state
  end.

(** A state with one plain object [{a: 1}] that was never wrapped. *)
Definition plain_state : state :=
  match alloc CObject (DProps [(PStr "a", VNum 1)]) empty_state with
  | Done _ σ => σ
  | _ => empty_state
  end.

(** The part of the state that the dependency store and the reaction
    engine never write. *)
Definition frame (σ : state) :=
  (heap σ, rawToProxy σ, proxyToRaw σ, nextLoc σ).

(** Every Set a reaction is a member of is in the reaction's [cleaners];
    a reaction on the stack has its [cleaners] assigned; [nextRid] is
    beyond every reaction. *)
Definition store_wf (σ : state) : Prop :=
  (∀ s r, r ∈ members σ s →
          ∃ R cl, reactions σ !! r = Some R ∧ cleaners R = Some cl ∧ s ∈ cl) ∧
  (∀ r, r ∈ reactionStack σ →
        ∃ R cl, reactions σ !! r = Some R ∧ cleaners R = Some cl) ∧
  (∀ r, is_Some (reactions σ !! r) → (r < nextRid σ)%nat).

(** The part of the state [store_wf] is about. *)
Definition core (σ : state) :=
  (sets σ, reactions σ, reactionStack σ, nextRid σ).

(** [publishes fuel m σ op σ0 a]: running [m] in [σ] comes to changing the
    state to [σ0] and then calling, with the operation [op], the reactions
    that [op] reaches there, before [a] is returned; when it does return,
    each of these reactions was called with [op]. *)
Definition publishes (fuel : nat) {A} (m : M A) (σ : state) (op : Operation)
    (σ0 : state) (a : A) : Prop :=
  m σ = (queueReactionsForOperation (exec fuel) op >> ret a) σ0
  ∧ ∀ σ1 rs,
      m σ = Done a σ1 → getReactionsForOperation σ0 op = Some rs →
      ∀ r, r ∈ rs → (r, op) ∈ drop (length (triggered σ)) (triggered σ1).

(** The value [baseHandlers.set] stores: the raw object of a wrapper,
    anything else as it is. *)
Definition stored (σ : state) (v : value) : value :=
  if isObject v then toRaw σ v else v.

Definition obj (v : value) (k : loc → prog) : prog :=
  match v with
  | VObj l => k l
  | _ => Throw TypeError
  end.

(** [reactive(new C(...))] *)
Definition new_reactive (c : Ctor) (d : Data) (k : loc → prog) : prog :=
  Call (ANew c d) (λ o, obj o (λ o, Call (AReactive o) (λ p, obj p k))).

Definition state_of (o : outcome value) : state :=
  match o with
  | Done _ σ | Thrown _ σ => σ
  | Stuck _ => empty_state
  end.

(** [reactive({a: 1})]: the raw object is 0 and its wrapper 1. *)
Definition object_state : state :=
  state_of (exec 10 (new_reactive CObject (DProps [(PStr "a", VNum 1)])
                       (λ p, Ret (VObj p))) empty_state).

(** [reactive([1, 2, 3])]: the raw array is 0 and its wrapper 1. *)
Definition array_state : state :=
  state_of (exec 10 (new_reactive CArray (DArray [VNum 1; VNum 2; VNum 3])
                       (λ p, Ret (VObj p))) empty_state).



(** [arr = reactive([1, 2, 3])]; a reaction reads [arr.length]; then
    [arr.push(4)] and [arr.splice(1, 1, 9)]. *)
Definition push_demo : prog :=
  new_reactive CArray (DArray [VNum 1; VNum 2; VNum 3]) (λ arr,
  Observe (λ _, Call (AGet arr (PStr "length")) Ret) (λ r,
  Call (AMethod arr push [VNum 4]) (λ _,
  Call (AMethod arr splice [VNum 1; VNum 1; VNum 9]) (λ _,
  Ret VUndefined)))).

(** The same with [arr.splice(1, 1, 9)] alone. *)
Definition splice_demo : prog :=
  new_reactive CArray (DArray [VNum 1; VNum 2; VNum 3]) (λ arr,
  Observe (λ _, Call (AGet arr (PStr "length")) Ret) (λ r,
  Call (AMethod arr splice [VNum 1; VNum 1; VNum 9]) (λ _,
  Ret VUndefined))).

Definition array_operation (m : Method) (inserted : option (list value))
    (insertedStart : Z) (deleted : option (list value)) (deletedStart : Z)
    : Operation :=
  mkOperation OpArray 0%nat (Some (SKProp (PStr (method_name m))))
    (Some 1%nat) None None inserted (Some insertedStart) deleted
    (Some deletedStart).

(** [m = reactive(new Map()); p = reactive({}); m.set("k", p)] *)
Definition map_set_demo : prog :=
  new_reactive CMap (DMap []) (λ m,
  new_reactive CObject (DProps []) (λ p,
  Call (AMethod m set [VStr "k"; VObj p]) (λ _, Ret (VObj p)))).

(** [s = reactive(new Set()); p = reactive({}); s.add(p)] *)
Definition set_add_demo : prog :=
  new_reactive CSet (DSet []) (λ s,
  new_reactive CObject (DProps []) (λ p,
  Call (AMethod s add [VObj p]) (λ _, Ret (VObj p)))).

(** [arr = reactive([]); p = reactive({}); arr.push(p); arr.indexOf(p)] *)
Definition array_push_demo : prog :=
  new_reactive CArray (DArray []) (λ arr,
  new_reactive CObject (DProps []) (λ p,
  Call (AMethod arr push [VObj p]) (λ _,
  Call (AMethod arr indexOf [VObj p]) Ret))).

(** [o = reactive({}); p = reactive({}); o.k = p] *)
Definition object_set_demo : prog :=
  new_reactive CObject (DProps []) (λ o,
  new_reactive CObject (DProps []) (λ p,
  Call (ASet o (PStr "k") (VObj p)) (λ _, Ret (VObj p)))).



Definition truthy (v : value) : bool :=
  match v with
  | VBool b => b
  | VUndefined | VNull | VNaN => false
  | VNum z => negb (z =? 0)
  | VStr s => negb (String.eqb s "")
  | VObj _ => true
  end.

(** [o = reactive({flag: true, a: 1})]; the reaction reads [o.a] only when
    [o.flag] is true; then [o.a = 2], [o.flag = false], [o.a = 3],
    [o.a = 4]. *)
Definition branch_demo : prog :=
  new_reactive CObject
    (DProps [(PStr "flag", VBool true); (PStr "a", VNum 1)]) (λ o,
  Observe (λ _, Call (AGet o (PStr "flag")) (λ f,
                if truthy f then Call (AGet o (PStr "a")) Ret
                else Ret VUndefined)) (λ r,
  Call (ASet o (PStr "a") (VNum 2)) (λ _,
  Call (ASet o (PStr "flag") (VBool false)) (λ _,
  Call (ASet o (PStr "a") (VNum 3)) (λ _,
  Call (ASet o (PStr "a") (VNum 4)) (λ _, Ret VUndefined)))))).

(** What the calls of a run were made for. *)
Definition calls (σ : state)
    : list (rid * OpType * option StoreKey * option value) :=
  map (λ e, (e.1, op_type e.2, op_key e.2, op_value e.2)) (triggered σ).

(** The Set stored for the key [k] of the raw object [t]. *)
Definition subscribers (σ : state) (t : loc) (k : StoreKey) : list rid :=
  match connectionStore σ !! t ≫= λ T, T !! k with
  | Some s => members σ s
  | None => []
  end.

(** The state after [o = reactive({flag: true, a: 1})] and the first run
    of the reaction of [branch_demo]. *)
Definition branch_state : state :=
  state_of (exec 30
    (new_reactive CObject
       (DProps [(PStr "flag", VBool true); (PStr "a", VNum 1)]) (λ o,
     Observe (λ _, Call (AGet o (PStr "flag")) (λ f,
                   if truthy f then Call (AGet o (PStr "a")) Ret
                   else Ret VUndefined)) (λ r, Ret VUndefined)))
    empty_state).

(** [o = reactive({a: 1})]; the reaction reads [o.a] on its first run and
    throws when it is run again. *)
Definition throwing_reaction (o : loc) (op : option Operation) : prog :=
  match op with
  | None => Call (AGet o (PStr "a")) Ret
  | Some _ => Throw (VStr "boom")
  end.

Definition throw_state : state :=
  state_of (exec 30
    (new_reactive CObject (DProps [(PStr "a", VNum 1)]) (λ o,
     Observe (throwing_reaction o) (λ r, Ret VUndefined)))
    empty_state).

(** The write [o.a = 2] calls the reaction, which throws; the script
    catches the exception and then starts a second reaction that reads
    [o.a]. *)
Definition throw_demo : prog :=
  new_reactive CObject (DProps [(PStr "a", VNum 1)]) (λ o,
  Observe (throwing_reaction o) (λ r,
  TryCatch (Call (ASet o (PStr "a") (VNum 2)) Ret) (λ res,
  Observe (λ _, Call (AGet o (PStr "a")) Ret) (λ r2,
  Ret (match res with inl v => v | inr e => e end))))).

(** [o = reactive({a: 1})]; the reaction reads [o.a], and when it is run
    again it first stops itself with [unobserve]; then [o.a = 2],
    [o.a = 3], [o.a = 4]. *)
Definition self_stop_demo : prog :=
  new_reactive CObject (DProps [(PStr "a", VNum 1)]) (λ o,
  Observe (λ op, match op with
                 | None => Call (AGet o (PStr "a")) Ret
                 | Some _ =>
                     Call (AUnobserve 0%nat) (λ _,
                     Call (AGet o (PStr "a")) Ret)
                 end) (λ r,
  Call (ASet o (PStr "a") (VNum 2)) (λ _,
  Call (ASet o (PStr "a") (VNum 3)) (λ _,
  Call (ASet o (PStr "a") (VNum 4)) (λ _, Ret VUndefined))))).

(** The same up to and including [o.a = 2], during which the reaction
    stops itself. *)
Definition self_stop_prefix : prog :=
  new_reactive CObject (DProps [(PStr "a", VNum 1)]) (λ o,
  Observe (λ op, match op with
                 | None => Call (AGet o (PStr "a")) Ret
                 | Some _ =>
                     Call (AUnobserve 0%nat) (λ _,
                     Call (AGet o (PStr "a")) Ret)
                 end) (λ r,
  Call (ASet o (PStr "a") (VNum 2)) (λ _, Ret VUndefined))).

Definition is_unobserved (σ : state) (r : rid) : bool :=
  match reactions σ !! r with
  | Some R => unobserved R
  | None => false
  end.

(** [silenced r n σ]: the reaction [r] is stopped, is not running, is a
    member of no Set, and none of the calls logged after the first [n]
    was a call of [r]. *)
Definition silenced (r : rid) (n : nat) (σ : state) : Prop :=
  is_unobserved σ r = true
  ∧ (r ∉ reactionStack σ)
  ∧ (∀ s, r ∉ members σ s)
  ∧ (∀ e, e ∈ drop n (triggered σ) → e.1 ≠ r)
  ∧ (r < nextRid σ)%nat.

(** ** Invariants, and more scenarios *)

(** Every raw object that has a wrapper has an entry in [connectionStore]
    and is an object that [shouldInstrument] accepts, and its wrapper is a
    proxy with the handlers that [getHandlers] gives for it. *)
Definition tracked (σ : state) : Prop :=
  ∀ o p, rawToProxy σ !! o = Some p →
    is_Some (connectionStore σ !! o)
    ∧ ∃ c, constructor_of σ o = Some c ∧ shouldInstrument c = true
           ∧ heap σ !! p = Some (OProxy o (getHandlers c)).

Definition registry_inv (σ : state) : Prop := registry_wf σ ∧ tracked σ.

(** The registry of [σ'] extends that of [σ]. *)
Definition registry_extends (σ σ' : state) : Prop :=
  rawToProxy σ ⊆ rawToProxy σ' ∧ proxyToRaw σ ⊆ proxyToRaw σ'.

(** The Sets that the store refers to are allocated, and no two keys of
    the store share a Set. *)
Definition store_fresh (σ : state) : Prop :=
  (∀ t T k s, connectionStore σ !! t = Some T → T !! k = Some s →
              (s < nextSet σ)%nat)
  ∧ (∀ t1 T1 k1 t2 T2 k2 s,
       connectionStore σ !! t1 = Some T1 → T1 !! k1 = Some s →
       connectionStore σ !! t2 = Some T2 → T2 !! k2 = Some s →
       t1 = t2 ∧ k1 = k2).

(** A Set holds a reaction once, and the [cleaners] of a reaction list,
    each once, Sets that the reaction is a member of. *)
Definition cleaners_exact (σ : state) : Prop :=
  (∀ s, NoDup (members σ s))
  ∧ (∀ r R cl, reactions σ !! r = Some R → cleaners R = Some cl →
       NoDup cl ∧ ∀ s, s ∈ cl → r ∈ members σ s ∧ (s < nextSet σ)%nat).

Definition store_inv (σ : state) : Prop :=
  store_wf σ ∧ store_fresh σ ∧ cleaners_exact σ.

(** The key a registration is stored under. *)
Definition registration_key (op : Operation) : StoreKey :=
  match op_type op with
  | OpIterate => ITERATION_KEY
  | _ => key_of (op_key op)
  end.

(** The key under which the reactions of a structural change are looked
    up besides the operation's own key. *)
Definition iteration_key (σ : state) (target : loc) : StoreKey :=
  if isArray σ target then SKProp (PStr "length") else ITERATION_KEY.

(** From [σ] to [σ'] no reaction was removed or given another function,
    none that was stopped was started again, and none lost its
    [cleaners]. *)
Definition reactions_persist (σ σ' : state) : Prop :=
  (nextRid σ ≤ nextRid σ')%nat
  ∧ ∀ r R, reactions σ !! r = Some R →
      ∃ R', reactions σ' !! r = Some R' ∧ fn R' = fn R
        ∧ (unobserved R = true → unobserved R' = true)
        ∧ (is_Some (cleaners R) → is_Some (cleaners R')).

(** The invariants of the registry and of the store together. *)
Definition consistent (σ : state) : Prop := registry_inv σ ∧ store_inv σ.

(** What [clear] leaves of the data of a Map or a Set. *)
Definition cleared (d : Data) : Data :=
  match d with
  | DMap _ => DMap []
  | DSet _ => DSet []
  | _ => d
  end.

Definition is_collection (d : Data) : bool :=
  match d with
  | DMap _ | DSet _ => true
  | _ => false
  end.

Definition data_size (d : Data) : nat :=
  match d with
  | DMap es => length es
  | DSet ms => length ms
  | _ => 0
  end.

(** The operation that [doArrayKeys] publishes for the method [m] called
    through the wrapper [p] of the array [t]. *)
Definition descriptor (t p : loc) (m : Method)
    (inserted : option (list value)) (insertedStart : Z)
    (deleted : option (list value)) (deletedStart : Z) : Operation :=
  mkOperation OpArray t (Some (SKProp (PStr (method_name m)))) (Some p)
    None None inserted (Some insertedStart) deleted (Some deletedStart).

(** The count that [doArrayKeys] reads from the arguments of [splice]. *)
Definition requested_count (rest : list value) : Z :=
  match rest with
  | VNum z :: _ => z
  | _ => 0
  end.

(** [reactive(new Map([["k", 1]]))]: the raw Map is 0 and its wrapper 1. *)
Definition map_state : state :=
  state_of (exec 10 (new_reactive CMap (DMap [(VStr "k", VNum 1)])
                       (λ p, Ret (VObj p))) empty_state).

(** [reactive(new Set([1]))]: the raw Set is 0 and its wrapper 1. *)
Definition set_state : state :=
  state_of (exec 10 (new_reactive CSet (DSet [VNum 1])
                       (λ p, Ret (VObj p))) empty_state).

(** [inner = {}; reactive({child: inner})]: the inner object is 0, the
    outer object 1 and the wrapper of the outer object 2. *)
Definition nested_state : state :=
  state_of (exec 10
    (Call (ANew CObject (DProps [])) (λ inner,
     new_reactive CObject (DProps [(PStr "child", inner)])
       (λ p, Ret (VObj p)))) empty_state).

(** [inner = {}; reactive(new Map([["k", inner]]))], numbered as in
    [nested_state]. *)
Definition map_nested_state : state :=
  state_of (exec 10
    (Call (ANew CObject (DProps [])) (λ inner,
     new_reactive CMap (DMap [(VStr "k", inner)])
       (λ p, Ret (VObj p)))) empty_state).


(** [branch_state] at the start of a second run of its reaction. *)
Definition running_state : state := enter 0%nat branch_state.

(** * Proofs *)

(** ** The model on small inputs *)

Example strict_eq_NaN : strict_eq VNaN VNaN = false.
Proof. reflexivity. Qed.

Example strict_eq_num : strict_eq (VNum 3) (VNum 3) = true.
Proof. reflexivity. Qed.

Example shouldInstrument_table :
  map shouldInstrument
    [CObject; CArray; CTypedArray Float32; CMap; CWeakSet;
     CGlobal "Date"; CGlobal "RegExp"; CUser "Model"; CNone]
  = [true; true; true; true; true; false; false; true; true].
Proof. reflexivity. Qed.

Example getHandlers_table :
  map getHandlers [CObject; CArray; CSet; CUser "Model"; CNone]
  = [baseHandlers; arrayHandlers; collectionHandlers; baseHandlers;
     baseHandlers].
Proof. reflexivity. Qed.

Example array_write_end :
  array_write 3 (VNum 4) [VNum 1; VNum 2; VNum 3]
  = [VNum 1; VNum 2; VNum 3; VNum 4].
Proof. reflexivity. Qed.

Example native_splice :
  native_array splice 0%nat [VNum 1; VNum 1; VNum 9]
    [VNum 1; VNum 2; VNum 3]
  = Some ([VNum 1; VNum 9; VNum 3], RArray [VNum 2]).
Proof. reflexivity. Qed.

Example native_splice_from_end :
  native_array splice 0%nat [VNum (-1)] [VNum 1; VNum 2; VNum 3]
  = Some ([VNum 1; VNum 2], RArray [VNum 3]).
Proof. reflexivity. Qed.

Example native_pop_empty :
  native_array pop 0%nat [] [] = Some ([], RValue VUndefined).
Proof. reflexivity. Qed.

Example native_lastIndexOf :
  native_array lastIndexOf 0%nat [VNum 2]
    [VNum 2; VNum 1; VNum 2; VNum 3]
  = Some ([VNum 2; VNum 1; VNum 2; VNum 3], RValue (VNum 2)).
Proof. reflexivity. Qed.

Example native_includes_NaN :
  native_array includes 0%nat [VNaN] [VNum 1; VNaN]
  = Some ([VNum 1; VNaN], RValue (VBool true))
  ∧ native_array indexOf 0%nat [VNaN] [VNum 1; VNaN]
    = Some ([VNum 1; VNaN], RValue (VNum (-1))).
Proof. split; reflexivity. Qed.

Example set_add_twice : set_add 1%nat (set_add 1%nat [0%nat]) = [0; 1]%nat.
Proof. reflexivity. Qed.

(** ** What every run respects

    A relation between the state before and after a call that holds across
    each elementary change of the state holds across every run of user
    code.  The elementary changes are: a write to a raw object, an
    allocation, [reactive], the registration of the running reaction, the
    entry into a reaction (release and push) together with its exit (pop),
    [unobserve], the creation of a reaction, and the calls made by
    [queueReactionsForOperation]. *)

Section Respects.
Variable Rel : state → state → Prop.

Hypothesis Rel_refl : ∀ σ, Rel σ σ.
Hypothesis Rel_trans : ∀ σ1 σ2 σ3, Rel σ1 σ2 → Rel σ2 σ3 → Rel σ1 σ3.
Hypothesis Rel_write : ∀ σ o d, Rel σ (write_data o d σ).
Hypothesis Rel_alloc : ∀ c d, respects Rel (alloc c d).
Hypothesis Rel_reactive : ∀ σ o, Rel σ (reactive o σ).2.
Hypothesis Rel_register : ∀ σ r op,
    last (reactionStack σ) = Some r →
    after (registerReactionForOperation r op σ) (Rel σ).
Hypothesis Rel_run : ∀ σ r R σ',
    reactions σ !! r = Some R → unobserved R = false →
    r ∉ reactionStack σ →
    Rel (enter r σ) σ' → Rel σ (stack_pop σ').
Hypothesis Rel_unobserve : ∀ σ r, Rel σ (unobserve r σ).
Hypothesis Rel_new_reaction : ∀ σ f, Rel σ (new_reaction f σ).
Hypothesis Rel_queue : ∀ σ op rs σ',
    getReactionsForOperation σ op = Some rs → Loop Rel op rs σ σ' → Rel σ σ'.

Lemma after_mono {A} (o : outcome A) (Q Q' : state → Prop) :
  (∀ σ, Q σ → Q' σ) → after o Q → after o Q'.
Proof. destruct o; simpl; auto. Qed.

Lemma respects_ret {A} (a : A) : respects Rel (ret a).
Proof. intros σ. apply Rel_refl. Qed.

Lemma respects_throw {A} e : respects Rel (throw (A:=A) e).
Proof. intros σ. apply Rel_refl. Qed.

Lemma respects_unmodelled {A} : respects Rel (unmodelled (A:=A)).
Proof. intros σ. exact I. Qed.

Lemma respects_gets {A} (f : state → A) : respects Rel (gets f).
Proof. intros σ. apply Rel_refl. Qed.

Lemma respects_bind {A B} (m : M A) (f : A → M B) :
  respects Rel m → (∀ a, respects Rel (f a)) → respects Rel (bind m f).
Proof.
  intros Hm Hf σ. unfold bind. specialize (Hm σ).
  destruct (m σ) as [a σ1|e σ1|w]; simpl in *; auto.
  specialize (Hf a σ1). eapply after_mono; [|exact Hf].
  intros σ2. by apply Rel_trans.
Qed.

Lemma readonly_respects {A} (m : M A) : readonly m → respects Rel m.
Proof.
  intros H σ. eapply after_mono; [|apply (H σ)].
  by intros ? ->.
Qed.

Lemma Reflect_get_readonly o k : readonly (Reflect_get o k).
Proof. intros σ. unfold Reflect_get. by destruct (_ ≫= _). Qed.
Lemma hasOwnProperty_readonly o k : readonly (hasOwnProperty o k).
Proof. intros σ. unfold hasOwnProperty. by destruct (_ ≫= _). Qed.
Lemma Reflect_ownKeys_readonly o : readonly (Reflect_ownKeys o).
Proof. intros σ. unfold Reflect_ownKeys. by destruct (_ ≫= _). Qed.
Lemma array_length_readonly o : readonly (array_length o).
Proof. intros σ. unfold array_length. by repeat case_match. Qed.
Lemma collection_size_readonly o : readonly (collection_size o).
Proof. intros σ. unfold collection_size. by repeat case_match. Qed.
Lemma this_target_readonly o : readonly (this_target o).
Proof. intros σ. unfold this_target. by repeat case_match. Qed.

Lemma respects_Reflect_set o k v : respects Rel (Reflect_set o k v).
Proof. intros σ. unfold Reflect_set. destruct (_ ≫= _); simpl; auto. Qed.
Lemma respects_Reflect_deleteProperty o k :
  respects Rel (Reflect_deleteProperty o k).
Proof.
  intros σ. unfold Reflect_deleteProperty. destruct (_ ≫= _); simpl; auto.
Qed.
Lemma respects_apply_native_array m o args :
  respects Rel (apply_native_array m o args).
Proof.
  intros σ. unfold apply_native_array. repeat case_match; simpl; auto.
Qed.
Lemma respects_apply_native_collection m o args :
  respects Rel (apply_native_collection m o args).
Proof.
  intros σ. unfold apply_native_collection.
  repeat case_match; simpl; auto.
Qed.
Lemma respects_result_value r : respects Rel (result_value r).
Proof.
  destruct r; simpl; [apply respects_ret|].
  apply respects_bind; [apply Rel_alloc|intros; apply respects_ret].
Qed.
Lemma respects_reactive o :
  respects Rel (λ σ, let '(p, σ') := reactive o σ in Done (VObj p) σ').
Proof.
  intros σ. pose proof (Rel_reactive σ o) as H.
  by destruct (reactive o σ).
Qed.
Lemma respects_findReactive v : respects Rel (findReactive v).
Proof.
  intros σ. unfold findReactive.
  destruct (hasRunningReaction σ && isObject v); [|apply Rel_refl].
  destruct v as [| | | | | |l]; simpl; try apply Rel_refl.
  destruct (rawToProxy σ !! l); simpl; [apply Rel_refl|].
  pose proof (Rel_reactive σ l) as HR. by destruct (reactive l σ).
Qed.
Lemma respects_registerRunningReaction op :
  respects Rel (registerRunningReaction op).
Proof.
  intros σ. unfold registerRunningReaction, getRunningReaction.
  destruct (last (reactionStack σ)) eqn:E; simpl; auto.
Qed.

Local Ltac resp_step :=
    first
      [ apply respects_ret | apply respects_throw | apply respects_gets
      | apply respects_unmodelled
      | apply readonly_respects;
        first [ apply Reflect_get_readonly | apply hasOwnProperty_readonly
              | apply Reflect_ownKeys_readonly | apply array_length_readonly
              | apply collection_size_readonly | apply this_target_readonly ]
      | apply respects_Reflect_set | apply respects_Reflect_deleteProperty
      | apply respects_apply_native_array
      | apply respects_apply_native_collection
      | apply respects_result_value | apply respects_reactive
      | apply respects_findReactive | apply respects_registerRunningReaction
      | apply Rel_alloc
      | assumption
      | apply respects_bind; [|intros ?] ].
Local Ltac resp := repeat resp_step.

Section WithApply.
Variable apply_fn : prog → M value.
Hypothesis apply_fn_respects : ∀ p, respects Rel (apply_fn p).

Lemma respects_runReactionWrap r args :
  respects Rel (runReactionWrap apply_fn r args).
Proof.
  intros σ. unfold runReactionWrap.
  destruct (reactions σ !! r) as [R|] eqn:ER; [|exact I].
  destruct (unobserved R) eqn:EU; [apply apply_fn_respects|].
  unfold isRunning. case_bool_decide as Hrun; [apply Rel_refl|].
  pose proof (apply_fn_respects (fn R args) (enter r σ)) as Hb.
  fold (enter r σ).
  destruct (apply_fn (fn R args) (enter r σ)); simpl in *; eauto.
Qed.

Lemma forEach_reaction_Loop rs op σ :
  after (forEach_reaction apply_fn rs op σ) (Loop Rel op rs σ).
Proof.
  revert σ. induction rs as [|r rs IH]; intros σ; simpl.
  { constructor. }
  unfold bind at 1. simpl. fold (log r op σ).
  unfold bind at 1.
  pose proof (respects_runReactionWrap r (Some op) (log r op σ)) as Hr.
  destruct (runReactionWrap apply_fn r (Some op) (log r op σ))
    as [v σ1|e σ1|w]; simpl in *.
  - eapply after_mono; [|apply IH]. intros σ2 HL.
    by eapply Loop_cons.
  - by eapply Loop_abort.
  - exact I.
Qed.

Lemma respects_queueReactionsForOperation op :
  respects Rel (queueReactionsForOperation apply_fn op).
Proof.
  intros σ. unfold queueReactionsForOperation.
  destruct (getReactionsForOperation σ op) as [rs|] eqn:E;
    [|apply Rel_refl].
  eapply after_mono; [|apply forEach_reaction_Loop].
  intros σ'. by apply Rel_queue.
Qed.

Lemma respects_observe f : respects Rel (observe apply_fn f).
Proof.
  intros σ. unfold observe. fold (new_reaction f σ).
  eapply after_mono;
    [|apply (respects_bind _ _ (respects_runReactionWrap _ _)
               (λ _, respects_ret _))].
  intros σ'. apply Rel_trans, Rel_new_reaction.
Qed.

Local Ltac resp' :=
  repeat first
    [ resp_step
    | apply respects_runReactionWrap
    | apply respects_queueReactionsForOperation
    | apply respects_observe ].

Lemma respects_baseHandlers_get t k o :
  respects Rel (baseHandlers_get t k o).
Proof.
  unfold baseHandlers_get. resp'.
  destruct k; resp'; destruct a; resp'.
  all: intros σ; destruct (rawToProxy σ !! l); [apply Rel_refl|].
  all: apply respects_reactive.
Qed.

Lemma respects_baseHandlers_ownKeys t :
  respects Rel (baseHandlers_ownKeys t).
Proof. unfold baseHandlers_ownKeys. resp'. Qed.

Lemma respects_baseHandlers_set t k v o :
  respects Rel (baseHandlers_set apply_fn t k v o).
Proof.
  unfold baseHandlers_set. resp'.
  destruct (negb _); resp'. destruct (negb _); resp'.
Qed.

Lemma respects_baseHandlers_deleteProperty t k :
  respects Rel (baseHandlers_deleteProperty apply_fn t k).
Proof.
  unfold baseHandlers_deleteProperty. resp'. destruct a; resp'.
Qed.

Lemma respects_doArrayKeys t o m args r :
  respects Rel (doArrayKeys apply_fn t o m args r).
Proof. unfold doArrayKeys. resp'. destruct m; resp'. Qed.

Lemma respects_arrayHandlers_get t k o :
  respects Rel (arrayHandlers_get t k o).
Proof. unfold arrayHandlers_get. resp'. destruct k; resp'. Qed.

Lemma respects_arrayHandlers_call t m o args :
  respects Rel (arrayHandlers_call apply_fn t m o args).
Proof.
  unfold arrayHandlers_call. resp'.
  destruct (negb _); resp'.
  destruct m; resp'; apply respects_doArrayKeys.
Qed.

Lemma respects_forEach_loop t cb n i :
  respects Rel (forEach_loop apply_fn t cb i n).
Proof.
  revert i. induction n as [|n IH]; intros i; simpl; [resp'|].
  intros σ. destruct (raw_data σ t) as [[]|]; try exact I.
  destruct (es !! i); [|apply IH].
  apply (respects_bind _ _ (apply_fn_respects _) (λ _, IH _)).
Qed.

Lemma respects_native_forEach t cb :
  respects Rel (native_forEach apply_fn t cb).
Proof. unfold native_forEach. resp'. apply respects_forEach_loop. Qed.

Lemma respects_arrayHandlers_forEach t o cb :
  respects Rel (arrayHandlers_forEach apply_fn t o cb).
Proof.
  unfold arrayHandlers_forEach.
  apply respects_bind; [resp'|intros _].
  apply respects_bind; [apply respects_native_forEach|intros _].
  apply respects_bind; [apply respects_doArrayKeys|intros _; resp'].
Qed.

Lemma respects_instrumentations_has o args :
  respects Rel (instrumentations_has o args).
Proof. unfold instrumentations_has. resp'. Qed.
Lemma respects_instrumentations_get o args :
  respects Rel (instrumentations_get o args).
Proof. unfold instrumentations_get. resp'. Qed.
Lemma respects_instrumentations_set o args :
  respects Rel (instrumentations_set apply_fn o args).
Proof.
  unfold instrumentations_set. resp'.
  destruct (negb _); resp'. destruct (negb _); resp'.
Qed.
Lemma respects_instrumentations_add o args :
  respects Rel (instrumentations_add apply_fn o args).
Proof. unfold instrumentations_add. resp'. destruct (negb _); resp'. Qed.
Lemma respects_instrumentations_delete o args :
  respects Rel (instrumentations_delete apply_fn o args).
Proof.
  unfold instrumentations_delete. resp'. case_bool_decide; resp'.
Qed.
Lemma respects_instrumentations_clear o args :
  respects Rel (instrumentations_clear apply_fn o args).
Proof.
  unfold instrumentations_clear. resp'. destruct (negb _); resp'.
Qed.
Lemma respects_instrumentations_size o :
  respects Rel (instrumentations_size o).
Proof. unfold instrumentations_size. resp'. Qed.

Lemma respects_do_call a : respects Rel (do_call apply_fn a).
Proof.
  destruct a; simpl; resp'.
  - intros σ. apply Rel_unobserve.
  - intros σ. unfold do_get.
    destruct (heap σ !! o) as [[c d|t []]|]; try exact I.
    + apply readonly_respects, Reflect_get_readonly.
    + apply respects_baseHandlers_get.
    + apply respects_arrayHandlers_get.
    + repeat case_match; try exact I.
      apply respects_instrumentations_size.
  - intros σ. unfold do_set.
    destruct (heap σ !! o) as [[c d|t []]|]; try exact I.
    all: apply respects_bind; [|intros; apply respects_ret].
    + apply respects_Reflect_set.
    + apply respects_baseHandlers_set.
    + apply respects_Reflect_set.
  - intros σ. unfold do_delete.
    destruct (heap σ !! o) as [[c d|t []]|]; try exact I.
    all: apply respects_bind; [|intros; apply respects_ret].
    all: first [ apply respects_Reflect_deleteProperty
               | apply respects_baseHandlers_deleteProperty ].
  - intros σ. unfold do_method.
    destruct (heap σ !! o) as [[c []|t []]|]; try exact I.
    + destruct m; try exact I.
      all: cbv beta iota delta [is_array_method];
        first [ apply respects_throw
                        | apply respects_bind;
                          [apply respects_apply_native_array
                          |intros; apply respects_result_value] ].
    + apply respects_apply_native_collection.
    + apply respects_apply_native_collection.
    + destruct m; try exact I; apply respects_arrayHandlers_call.
    + destruct m; try exact I.
      * apply respects_instrumentations_has.
      * apply respects_instrumentations_get.
      * apply respects_instrumentations_set.
      * apply respects_instrumentations_add.
      * apply respects_instrumentations_delete.
      * apply respects_instrumentations_clear.
Qed.

Lemma respects_do_forEach o cb : respects Rel (do_forEach apply_fn o cb).
Proof.
  intros σ. unfold do_forEach.
  destruct (heap σ !! o) as [[c []|t []]|]; try exact I.
  - apply respects_bind;
      [apply respects_native_forEach|intros; apply respects_ret].
  - apply respects_arrayHandlers_forEach.
Qed.

Lemma respects_do_ownKeys o : respects Rel (do_ownKeys o).
Proof.
  intros σ. unfold do_ownKeys.
  destruct (heap σ !! o) as [[c d|t []]|]; try exact I.
  all: first [ apply respects_baseHandlers_ownKeys
             | apply readonly_respects, Reflect_ownKeys_readonly ].
Qed.
End WithApply.

(** Every run of user code respects [Rel]. *)
Theorem exec_respects fuel p : respects Rel (exec fuel p).
Proof.
  revert p. induction fuel as [|n IH]; intros p; [intros σ; exact I|].
  destruct p; simpl.
  - apply respects_ret.
  - apply respects_throw.
  - apply respects_bind; [by apply respects_do_call|auto].
  - apply respects_bind; [by apply respects_observe|auto].
  - apply respects_bind; [by apply respects_do_forEach|auto].
  - apply respects_bind; [by apply respects_do_ownKeys|auto].
  - intros σ. pose proof (IH p σ) as Hb.
    destruct (exec n p σ) as [v σ1|e σ1|w]; simpl in *; auto.
    + eapply after_mono; [|apply IH]. intros ?. by apply Rel_trans.
    + eapply after_mono; [|apply IH]. intros ?. by apply Rel_trans.
Qed.
End Respects.

(** ** The proxy registry is a bijection *)

Lemma registry_wf_empty : registry_wf empty_state.
Proof.
  split; [|split; [|split]]; simpl; intros *; by rewrite lookup_empty.
Qed.

Lemma wrapper_not_raw σ o c :
  registry_wf σ → constructor_of σ o = Some c → proxyToRaw σ !! o = None.
Proof.
  intros (_ & H2 & _) Hc. destruct (proxyToRaw σ !! o) as [x|] eqn:E; [|done].
  destruct (H2 _ _ E) as [_ [h Hh]]. unfold constructor_of in Hc.
  by rewrite Hh in Hc.
Qed.

Lemma createReactive_wf σ o c :
  registry_wf σ → constructor_of σ o = Some c →
  rawToProxy σ !! o = None →
  registry_wf (createReactive o c σ).2.
Proof.
  intros Hwf Hc Hnone. pose proof (wrapper_not_raw _ _ _ Hwf Hc) as Hnp.
  destruct Hwf as (H1 & H2 & H3 & H4).
  assert (Ho : (o < nextLoc σ)%nat).
  { apply H3. unfold constructor_of in Hc.
    destruct (heap σ !! o); [eauto|done]. }
  assert (Hfresh : proxyToRaw σ !! nextLoc σ = None).
  { destruct (proxyToRaw σ !! nextLoc σ) as [x|] eqn:E; [|done].
    destruct (H2 _ _ E) as [_ [h Hh]].
    assert (nextLoc σ < nextLoc σ)%nat by (apply H3; eauto). lia. }
  split; [|split; [|split]]; simpl.
  - intros o' p'. destruct (decide (o' = o)) as [->|Hne].
    + rewrite lookup_insert_eq. intros [= <-]. by rewrite lookup_insert_eq.
    + rewrite lookup_insert_ne by done. intros Hp.
      rewrite lookup_insert_ne; [by apply H1|].
      intros <-. apply H1 in Hp. congruence.
  - intros p o' H. destruct (decide (p = nextLoc σ)) as [->|Hne].
    + rewrite lookup_insert_eq in H. injection H as <-.
      rewrite !lookup_insert_eq. eauto.
    + rewrite lookup_insert_ne in H by done.
      destruct (H2 _ _ H) as [Hr [h Hh]].
      rewrite !(lookup_insert_ne _ (nextLoc σ)) by done. split; [|eauto].
      rewrite lookup_insert_ne; [done|]. intros <-. congruence.
  - intros l. destruct (decide (l = nextLoc σ)) as [->|Hne]; [lia|].
    rewrite lookup_insert_ne by done. intros Hl%H3. lia.
  - intros o' p' Hr. unfold constructor_of. simpl.
    assert (Hc' : is_Some (constructor_of σ o')).
    { destruct (decide (o' = o)) as [->|Hne]; [by rewrite Hc|].
      rewrite lookup_insert_ne in Hr by done. eauto. }
    unfold constructor_of in Hc'.
    rewrite lookup_insert_ne; [done|]. intros <-.
    destruct (heap σ !! nextLoc σ) eqn:E; [|by destruct Hc'].
    assert (nextLoc σ < nextLoc σ)%nat by (apply H3; eauto). lia.
Qed.

Lemma reactive_wf σ o : registry_wf σ → registry_wf (reactive o σ).2.
Proof.
  intros Hwf. unfold reactive.
  case_bool_decide; [done|].
  destruct (constructor_of σ o) as [c|] eqn:Ec; [|done].
  destruct (negb (shouldInstrument c)); [done|].
  destruct (rawToProxy σ !! o) eqn:Er; [done|].
  by apply createReactive_wf.
Qed.

(** What [reactive] returns is a registered wrapper, unless the object is
    one that is not instrumented. *)
Lemma reactive_result σ o :
  registry_wf σ →
  let p := (reactive o σ).1 in
  let σ1 := (reactive o σ).2 in
  (proxyToRaw σ1 !! p = Some o ∧ rawToProxy σ1 !! o = Some p
   ∧ proxyToRaw σ1 !! o = None
   ∧ ∃ c, constructor_of σ1 o = Some c ∧ shouldInstrument c = true)
  ∨ (p = o ∧ σ1 = σ
     ∧ (is_Some (proxyToRaw σ !! o)
        ∨ constructor_of σ o = None
        ∨ ∃ c, constructor_of σ o = Some c ∧ shouldInstrument c = false)).
Proof.
  intros Hwf. unfold reactive.
  case_bool_decide as Hp; [right; simpl; auto|].
  destruct (constructor_of σ o) as [c|] eqn:Ec; [|right; simpl; auto].
  destruct (shouldInstrument c) eqn:Es; simpl; [|right; eauto 10].
  left. assert (Hnp : proxyToRaw σ !! o = None).
  { by destruct (proxyToRaw σ !! o) eqn:E; [destruct Hp; eauto|]. }
  destruct (rawToProxy σ !! o) as [p|] eqn:Er; simpl.
  - destruct Hwf as (H1 & _). split_and!; eauto.
  - assert (Ho : o ≠ nextLoc σ).
    { destruct Hwf as (_ & _ & H3 & _). unfold constructor_of in Ec.
      destruct (heap σ !! o) as [[]|] eqn:Eh; try done.
      assert (o < nextLoc σ)%nat by (apply H3; eauto). lia. }
    rewrite !lookup_insert_eq. rewrite lookup_insert_ne by done.
    split_and!; try done. exists c. split; [|done].
    unfold constructor_of. simpl. by rewrite lookup_insert_ne.
Qed.

Lemma alloc_wf c d σ :
  registry_wf σ → after (alloc c d σ) registry_wf.
Proof.
  intros (H1 & H2 & H3 & H4). simpl. split; [|split; [|split]]; simpl; auto.
  - intros p o Hp. destruct (H2 _ _ Hp) as [Hr [h Hh]]. split; [done|].
    exists h. rewrite lookup_insert_ne; [done|].
    intros <-. assert (nextLoc σ < nextLoc σ)%nat by (apply H3; eauto). lia.
  - intros l. destruct (decide (l = nextLoc σ)) as [->|Hne]; [lia|].
    rewrite lookup_insert_ne by done. intros Hl%H3. lia.
  - intros o p Hr. pose proof (H4 _ _ Hr) as Hc'.
    unfold constructor_of in *. simpl.
    rewrite lookup_insert_ne; [done|]. intros <-.
    destruct (heap σ !! nextLoc σ) eqn:E; [|by destruct Hc'].
    assert (nextLoc σ < nextLoc σ)%nat by (apply H3; eauto). lia.
Qed.

Lemma registry_wf_date : registry_wf date_state.
Proof. apply (alloc_wf _ _ empty_state), registry_wf_empty. Qed.

Lemma registry_wf_plain : registry_wf plain_state.
Proof. apply (alloc_wf _ _ empty_state), registry_wf_empty. Qed.

(** [raw] undoes [reactive] on every raw object that is instrumented. *)
Lemma raw_reactive (σ : state) (o : loc) (c : Ctor) :
  registry_wf σ →
  constructor_of σ o = Some c → shouldInstrument c = true →
  raw (VObj (reactive o σ).1) (reactive o σ).2 = VObj o.
Proof.
  intros Hwf Hc Hs. simpl.
  destruct (reactive_result σ o Hwf)
    as [(Hp & _)|(_ & _ & [Hp|[Hn|(c' & Hc' & Hs')]])].
  - by rewrite Hp.
  - pose proof (wrapper_not_raw _ _ _ Hwf Hc) as Hnp.
    rewrite Hnp in Hp. by destruct Hp.
  - congruence.
  - congruence.
Qed.

(** C1 (as amended).  Wrapping is idempotent for every object; wrapping
    again an object that has a wrapper gives that wrapper; a wrapper is
    returned unchanged; and [raw(reactive(o))] is [o] for every raw object
    that [shouldInstrument] accepts. *)
Theorem reactive_wrap (σ : state) (o : loc) :
  registry_wf σ →
  reactive (reactive o σ).1 (reactive o σ).2 = reactive o σ
  ∧ reactive o (reactive o σ).2 = reactive o σ
  ∧ (is_Some (proxyToRaw σ !! o) → reactive o σ = (o, σ))
  ∧ (∀ c, constructor_of σ o = Some c → shouldInstrument c = true →
          raw (VObj (reactive o σ).1) (reactive o σ).2 = VObj o).
Proof.
  intros Hwf. pose proof (reactive_result σ o Hwf) as Hres.
  destruct (reactive o σ) as [p σ1] eqn:Er. simpl in *.
  assert (Hsame : p = o → σ1 = σ → reactive p σ1 = (p, σ1)
                                   ∧ reactive o σ1 = (p, σ1)).
  { intros -> ->. by rewrite Er. }
  split_and!.
  - destruct Hres as [(Hp & _)|(-> & -> & _)]; [|by apply Hsame].
    unfold reactive. by rewrite Hp, bool_decide_eq_true_2.
  - destruct Hres as [(_ & Hr & Hn & c & Hc & Hs)|(-> & -> & _)];
      [|by apply Hsame].
    unfold reactive. by rewrite Hn, Hc, Hs, Hr.
  - intros Hp. unfold reactive in Er.
    rewrite bool_decide_eq_true_2 in Er by done. congruence.
  - intros c Hc Hs. pose proof (raw_reactive σ o c Hwf Hc Hs) as Hrt.
    by rewrite Er in Hrt.
Qed.

Lemma reactive_wrap_witness :
  registry_wf plain_state
  ∧ raw (VObj (reactive 0%nat plain_state).1) (reactive 0%nat plain_state).2
    = VObj 0%nat.
Proof.
  split; [exact registry_wf_plain|].
  by apply (reactive_wrap plain_state 0%nat registry_wf_plain) with CObject.
Defined.

(** C1 as stated fails on an object that is not instrumented: for a [Date]
    [reactive] returns the object itself, and [raw] of it is [undefined]. *)
Lemma reactive_roundtrip_builtin :
  registry_wf date_state
  ∧ constructor_of date_state 0%nat = Some (CGlobal "Date")
  ∧ reactive 0%nat date_state = (0%nat, date_state)
  ∧ raw (VObj (reactive 0%nat date_state).1) (reactive 0%nat date_state).2
    = VUndefined
  ∧ raw (VObj (reactive 0%nat date_state).1) (reactive 0%nat date_state).2
    ≠ VObj 0%nat.
Proof. split; [exact registry_wf_date|]. by vm_compute. Qed.

(** C2 (as amended).  [raw] is a lookup in [proxyToRaw]: a value that is
    not a registered wrapper (a primitive, or an object that [proxyToRaw]
    has no entry for, such as every raw object) gives [undefined]; a
    wrapper gives the raw object stored for it. *)
Theorem raw_lookup (σ : state) :
  registry_wf σ →
  (∀ v, (∀ p, v = VObj p → proxyToRaw σ !! p = None) → raw v σ = VUndefined)
  ∧ (∀ o c, constructor_of σ o = Some c → raw (VObj o) σ = VUndefined)
  ∧ (∀ w o, proxyToRaw σ !! w = Some o → raw (VObj w) σ = VObj o)
  ∧ (∀ o c, constructor_of σ o = Some c → shouldInstrument c = true →
            raw (VObj (reactive o σ).1) (reactive o σ).2 = VObj o).
Proof.
  intros Hwf. split_and!.
  - intros [] Hv; simpl; try done. by rewrite (Hv l).
  - intros o c Hc. simpl. by rewrite (wrapper_not_raw _ _ _ Hwf Hc).
  - intros w o Hw. simpl. by rewrite Hw.
  - intros o c. by apply raw_reactive.
Qed.

Lemma raw_lookup_witness :
  registry_wf plain_state ∧ raw (VObj 0%nat) plain_state = VUndefined.
Proof.
  split; [exact registry_wf_plain|].
  by apply (raw_lookup plain_state registry_wf_plain) with CObject.
Defined.

(** C2 as stated fails: for a plain object that was never wrapped, and for
    a number, [raw] gives [undefined] and not its input. *)
Lemma raw_of_unwrapped :
  constructor_of plain_state 0%nat = Some CObject
  ∧ proxyToRaw plain_state !! 0%nat = None
  ∧ raw (VObj 0%nat) plain_state ≠ VObj 0%nat
  ∧ raw (VNum 5) plain_state ≠ VNum 5.
Proof. by vm_compute. Qed.

(** ** What the store functions leave alone *)

Lemma registerReactionForOperation_frame r op σ :
  after (registerReactionForOperation r op σ)
    (λ σ', frame σ' = frame σ ∧ reactionStack σ' = reactionStack σ
           ∧ nextRid σ' = nextRid σ ∧ triggered σ' = triggered σ).
Proof.
  unfold registerReactionForOperation.
  destruct (connectionStore σ !! op_target op) as [T|]; [|done].
  unfold reactionsForKey_of.
  destruct (T !! _) as [s|]; simpl.
  all: case_bool_decide; simpl; [done|].
  all: unfold cleaners_push; simpl.
  all: destruct (reactions σ !! r) as [[f [cl|] u]|]; simpl; done.
Qed.

Lemma releaseReaction_frame r σ :
  frame (releaseReaction r σ) = frame σ
  ∧ reactionStack (releaseReaction r σ) = reactionStack σ
  ∧ nextRid (releaseReaction r σ) = nextRid σ
  ∧ triggered (releaseReaction r σ) = triggered σ
  ∧ connectionStore (releaseReaction r σ) = connectionStore σ.
Proof.
  unfold releaseReaction.
  by destruct (reactions σ !! r) as [[f [cl|] u]|].
Qed.

Lemma unobserve_frame r σ :
  frame (unobserve r σ) = frame σ
  ∧ reactionStack (unobserve r σ) = reactionStack σ
  ∧ nextRid (unobserve r σ) = nextRid σ
  ∧ triggered (unobserve r σ) = triggered σ.
Proof.
  unfold unobserve. destruct (reactions σ !! r) as [[f cl []]|]; try done.
  pose proof (releaseReaction_frame r
    (with_reactions (<[r := mkReaction f cl true]>) σ))
    as (H1 & H2 & H3 & H4 & _).
  by rewrite H1, H2, H3, H4.
Qed.

Lemma reactive_core o σ :
  sets (reactive o σ).2 = sets σ
  ∧ reactions (reactive o σ).2 = reactions σ
  ∧ reactionStack (reactive o σ).2 = reactionStack σ
  ∧ nextRid (reactive o σ).2 = nextRid σ
  ∧ triggered (reactive o σ).2 = triggered σ.
Proof. unfold reactive. by repeat case_match. Qed.

Lemma Loop_simple (Rel : state → state → Prop) :
  (∀ σ, Rel σ σ) →
  (∀ σ1 σ2 σ3, Rel σ1 σ2 → Rel σ2 σ3 → Rel σ1 σ3) →
  (∀ σ r op, Rel σ (log r op σ)) →
  ∀ op rs σ σ', Loop Rel op rs σ σ' → Rel σ σ'.
Proof.
  intros Hrefl Htrans Hlog op rs σ σ' HL.
  induction HL; eauto.
Qed.

(** ** The reaction stack is restored *)

(** Whatever user code does, and whether it returns or throws, the
    reaction stack is afterwards what it was before. *)
Theorem exec_stack fuel p σ :
  after (exec fuel p σ) (λ σ', reactionStack σ' = reactionStack σ).
Proof.
  apply (exec_respects (λ σ σ', reactionStack σ' = reactionStack σ)).
  - done.
  - intros. congruence.
  - done.
  - by intros c d σ0.
  - intros σ0 o. apply reactive_core.
  - intros σ0 r op _. eapply after_mono;
      [|apply registerReactionForOperation_frame]. by intros ? (_ & ? & _).
  - intros σ0 r R σ' _ _ _ Hst. unfold stack_pop. simpl. rewrite Hst.
    unfold enter, stack_push. simpl.
    destruct (releaseReaction_frame r σ0) as (_ & -> & _).
    rewrite length_app. simpl.
    replace (Nat.pred (length (reactionStack σ0) + 1))
      with (length (reactionStack σ0)) by lia.
    by rewrite take_app_length.
  - intros σ0 r. apply unobserve_frame.
  - done.
  - intros σ0 op rs σ' _ HL.
    refine (Loop_simple _ _ _ _ op rs σ0 σ' HL); [done|congruence|done].
Qed.

(** ** The registry stays a bijection *)

Lemma registry_wf_frame σ σ' :
  frame σ' = frame σ → registry_wf σ → registry_wf σ'.
Proof.
  unfold frame, registry_wf, constructor_of. intros [= -> -> -> ->]. done.
Qed.

Lemma write_data_wf o d σ : registry_wf σ → registry_wf (write_data o d σ).
Proof.
  intros (H1 & H2 & H3 & H4). split; [|split; [|split]]; simpl; auto.
  - intros p o' Hp. destruct (H2 _ _ Hp) as [Hr [h Hh]]. split; [done|].
    exists h. destruct (decide (o = p)) as [->|Hne].
    + by rewrite lookup_alter_eq, Hh.
    + by rewrite lookup_alter_ne.
  - intros l Hl. apply H3. by rewrite lookup_alter_is_Some in Hl.
  - intros o' p Hr. pose proof (H4 _ _ Hr) as Hc'.
    unfold constructor_of in *. simpl.
    destruct (decide (o = o')) as [->|Hne].
    + rewrite lookup_alter_eq. by destruct (heap σ !! o') as [[]|].
    + by rewrite lookup_alter_ne.
Qed.

Theorem exec_registry_wf fuel p σ :
  registry_wf σ → after (exec fuel p σ) registry_wf.
Proof.
  intros Hwf.
  eapply after_mono;
    [|apply (exec_respects (λ σ σ', registry_wf σ → registry_wf σ'))].
  - simpl. auto.
  - done.
  - by auto.
  - intros. by apply write_data_wf.
  - intros c d σ0. pose proof (alloc_wf c d σ0). done.
  - intros. by apply reactive_wf.
  - intros σ0 r op _. eapply after_mono;
      [|apply registerReactionForOperation_frame].
    intros σ' (Hf & _). by apply registry_wf_frame.
  - intros σ0 r R σ' _ _ _ Hrel Hw. eapply registry_wf_frame; [|apply Hrel].
    + done.
    + eapply registry_wf_frame; [|exact Hw].
      unfold enter. apply (releaseReaction_frame r σ0).
  - intros σ0 r. apply registry_wf_frame, unobserve_frame.
  - intros σ0 f. by apply registry_wf_frame.
  - intros σ0 op rs σ' _ HL.
    refine (Loop_simple _ _ _ _ op rs σ0 σ' HL); [done|by auto|].
    intros σ1 r o. by apply registry_wf_frame.
Qed.

(** A wrapper stays the wrapper of its raw object: the registry only
    grows. *)
Lemma reactive_grows σ o :
  registry_wf σ → proxyToRaw σ ⊆ proxyToRaw (reactive o σ).2.
Proof.
  intros Hwf. unfold reactive.
  case_bool_decide; [done|].
  destruct (constructor_of σ o) as [c|] eqn:Ec; [|done].
  destruct (negb (shouldInstrument c)); [done|].
  destruct (rawToProxy σ !! o) eqn:Er; [done|]. simpl.
  apply insert_subseteq.
  destruct (proxyToRaw σ !! nextLoc σ) as [x|] eqn:E; [|done].
  destruct Hwf as (_ & H2 & H3 & _). destruct (H2 _ _ E) as [_ [h Hh]].
  assert (nextLoc σ < nextLoc σ)%nat by (apply H3; eauto). lia.
Qed.

Theorem exec_registry_grows fuel p σ :
  registry_wf σ →
  after (exec fuel p σ) (λ σ', proxyToRaw σ ⊆ proxyToRaw σ').
Proof.
  intros Hwf.
  pose (Rel := λ σ σ' : state,
          registry_wf σ → registry_wf σ' ∧ proxyToRaw σ ⊆ proxyToRaw σ').
  assert (Hframe : ∀ σ1 σ2, frame σ2 = frame σ1 → Rel σ1 σ2).
  { intros σ1 σ2 Hf Hw. split; [by eapply registry_wf_frame|].
    unfold frame in Hf. by injection Hf as _ _ -> _. }
  eapply after_mono; [|apply (exec_respects Rel)].
  - intros σ' H. by apply H.
  - by intros σ0 Hw.
  - intros σ1 σ2 σ3 H12 H23 Hw. destruct (H12 Hw) as [Hw2 Hs2].
    destruct (H23 Hw2) as [Hw3 Hs3]. split; [done|]. by etrans.
  - intros σ0 o d Hw. split; [by apply write_data_wf|done].
  - intros c d σ0 Hw. split; [|done]. by apply (alloc_wf c d σ0).
  - intros σ0 o Hw. split; [by apply reactive_wf|by apply reactive_grows].
  - intros σ0 r op _. eapply after_mono;
      [|apply registerReactionForOperation_frame].
    intros σ' (Hf & _). by apply Hframe.
  - intros σ0 r R σ' _ _ _ Hrel Hw.
    assert (He : registry_wf (enter r σ0)).
    { eapply registry_wf_frame; [|exact Hw].
      apply (releaseReaction_frame r σ0). }
    destruct (Hrel He) as [Hw' Hs']. split; [done|].
    unfold enter in Hs'. simpl in Hs'.
    destruct (releaseReaction_frame r σ0) as (Hf & _).
    unfold frame in Hf. injection Hf as _ _ Hp _. by rewrite Hp in Hs'.
  - intros σ0 r. apply Hframe, unobserve_frame.
  - intros σ0 f. by apply Hframe.
  - intros σ0 op rs σ' _ HL Hw. induction HL as [|? ? ? ? ? H1 HL IH|? ? ? ? H1].
    + done.
    + destruct (H1 Hw) as [Hw1 Hs1]. destruct (IH Hw1) as [Hw2 Hs2].
      split; [done|]. simpl in Hs1. by etrans.
    + destruct (H1 Hw) as [Hw1 Hs1]. done.
Qed.

(** ** The dependency store and the cleaners agree *)

Lemma store_wf_core σ σ' : core σ' = core σ → store_wf σ → store_wf σ'.
Proof.
  unfold core, store_wf, members. intros [= -> -> -> ->]. done.
Qed.

Lemma store_wf_empty : store_wf empty_state.
Proof.
  split; [|split]; simpl.
  - intros s r. unfold members. simpl. rewrite lookup_empty. simpl.
    by intros ?%elem_of_nil.
  - by intros r ?%elem_of_nil.
  - intros r. rewrite lookup_empty. by intros [? ?].
Qed.

Lemma set_delete_idemp r l : set_delete r (set_delete r l) = set_delete r l.
Proof.
  unfold set_delete. induction l as [|x l IH]; [done|].
  rewrite filter_cons. case_decide; [|done].
  rewrite filter_cons. case_decide; [|done]. by rewrite IH.
Qed.

Lemma elem_of_set_delete r x l : x ∈ set_delete r l ↔ x ∈ l ∧ x ≠ r.
Proof. unfold set_delete. rewrite list_elem_of_filter. tauto. Qed.

Lemma foldl_alter_lookup r (cl : list setid) (S : gmap setid (list rid)) s :
  foldl (λ S k, alter (set_delete r) k S) S cl !! s
  = if decide (s ∈ cl) then set_delete r <$> (S !! s) else S !! s.
Proof.
  revert S. induction cl as [|k cl IH]; intros S; [done|].
  cbn [foldl]. rewrite IH. destruct (decide (s = k)) as [->|Hne].
  - rewrite lookup_alter_eq. rewrite (decide_True _ _ (list_elem_of_here _ _)).
    case_decide; [|done].
    destruct (S !! k); simpl; [|done]. by rewrite set_delete_idemp.
  - rewrite lookup_alter_ne by done.
    destruct (decide (s ∈ cl)) as [Hin|Hnin].
    + by rewrite decide_True by by right.
    + rewrite decide_False; [done|]. by intros [?|?]%elem_of_cons.
Qed.

(** The members of a Set after [releaseReaction]. *)
Lemma members_releaseReaction r σ R s x :
  reactions σ !! r = Some R →
  x ∈ members (releaseReaction r σ) s
  ↔ x ∈ members σ s ∧ ¬ (x = r ∧ s ∈ default [] (cleaners R)).
Proof.
  intros HR. unfold releaseReaction. rewrite HR.
  destruct R as [f [cl|] u]; unfold members; simpl.
  - rewrite foldl_alter_lookup. case_decide as Hs.
    + destruct (sets σ !! s); simpl.
      * rewrite elem_of_set_delete. tauto.
      * split; [by intros ?%elem_of_nil|by intros [?%elem_of_nil _]].
    + tauto.
  - split; [|tauto]. intros H. split; [done|]. by intros [_ ?%elem_of_nil].
Qed.

Lemma reactions_releaseReaction r σ R :
  reactions σ !! r = Some R →
  reactions (releaseReaction r σ)
  = <[r := mkReaction (fn R) (Some []) (unobserved R)]> (reactions σ).
Proof.
  intros HR. unfold releaseReaction. rewrite HR.
  by destruct R as [f [cl|] u].
Qed.

(** After [releaseReaction] the reaction is a member of no Set. *)
Lemma releaseReaction_clears r σ R s :
  store_wf σ → reactions σ !! r = Some R →
  r ∉ members (releaseReaction r σ) s.
Proof.
  intros (H1 & _) HR Hin.
  apply (members_releaseReaction _ _ _ _ _ HR) in Hin as [Hin Hnot].
  destruct (H1 _ _ Hin) as (R' & cl & HR' & Hcl & Hs).
  apply Hnot. split; [done|]. assert (R' = R) as -> by congruence.
  by rewrite Hcl.
Qed.

Lemma releaseReaction_wf r σ : store_wf σ → store_wf (releaseReaction r σ).
Proof.
  intros Hwf. destruct (reactions σ !! r) as [R|] eqn:HR;
    [|unfold releaseReaction; by rewrite HR].
  pose proof Hwf as (H1 & H2 & H3).
  destruct (releaseReaction_frame r σ) as (_ & Hst & Hn & _).
  split; [|split].
  - intros s x Hin. destruct (decide (x = r)) as [->|Hne].
    { by apply (releaseReaction_clears _ _ _ _ Hwf HR) in Hin. }
    apply (members_releaseReaction _ _ _ _ _ HR) in Hin as [Hin _].
    rewrite (reactions_releaseReaction _ _ _ HR).
    rewrite lookup_insert_ne by done. eauto.
  - intros x. rewrite Hst. intros Hx.
    rewrite (reactions_releaseReaction _ _ _ HR).
    destruct (decide (x = r)) as [->|Hne].
    + rewrite lookup_insert_eq. eauto.
    + rewrite lookup_insert_ne by done. eauto.
  - intros x. rewrite Hn, (reactions_releaseReaction _ _ _ HR).
    rewrite lookup_insert_is_Some. intros [->|[_ Hx]]; apply H3; eauto.
Qed.

Lemma members_with_sets_insert s ms σ s' :
  members (with_sets (<[s := ms]>) σ) s'
  = if decide (s = s') then ms else members σ s'.
Proof.
  unfold members. simpl. case_decide as H.
  - subst. by rewrite lookup_insert_eq.
  - by rewrite lookup_insert_ne.
Qed.

Lemma members_with_reactions f σ s :
  members (with_reactions f σ) s = members σ s.
Proof. done. Qed.

Lemma reactionsForKey_of_wf target T key σ :
  store_wf σ →
  let σ1 := (reactionsForKey_of target T key σ).2 in
  store_wf σ1 ∧ reactions σ1 = reactions σ
  ∧ reactionStack σ1 = reactionStack σ.
Proof.
  intros Hwf. unfold reactionsForKey_of.
  destruct (T !! key) as [s|]; simpl; [done|].
  split; [|done]. destruct Hwf as (H1 & H2 & H3).
  split; [|split]; simpl; auto.
  intros s r. unfold members. simpl.
  destruct (decide (s = nextSet σ)) as [->|Hne].
  - rewrite lookup_insert_eq. simpl. by intros ?%elem_of_nil.
  - rewrite lookup_insert_ne by done. apply H1.
Qed.

Lemma registerReactionForOperation_wf r op σ :
  store_wf σ → last (reactionStack σ) = Some r →
  after (registerReactionForOperation r op σ) store_wf.
Proof.
  intros Hwf Hlast. unfold registerReactionForOperation.
  destruct (connectionStore σ !! op_target op) as [T|]; [|done].
  set (key := match op_type op with
              | OpIterate => ITERATION_KEY
              | _ => key_of (op_key op)
              end).
  pose proof (reactionsForKey_of_wf (op_target op) T key σ Hwf)
    as (Hwf1 & Hre & Hst).
  destruct (reactionsForKey_of (op_target op) T key σ) as [s σ1].
  simpl in Hwf1, Hre, Hst.
  case_bool_decide as Hmem; [done|].
  destruct Hwf1 as (H1 & H2 & H3).
  assert (Hr : r ∈ reactionStack σ1).
  { rewrite Hst. apply last_Some in Hlast as [l' ->].
    apply elem_of_app. right. apply list_elem_of_here. }
  destruct (H2 _ Hr) as ([f c u] & cl & HR & Hcl). simpl in Hcl. subst c.
  unfold cleaners_push. simpl. rewrite HR. simpl.
  split; [|split]; simpl.
  - intros s' x.
    rewrite members_with_reactions, members_with_sets_insert.
    intros Hx.
    assert (Hold : x ∈ members σ1 s' ∨ (x = r ∧ s' = s)).
    { case_decide as Hs; [subst s'|by left].
      apply elem_of_app in Hx as [Hx|Hx]; [by left|].
      apply list_elem_of_singleton in Hx. by right. }
    destruct (decide (x = r)) as [->|Hne].
    + rewrite lookup_insert_eq. eexists _, _. split; [done|]. simpl.
      split; [done|]. apply elem_of_app.
      destruct Hold as [Hx'|[_ ->]].
      * destruct (H1 _ _ Hx') as (R' & cl' & HR' & Hcl' & Hs').
        left. rewrite HR in HR'. injection HR' as <-. simpl in Hcl'.
        by injection Hcl' as <-.
      * right. apply list_elem_of_here.
    + rewrite lookup_insert_ne by done.
      destruct Hold as [Hx'|[? _]]; [|done]. by apply H1.
  - intros x Hx. destruct (decide (x = r)) as [->|Hne].
    + rewrite lookup_insert_eq. eauto.
    + rewrite lookup_insert_ne by done. by apply H2.
  - intros x. rewrite lookup_insert_is_Some.
    intros [<-|[_ Hx]]; apply H3; eauto.
Qed.

Lemma new_reaction_wf f σ : store_wf σ → store_wf (new_reaction f σ).
Proof.
  intros (H1 & H2 & H3).
  assert (Hfresh : reactions σ !! nextRid σ = None).
  { destruct (reactions σ !! nextRid σ) eqn:E; [|done].
    assert (nextRid σ < nextRid σ)%nat by (apply H3; eauto). lia. }
  split; [|split]; simpl.
  - intros s r Hin. destruct (H1 _ _ Hin) as (R & cl & HR & Hcl).
    exists R, cl. split; [|done]. rewrite lookup_insert_ne; [done|].
    intros <-. congruence.
  - intros r Hin. destruct (H2 _ Hin) as (R & cl & HR & Hcl).
    exists R, cl. split; [|done]. rewrite lookup_insert_ne; [done|].
    intros <-. congruence.
  - intros r. rewrite lookup_insert_is_Some.
    intros [<-|[_ Hx%H3]]; lia.
Qed.

Lemma mark_unobserved_wf r f cl u u' σ :
  store_wf σ → reactions σ !! r = Some (mkReaction f cl u) →
  store_wf (with_reactions (<[r := mkReaction f cl u']>) σ).
Proof.
  intros (H1 & H2 & H3) HR. split; [|split]; simpl.
  - intros s x Hin. destruct (H1 _ _ Hin) as (R & cl' & HR' & Hcl & Hs).
    destruct (decide (x = r)) as [->|Hne].
    + rewrite lookup_insert_eq. rewrite HR in HR'. injection HR' as <-.
      eexists _, _. split; [done|]. simpl in *. done.
    + rewrite lookup_insert_ne by done. eauto.
  - intros x Hin. destruct (H2 _ Hin) as (R & cl' & HR' & Hcl).
    destruct (decide (x = r)) as [->|Hne].
    + rewrite lookup_insert_eq. rewrite HR in HR'. injection HR' as <-.
      eexists _, _. split; [done|]. simpl in *. done.
    + rewrite lookup_insert_ne by done. eauto.
  - intros x. rewrite lookup_insert_is_Some.
    intros [<-|[_ Hx]]; apply H3; eauto.
Qed.

Lemma unobserve_wf r σ : store_wf σ → store_wf (unobserve r σ).
Proof.
  intros Hwf. unfold unobserve.
  destruct (reactions σ !! r) as [[f cl []]|] eqn:HR; try done.
  apply releaseReaction_wf. by eapply mark_unobserved_wf.
Qed.

Lemma enter_wf r R σ :
  store_wf σ → reactions σ !! r = Some R → store_wf (enter r σ).
Proof.
  intros Hwf HR. pose proof (releaseReaction_wf r σ Hwf) as (H1 & H2 & H3).
  split; [|split]; simpl; auto.
  intros x [Hx|Hx%list_elem_of_singleton]%elem_of_app; [by apply H2|].
  subst x. rewrite (reactions_releaseReaction _ _ _ HR).
  rewrite lookup_insert_eq. eauto.
Qed.

Lemma stack_pop_wf σ : store_wf σ → store_wf (stack_pop σ).
Proof.
  intros (H1 & H2 & H3). split; [|split]; simpl; auto.
  intros x Hx. apply H2. by eapply subseteq_take.
Qed.

(** Every run keeps the store and the cleaners in agreement. *)
Theorem exec_store_wf fuel p σ :
  store_wf σ → after (exec fuel p σ) store_wf.
Proof.
  intros Hwf.
  eapply after_mono;
    [|apply (exec_respects (λ σ σ', store_wf σ → store_wf σ'))].
  - simpl. auto.
  - done.
  - by auto.
  - intros σ0 o d. by apply store_wf_core.
  - intros c d σ0. simpl. by apply store_wf_core.
  - intros σ0 o. apply store_wf_core. unfold core.
    by destruct (reactive_core o σ0) as (-> & -> & -> & -> & _).
  - intros σ0 r op Hlast.
    pose proof (registerReactionForOperation_wf r op σ0) as H.
    destruct (registerReactionForOperation r op σ0); simpl in *; auto.
  - intros σ0 r R σ' HR _ _ Hrel Hw.
    apply stack_pop_wf, Hrel. by eapply enter_wf.
  - intros σ0 r. apply unobserve_wf.
  - intros σ0 f. apply new_reaction_wf.
  - intros σ0 op rs σ' _ HL.
    refine (Loop_simple _ _ _ _ op rs σ0 σ' HL); [done|by auto|].
    intros σ1 r o. by apply store_wf_core.
Qed.

(** ** Which reactions an operation reaches *)

Lemma elem_of_set_add x r l : x ∈ set_add r l ↔ x ∈ l ∨ x = r.
Proof.
  unfold set_add. case_bool_decide as H.
  - split; [by left|]. by intros [?| ->].
  - rewrite elem_of_app, list_elem_of_singleton. done.
Qed.

Lemma elem_of_foldl_set_add (ms acc : list rid) x :
  x ∈ foldl (λ acc r, set_add r acc) acc ms ↔ x ∈ acc ∨ x ∈ ms.
Proof.
  revert acc. induction ms as [|m ms IH]; intros acc; simpl.
  - split; [by left|]. by intros [?|?%elem_of_nil].
  - rewrite IH, elem_of_set_add, elem_of_cons. tauto.
Qed.

Lemma elem_of_addReactionsForKey acc σ T key x :
  x ∈ addReactionsForKey acc σ T key
  ↔ x ∈ acc ∨ ∃ s, T !! key = Some s ∧ x ∈ members σ s.
Proof.
  unfold addReactionsForKey. destruct (T !! key) as [s|].
  - rewrite elem_of_foldl_set_add. split.
    + intros [H|H]; [by left|right; eauto].
    + intros [H|(s' & [= <-] & H)]; [by left|by right].
  - split; [by left|]. by intros [?|(? & ? & ?)].
Qed.

(** The reactions that [getReactionsForOperation] collects are those of
    the Set stored under the operation's key and, for a structural
    operation, those of the Set stored under ["length"] (for an array) or
    [ITERATION_KEY]. *)
Lemma elem_of_getReactionsForOperation σ op rs x :
  getReactionsForOperation σ op = Some rs →
  x ∈ rs ↔
  ∃ T s, connectionStore σ !! op_target op = Some T ∧ x ∈ members σ s ∧
    (T !! key_of (op_key op) = Some s
     ∨ (structural (op_type op) = true
        ∧ T !! (if isArray σ (op_target op) then SKProp (PStr "length")
                else ITERATION_KEY) = Some s)).
Proof.
  unfold getReactionsForOperation.
  destruct (connectionStore σ !! op_target op) as [T|]; [|done].
  intros [= <-]. destruct (structural (op_type op)).
  - rewrite !elem_of_addReactionsForKey. split.
    + intros [[?%elem_of_nil|(s & Hs & Hx)]|(s & Hs & Hx)]; [done|..];
        exists T, s; eauto.
    + intros (T' & s & [= <-] & Hx & [Hs|[_ Hs]]); eauto.
  - rewrite elem_of_addReactionsForKey. split.
    + intros [?%elem_of_nil|(s & Hs & Hx)]; [done|]. exists T, s. eauto.
    + intros (T' & s & [= <-] & Hx & [Hs|[? _]]); [eauto|done].
Qed.

Lemma getReactionsForOperation_member σ op rs x :
  getReactionsForOperation σ op = Some rs → x ∈ rs → ∃ s, x ∈ members σ s.
Proof.
  intros Hg Hx. apply (elem_of_getReactionsForOperation _ _ _ _ Hg) in Hx.
  destruct Hx as (_ & s & _ & Hx & _). eauto.
Qed.

(** ** The calls that [queueReactionsForOperation] makes *)

(** The log of calls only grows. *)
Theorem exec_trace_grows fuel p σ :
  after (exec fuel p σ) (λ σ', triggered σ `prefix_of` triggered σ').
Proof.
  apply (exec_respects (λ σ σ', triggered σ `prefix_of` triggered σ')).
  - done.
  - intros σ1 σ2 σ3 H12 H23. by etrans.
  - done.
  - intros c d σ0. by simpl.
  - intros σ0 o. by destruct (reactive_core o σ0) as (_ & _ & _ & _ & ->).
  - intros σ0 r op _. eapply after_mono;
      [|apply registerReactionForOperation_frame].
    by intros σ' (_ & _ & _ & ->).
  - intros σ0 r R σ' _ _ _ Hrel. simpl. unfold enter in Hrel.
    simpl in Hrel.
    by destruct (releaseReaction_frame r σ0) as (_ & _ & _ & <- & _).
  - intros σ0 r. by destruct (unobserve_frame r σ0) as (_ & _ & _ & ->).
  - done.
  - intros σ0 op rs σ' _ HL.
    induction HL as [|? ? ? ? ? H1 HL IH|? ? ? ? H1]; [done|..].
    + etrans; [|exact IH]. etrans; [|exact H1]. by apply prefix_app_r.
    + etrans; [|exact H1]. by apply prefix_app_r.
Qed.

Lemma runReactionWrap_trace_grows fuel r args σ :
  after (runReactionWrap (exec fuel) r args σ)
    (λ σ', triggered σ `prefix_of` triggered σ').
Proof.
  unfold runReactionWrap. destruct (reactions σ !! r) as [R|]; [|done].
  destruct (unobserved R); [apply exec_trace_grows|].
  destruct (isRunning r σ); [by simpl|].
  pose proof (exec_trace_grows fuel (fn R args) (enter r σ)) as H.
  assert (Ht : triggered (enter r σ) = triggered σ).
  { unfold enter. simpl.
    by destruct (releaseReaction_frame r σ) as (_ & _ & _ & -> & _). }
  rewrite Ht in H.
  by destruct (exec fuel (fn R args) (enter r σ)); simpl in *.
Qed.

Lemma elem_of_drop_le {A} (l : list A) (n m : nat) (x : A) :
  (n ≤ m)%nat → x ∈ drop m l → x ∈ drop n l.
Proof.
  intros Hle. replace m with (n + (m - n))%nat by lia.
  rewrite <- drop_drop. apply subseteq_drop.
Qed.

Lemma elem_of_drop_prefix {A} (l1 l2 : list A) (n : nat) (x : A) :
  l1 `prefix_of` l2 → x ∈ drop n l1 → x ∈ drop n l2.
Proof.
  intros [k ->]. rewrite drop_app, elem_of_app. by left.
Qed.

(** When [forEach_reaction] returns, every reaction of the list was
    called with the operation. *)
Lemma forEach_reaction_calls fuel op rs σ σ' :
  forEach_reaction (exec fuel) rs op σ = Done () σ' →
  triggered σ `prefix_of` triggered σ'
  ∧ ∀ r, r ∈ rs → (r, op) ∈ drop (length (triggered σ)) (triggered σ').
Proof.
  revert σ. induction rs as [|r rs IH]; intros σ; simpl.
  { intros [= <-]. split; [done|]. by intros r ?%elem_of_nil. }
  unfold bind at 1. simpl. unfold bind at 1.
  pose proof (runReactionWrap_trace_grows fuel r (Some op) (log r op σ))
    as Hrun.
  destruct (runReactionWrap (exec fuel) r (Some op) (log r op σ))
    as [v σ1|e σ1|w]; try done.
  simpl in Hrun. intros Hrest. destruct (IH _ Hrest) as [Hpre Hall].
  assert (Hp : (triggered σ ++ [(r, op)]) `prefix_of` triggered σ').
  { by etrans. }
  split; [etrans; [|exact Hp]; by apply prefix_app_r|].
  intros x [->|Hx]%elem_of_cons.
  - eapply elem_of_drop_prefix; [exact Hp|].
    rewrite drop_app_length. apply list_elem_of_here.
  - eapply elem_of_drop_le; [|by apply Hall].
    apply prefix_length in Hrun. simpl in Hrun.
    rewrite length_app in Hrun. lia.
Qed.

(** When [queueReactionsForOperation] returns, every reaction that the
    operation reaches was called with the operation. *)
Theorem queueReactionsForOperation_calls fuel op σ σ' rs :
  getReactionsForOperation σ op = Some rs →
  queueReactionsForOperation (exec fuel) op σ = Done () σ' →
  ∀ r, r ∈ rs → (r, op) ∈ drop (length (triggered σ)) (triggered σ').
Proof.
  intros Hg. unfold queueReactionsForOperation. rewrite Hg.
  intros H. by destruct (forEach_reaction_calls _ _ _ _ _ H).
Qed.

Lemma publishes_intro fuel {A} (m : M A) σ op σ0 (a : A) :
  m σ = (queueReactionsForOperation (exec fuel) op >> ret a) σ0 →
  triggered σ0 = triggered σ →
  publishes fuel m σ op σ0 a.
Proof.
  intros Hm Ht. split; [done|]. intros σ1 rs Hdone Hg r Hr.
  rewrite Hm in Hdone. unfold bind in Hdone.
  destruct (queueReactionsForOperation (exec fuel) op σ0)
    as [[] σ2|e σ2|w] eqn:Hq; try done.
  injection Hdone as <-. rewrite <- Ht.
  by eapply queueReactionsForOperation_calls.
Qed.

(** ** Writes through a plain-object wrapper *)

Lemma raw_data_heap σ t d :
  raw_data σ t = Some d → ∃ c, heap σ !! t = Some (ORaw c d).
Proof.
  unfold raw_data. destruct (heap σ !! t) as [[c d'|]|]; try done.
  intros [= <-]. eauto.
Qed.



(** ** Writes through an array wrapper *)




(** ** Array operation descriptors *)

(** The descriptor of [push] on any array wrapper, called outside of a
    reaction: the arguments, inserted at the old length; nothing deleted. *)
Lemma push_descriptor (apply_fn : prog → M value) (σ : state) (p t : loc)
    (es args : list value) :
  heap σ !! p = Some (OProxy t arrayHandlers) →
  raw_data σ t = Some (DArray es) →
  reactionStack σ = [] →
  do_method apply_fn p push args σ
  = (queueReactionsForOperation apply_fn
       (mkOperation OpArray t (Some (SKProp (PStr "push"))) (Some p)
          None None (Some args) (Some (Z.of_nat (length es))) None
          (Some (-1))) >>
     ret (VNum (Z.of_nat (length (es ++ args)))))
      (write_data t (DArray (es ++ args)) σ).
Proof.
  intros Hp Ht Hst. pose proof Ht as [c Hc]%raw_data_heap.
  unfold do_method. rewrite Hp. unfold arrayHandlers_call.
  unfold bind at 1. unfold registerRunningReaction, getRunningReaction.
  rewrite Hst. simpl. unfold bind at 1. unfold apply_native_array.
  rewrite Ht. simpl. unfold doArrayKeys, bind, array_length, raw_data.
  simpl. rewrite lookup_alter_eq, Hc. simpl.
  replace (Z.of_nat (length (es ++ args)) - Z.of_nat (length args))
    with (Z.of_nat (length es)) by (rewrite length_app; lia).
  done.
Qed.

(** C5.  On [reactive([1, 2, 3])] with a reaction subscribed to the
    length, [push(4)] calls the reaction with inserted items [[4]] at
    start index 3, no deleted items and deleted start -1; [splice(1, 1, 9)]
    calls it with inserted items [[9]] at start index 1 and deleted items
    [[2]] at deleted start index 1. *)
Theorem array_op_descriptor :
  match exec 30 push_demo empty_state with
  | Done _ σ =>
      triggered σ
      = [(0%nat, array_operation push (Some [VNum 4]) 3 None (-1));
         (0%nat, array_operation splice (Some [VNum 9]) 1 (Some [VNum 2]) 1)]
      ∧ raw_data σ 0%nat = Some (DArray [VNum 1; VNum 9; VNum 3; VNum 4])
  | _ => False
  end
  ∧ match exec 30 splice_demo empty_state with
    | Done _ σ =>
        triggered σ
        = [(0%nat,
            array_operation splice (Some [VNum 9]) 1 (Some [VNum 2]) 1)]
        ∧ raw_data σ 0%nat = Some (DArray [VNum 1; VNum 9; VNum 3])
    | _ => False
    end.
Proof. by vm_compute. Qed.

(** ** What is stored in the raw structures *)

(** Through a plain-object wrapper the value written is the raw form: what
    [baseHandlers.set] stores is not a wrapper. *)
Lemma stored_not_wrapper (σ : state) (v : value) (w : loc) :
  registry_wf σ → stored σ v = VObj w → proxyToRaw σ !! w = None.
Proof.
  intros Hwf. unfold stored. destruct v as [| | | | | |l]; simpl; try done.
  destruct (proxyToRaw σ !! l) as [o|] eqn:El; [|by intros [= <-]].
  intros [= <-]. destruct Hwf as (H1 & H2 & H3 & H4).
  destruct (H2 _ _ El) as [Hr _]. destruct (H4 _ _ Hr) as [c Hc].
  eapply wrapper_not_raw; [|exact Hc]. done.
Qed.

(** C6 at its failing inputs.  [m.set("k", p)], [s.add(p)] and
    [arr.push(p)] with a wrapper [p] store the wrapper itself in the raw
    Map, Set and array ([arr.indexOf(p)], which looks for the raw object,
    then answers -1), while [o.k = p] through a plain-object wrapper stores
    the raw object of [p]. *)
Theorem wrapper_stored_in_raw_collection :
  match exec 30 map_set_demo empty_state with
  | Done (VObj p) σ =>
      raw_data σ 0%nat = Some (DMap [(VStr "k", VObj p)])
      ∧ proxyToRaw σ !! p = Some 2%nat
  | _ => False
  end
  ∧ match exec 30 set_add_demo empty_state with
    | Done (VObj p) σ =>
        raw_data σ 0%nat = Some (DSet [VObj p])
        ∧ proxyToRaw σ !! p = Some 2%nat
    | _ => False
    end
  ∧ match exec 30 array_push_demo empty_state with
    | Done v σ =>
        raw_data σ 0%nat = Some (DArray [VObj 3%nat])
        ∧ proxyToRaw σ !! 3%nat = Some 2%nat
        ∧ v = VNum (-1)
    | _ => False
    end
  ∧ match exec 30 object_set_demo empty_state with
    | Done (VObj p) σ =>
        raw_data σ 0%nat = Some (DProps [(PStr "k", VObj 2%nat)])
        ∧ proxyToRaw σ !! p = Some 2%nat
        ∧ proxyToRaw σ !! 2%nat = None
    | _ => False
    end.
Proof. by vm_compute. Qed.

(** ** Method calls through an array wrapper *)




(** ** Dependencies are recomputed on every run *)

Lemma members_enter r σ s :
  members (enter r σ) s = members (releaseReaction r σ) s.
Proof. done. Qed.

(** C7.  A reaction that is neither stopped nor running is released
    before its function runs again: the body starts in [enter r σ], where
    the reaction is on top of the stack and a member of no Set, so that no
    operation reaches it until it reads again.  In the scenario the
    reaction is called for [o.a = 2] and for [o.flag = false], and for
    neither [o.a = 3] nor [o.a = 4]. *)
Theorem release_before_rerun (apply_fn : prog → M value) (σ : state)
    (r : rid) (R : Reaction) (args : option Operation) :
  store_wf σ →
  reactions σ !! r = Some R → unobserved R = false →
  r ∉ reactionStack σ →
  runReactionWrap apply_fn r args σ
  = match apply_fn (fn R args) (enter r σ) with
    | Done v σ' => Done v (stack_pop σ')
    | Thrown e σ' => Thrown e (stack_pop σ')
    | Stuck w => Stuck w
    end
  ∧ getRunningReaction (enter r σ) = Some r
  ∧ (∀ s, r ∉ members (enter r σ) s)
  ∧ (∀ op rs, getReactionsForOperation (enter r σ) op = Some rs → r ∉ rs)
  ∧ match exec 30 branch_demo empty_state with
    | Done _ σ' =>
        calls σ'
        = [(0%nat, OpSet, Some (SKProp (PStr "a")), Some (VNum 2));
           (0%nat, OpSet, Some (SKProp (PStr "flag")), Some (VBool false))]
        ∧ subscribers σ' 0%nat (SKProp (PStr "flag")) = [0%nat]
        ∧ subscribers σ' 0%nat (SKProp (PStr "a")) = []
    | _ => False
    end.
Proof.
  intros Hwf HR HU Hst.
  assert (Hclear : ∀ s, r ∉ members (enter r σ) s).
  { intros s. rewrite members_enter. by eapply releaseReaction_clears. }
  split_and!.
  - unfold runReactionWrap, isRunning. rewrite HR, HU.
    by rewrite bool_decide_eq_false_2.
  - unfold getRunningReaction, enter, stack_push. simpl. apply last_snoc.
  - done.
  - intros op rs Hg Hin.
    destruct (getReactionsForOperation_member _ _ _ _ Hg Hin) as [s Hs].
    by apply (Hclear s).
  - by vm_compute.
Qed.

Lemma store_wf_state_of fuel p : store_wf (state_of (exec fuel p empty_state)).
Proof.
  pose proof (exec_store_wf fuel p empty_state store_wf_empty) as H.
  destruct (exec fuel p empty_state); simpl in *; auto using store_wf_empty.
Qed.

Lemma registry_wf_state_of fuel p :
  registry_wf (state_of (exec fuel p empty_state)).
Proof.
  pose proof (exec_registry_wf fuel p empty_state registry_wf_empty) as H.
  destruct (exec fuel p empty_state); simpl in *;
    auto using registry_wf_empty.
Qed.

Lemma release_before_rerun_witness :
  store_wf branch_state
  ∧ subscribers branch_state 0%nat (SKProp (PStr "a")) = [0%nat]
  ∧ subscribers (enter 0%nat branch_state) 0%nat (SKProp (PStr "a")) = []
  ∧ ∀ s, 0%nat ∉ members (enter 0%nat branch_state) s.
Proof.
  split; [apply store_wf_state_of|].
  split; [reflexivity|]. split; [reflexivity|].
  destruct (reactions branch_state !! 0%nat) as [R|] eqn:HR;
    [|vm_compute in HR; discriminate HR].
  refine (proj1 (proj2 (proj2
    (release_before_rerun (exec 5) branch_state 0%nat R None
       (store_wf_state_of _ _) HR _ _)))).
  - vm_compute in HR. injection HR as <-. reflexivity.
  - vm_compute. apply not_elem_of_nil.
Defined.

(** ** A reaction that throws *)

(** C8.  When the function of a reaction throws, the exception reaches
    the caller of the reaction with the reaction stack as it was before
    the call: a reaction that was pushed (it was neither stopped nor
    running) ran its function with itself on top of the stack and was
    popped before the exception went on. *)
Theorem failing_reaction_unwinds (fuel : nat) (r : rid)
    (args : option Operation) (σ σ' : state) (e : value) :
  runReactionWrap (exec fuel) r args σ = Thrown e σ' →
  reactionStack σ' = reactionStack σ
  ∧ getRunningReaction σ' = getRunningReaction σ
  ∧ (∀ R, reactions σ !! r = Some R → unobserved R = false →
          r ∉ reactionStack σ →
          ∃ σb, exec fuel (fn R args) (enter r σ) = Thrown e σb
                ∧ reactionStack σb = reactionStack σ ++ [r]
                ∧ σ' = stack_pop σb).
Proof.
  intros Hrun.
  assert (Hpop : ∀ σb, reactionStack σb = reactionStack σ ++ [r] →
                       reactionStack (stack_pop σb) = reactionStack σ).
  { intros σb Hb. unfold stack_pop. simpl. rewrite Hb, length_app. simpl.
    replace (Nat.pred (length (reactionStack σ) + 1))
      with (length (reactionStack σ)) by lia.
    by rewrite take_app_length. }
  assert (Henter : reactionStack (enter r σ) = reactionStack σ ++ [r]).
  { unfold enter, stack_push. simpl.
    by destruct (releaseReaction_frame r σ) as (_ & -> & _). }
  assert (Hstack : reactionStack σ' = reactionStack σ).
  { unfold runReactionWrap in Hrun.
    destruct (reactions σ !! r) as [R|]; [|done].
    destruct (unobserved R).
    - pose proof (exec_stack fuel (fn R args) σ) as H.
      by rewrite Hrun in H.
    - destruct (isRunning r σ); [done|]. fold (enter r σ) in Hrun.
      pose proof (exec_stack fuel (fn R args) (enter r σ)) as H.
      destruct (exec fuel (fn R args) (enter r σ)) as [|e' σb|]; try done.
      injection Hrun as <- <-. simpl in H. apply Hpop. by rewrite H. }
  split_and!; [done|by unfold getRunningReaction; rewrite Hstack|].
  intros R HR HU Hnot. unfold runReactionWrap, isRunning in Hrun.
  rewrite HR, HU, bool_decide_eq_false_2 in Hrun by done.
  fold (enter r σ) in Hrun.
  pose proof (exec_stack fuel (fn R args) (enter r σ)) as H.
  destruct (exec fuel (fn R args) (enter r σ)) as [|e' σb|]; try done.
  injection Hrun as <- <-. exists σb. simpl in H. by rewrite H.
Qed.

Lemma failing_reaction_unwinds_witness :
  ∃ σ', runReactionWrap (exec 10) 0%nat (Some (operation OpSet 0%nat))
          throw_state = Thrown (VStr "boom") σ'
        ∧ reactionStack σ' = reactionStack throw_state.
Proof.
  eexists. split; [vm_compute; reflexivity|].
  refine (proj1 (failing_reaction_unwinds 10 0%nat
                   (Some (operation OpSet 0%nat)) throw_state _
                   (VStr "boom") _)).
  vm_compute. reflexivity.
Defined.

(** After the failed call the stack is empty again, and the reads of the
    second reaction are registered for the second reaction. *)
Lemma tracking_after_failure :
  match exec 30 throw_demo empty_state with
  | Done v σ =>
      v = VStr "boom" ∧ reactionStack σ = []
      ∧ subscribers σ 0%nat (SKProp (PStr "a")) = [1%nat]
  | _ => False
  end.
Proof. by vm_compute. Qed.

(** ** Stopping a reaction *)

(** C9 at its failing input.  A reaction that calls [unobserve] on itself
    while it runs is registered again by the reads that follow in the same
    run: after the run it is stopped and still a member of the Set of
    [o.a], and the writes [o.a = 3] and [o.a = 4] call it. *)
Theorem unobserve_while_running :
  match exec 30 self_stop_prefix empty_state with
  | Done _ σ =>
      is_unobserved σ 0%nat = true
      ∧ reactionStack σ = []
      ∧ subscribers σ 0%nat (SKProp (PStr "a")) = [0%nat]
  | _ => False
  end
  ∧ match exec 30 self_stop_demo empty_state with
    | Done _ σ =>
        calls σ
        = [(0%nat, OpSet, Some (SKProp (PStr "a")), Some (VNum 2));
           (0%nat, OpSet, Some (SKProp (PStr "a")), Some (VNum 3));
           (0%nat, OpSet, Some (SKProp (PStr "a")), Some (VNum 4))]
        ∧ is_unobserved σ 0%nat = true
    | _ => False
    end.
Proof. by vm_compute. Qed.

Lemma silenced_core r n σ σ' :
  core σ' = core σ → triggered σ' = triggered σ →
  silenced r n σ → silenced r n σ'.
Proof.
  unfold core, silenced, is_unobserved, members.
  intros [= -> -> -> ->] ->. done.
Qed.

Lemma registerReactionForOperation_others r op σ :
  after (registerReactionForOperation r op σ)
    (λ σ', (∀ s x, x ∈ members σ' s → x ∈ members σ s ∨ x = r)
           ∧ (∀ x, x ≠ r → reactions σ' !! x = reactions σ !! x)).
Proof.
  unfold registerReactionForOperation.
  destruct (connectionStore σ !! op_target op) as [T|]; [|simpl; auto].
  set (key := match op_type op with
              | OpIterate => ITERATION_KEY
              | _ => key_of (op_key op)
              end).
  assert (H1 : let σ1 := (reactionsForKey_of (op_target op) T key σ).2 in
               (∀ s x, x ∈ members σ1 s → x ∈ members σ s)
               ∧ reactions σ1 = reactions σ).
  { unfold reactionsForKey_of. destruct (T !! key); simpl; [done|].
    split; [|done]. intros s x. unfold members. simpl.
    destruct (decide (s = nextSet σ)) as [->|Hne].
    - rewrite lookup_insert_eq. simpl. by intros ?%elem_of_nil.
    - by rewrite lookup_insert_ne. }
  destruct (reactionsForKey_of (op_target op) T key σ) as [s σ1].
  simpl in H1. destruct H1 as [Hm Hr].
  case_bool_decide as Hin; simpl.
  { split; [by auto|]. intros. by rewrite Hr. }
  assert (Hm2 : ∀ s' x,
    x ∈ members (with_sets (<[s:=members σ1 s ++ [r]]>) σ1) s' →
    x ∈ members σ s' ∨ x = r).
  { intros s' x. rewrite members_with_sets_insert. case_decide as Hs.
    - subst s'. rewrite elem_of_app, list_elem_of_singleton.
      intros [?|?]; auto.
    - auto. }
  unfold cleaners_push. simpl.
  destruct (reactions σ1 !! r) as [[f [cl|] u]|] eqn:ER; simpl.
  - split; [done|]. intros x Hx. rewrite lookup_insert_ne by done.
    by rewrite Hr.
  - split; [done|]. intros. by rewrite Hr.
  - split; [done|]. intros. by rewrite Hr.
Qed.

Lemma releaseReaction_others r σ :
  (∀ s x, x ∈ members (releaseReaction r σ) s → x ∈ members σ s)
  ∧ (∀ x, x ≠ r →
          reactions (releaseReaction r σ) !! x = reactions σ !! x).
Proof.
  destruct (reactions σ !! r) as [R|] eqn:HR.
  - split.
    + intros s x Hx.
      by apply (members_releaseReaction _ _ _ _ _ HR) in Hx as [? _].
    + intros x Hx. rewrite (reactions_releaseReaction _ _ _ HR).
      by rewrite lookup_insert_ne.
  - unfold releaseReaction. by rewrite HR.
Qed.

Lemma elem_of_drop_snoc {A} (n : nat) (l : list A) (x e : A) :
  e ∈ drop n (l ++ [x]) → e ∈ drop n l ∨ e = x.
Proof.
  rewrite drop_app, elem_of_app. intros [?|He]; [by left|right].
  apply subseteq_drop in He. by apply list_elem_of_singleton in He.
Qed.

Lemma silenced_enter r0 n r R σ :
  reactions σ !! r = Some R → unobserved R = false →
  silenced r0 n σ → silenced r0 n (enter r σ).
Proof.
  intros HR HU (Hu & Hst & Hm & Ht & Hn).
  assert (Hne : r0 ≠ r).
  { intros ->. unfold is_unobserved in Hu. rewrite HR in Hu. congruence. }
  destruct (releaseReaction_others r σ) as [Hm' Hr'].
  destruct (releaseReaction_frame r σ) as (_ & Hs & Hn' & Ht' & _).
  split_and!.
  - unfold is_unobserved, enter. simpl. by rewrite Hr'.
  - unfold enter. simpl. rewrite Hs.
    intros [?|?%list_elem_of_singleton]%elem_of_app; done.
  - intros s Hin. rewrite members_enter in Hin. by apply Hm', Hm in Hin.
  - unfold enter. simpl. by rewrite Ht'.
  - unfold enter. simpl. by rewrite Hn'.
Qed.

Lemma silenced_unobserve r0 n r σ :
  silenced r0 n σ → silenced r0 n (unobserve r σ).
Proof.
  intros (Hu & Hst & Hm & Ht & Hn). unfold unobserve.
  destruct (reactions σ !! r) as [[f cl []]|] eqn:HR; try done.
  assert (Hne : r0 ≠ r).
  { intros ->. unfold is_unobserved in Hu. by rewrite HR in Hu. }
  set (σ1 := with_reactions (<[r:=mkReaction f cl true]>) σ).
  destruct (releaseReaction_others r σ1) as [Hm' Hr'].
  destruct (releaseReaction_frame r σ1) as (_ & Hs & Hn' & Ht' & _).
  split_and!.
  - unfold is_unobserved. rewrite Hr' by done. unfold σ1. simpl.
    by rewrite lookup_insert_ne.
  - by rewrite Hs.
  - intros s Hin. apply Hm' in Hin. by apply (Hm s).
  - by rewrite Ht'.
  - by rewrite Hn'.
Qed.

(** Once a reaction is silenced, no run of user code calls it through a
    change of a dependency, and it stays silenced. *)
Theorem exec_silenced (r0 : rid) (n fuel : nat) (p : prog) (σ : state) :
  silenced r0 n σ → after (exec fuel p σ) (silenced r0 n).
Proof.
  intros Hs.
  eapply after_mono;
    [|apply (exec_respects (λ σ σ', silenced r0 n σ → silenced r0 n σ'))].
  - simpl. auto.
  - done.
  - by auto.
  - intros σ0 o d. by apply silenced_core.
  - intros c d σ0. simpl. by apply silenced_core.
  - intros σ0 o. destruct (reactive_core o σ0) as (H1 & H2 & H3 & H4 & H5).
    apply silenced_core; [|done]. unfold core. by rewrite H1, H2, H3, H4.
  - intros σ0 r op Hlast.
    pose proof (registerReactionForOperation_others r op σ0) as Ho.
    pose proof (registerReactionForOperation_frame r op σ0) as Hf.
    destruct (registerReactionForOperation r op σ0) as [[] σ'|e σ'|];
      simpl in *; [..|done].
    all: destruct Ho as [Hm' Hr']; destruct Hf as (_ & Hst' & Hn' & Ht').
    all: intros (Hu & Hst & Hm & Ht & Hn).
    all: assert (Hne : r0 ≠ r)
           by (intros ->; apply Hst; apply last_Some in Hlast as [l' ->];
               apply elem_of_app; right; apply list_elem_of_here).
    all: split_and!;
      [ unfold is_unobserved; by rewrite Hr'
      | by rewrite Hst'
      | intros s Hin; apply Hm' in Hin as [Hin| ->]; [by apply (Hm s)|done]
      | by rewrite Ht'
      | by rewrite Hn' ].
  - intros σ0 r R σ' HR HU _ Hrel Hs0.
    destruct (Hrel (silenced_enter _ _ _ _ _ HR HU Hs0))
      as (Hu & Hst & Hm & Ht & Hn).
    split_and!; try done.
    intros Hin. apply Hst. simpl in Hin. by eapply subseteq_take.
  - intros σ0 r. apply silenced_unobserve.
  - intros σ0 f (Hu & Hst & Hm & Ht & Hn). split_and!; simpl; try done.
    + unfold is_unobserved in *. simpl.
      rewrite lookup_insert_ne; [done|lia].
    + lia.
  - intros σ0 op rs σ' Hg HL Hs0.
    assert (Hnot : r0 ∉ rs).
    { intros Hin.
      destruct (getReactionsForOperation_member _ _ _ _ Hg Hin) as [s Hin'].
      destruct Hs0 as (_ & _ & Hm & _). by apply (Hm s). }
    clear Hg. induction HL as [σ1|r rs σ1 σ2 σ3 Hrel HL IH|r rs σ1 σ2 Hrel].
    + done.
    + apply IH; [|by intros ?; apply Hnot; right].
      apply Hrel. destruct Hs0 as (Hu & Hst & Hm & Ht & Hn).
      split_and!; try done. simpl.
      intros e [He| ->]%elem_of_drop_snoc; [by apply Ht|].
      simpl. intros ->. apply Hnot. apply list_elem_of_here.
    + apply Hrel. destruct Hs0 as (Hu & Hst & Hm & Ht & Hn).
      split_and!; try done. simpl.
      intros e [He| ->]%elem_of_drop_snoc; [by apply Ht|].
      simpl. intros ->. apply Hnot. apply list_elem_of_here.
Qed.

(** X22.  [unobserve] on a reaction that is live and not running: the
    reaction is released at once, a second [unobserve] changes nothing, no
    later run calls the reaction for a change of a dependency, and a direct
    call of the reaction runs its function where it is called, without
    release or push. *)
Theorem unobserve_idle (σ : state) (r : rid) (R : Reaction) :
  store_wf σ → reactions σ !! r = Some R → unobserved R = false →
  r ∉ reactionStack σ →
  (∀ s, r ∉ members (unobserve r σ) s)
  ∧ unobserve r (unobserve r σ) = unobserve r σ
  ∧ (∀ fuel p,
       after (exec fuel p (unobserve r σ))
         (silenced r (length (triggered (unobserve r σ)))))
  ∧ (∀ apply_fn args,
       runReactionWrap apply_fn r args (unobserve r σ)
       = apply_fn (fn R args) (unobserve r σ)).
Proof.
  intros Hwf HR HU Hst. destruct R as [f cl u]. simpl in HU. subst u.
  set (σ1 := with_reactions (<[r:=mkReaction f cl true]>) σ).
  assert (Hun : unobserve r σ = releaseReaction r σ1).
  { unfold unobserve. by rewrite HR. }
  assert (HR1 : reactions σ1 !! r = Some (mkReaction f cl true)).
  { unfold σ1. simpl. apply lookup_insert_eq. }
  assert (Hwf1 : store_wf σ1) by by eapply mark_unobserved_wf.
  assert (HR2 : reactions (unobserve r σ) !! r
                = Some (mkReaction f (Some []) true)).
  { rewrite Hun, (reactions_releaseReaction _ _ _ HR1).
    apply lookup_insert_eq. }
  assert (Hclear : ∀ s, r ∉ members (unobserve r σ) s).
  { intros s. rewrite Hun. by eapply releaseReaction_clears. }
  split_and!.
  - done.
  - unfold unobserve at 1. by rewrite HR2.
  - intros fuel p. apply exec_silenced.
    destruct (unobserve_frame r σ) as (_ & Hs & Hn & _).
    split_and!.
    + unfold is_unobserved. by rewrite HR2.
    + by rewrite Hs.
    + done.
    + rewrite drop_all. by intros e ?%elem_of_nil.
    + rewrite Hn. destruct Hwf as (_ & _ & H3). apply H3. eauto.
  - intros apply_fn args. unfold runReactionWrap. by rewrite HR2.
Qed.

(** A reaction stopped from the top level in [branch_state]. *)
Lemma unobserve_idle_witness :
  store_wf branch_state
  ∧ subscribers branch_state 0%nat (SKProp (PStr "a")) = [0%nat]
  ∧ ∀ s, 0%nat ∉ members (unobserve 0%nat branch_state) s.
Proof.
  split; [apply store_wf_state_of|]. split; [reflexivity|].
  destruct (reactions branch_state !! 0%nat) as [R|] eqn:HR;
    [|vm_compute in HR; discriminate HR].
  refine (proj1 (unobserve_idle branch_state 0%nat R
                   (store_wf_state_of _ _) HR _ _)).
  - vm_compute in HR. injection HR as <-. reflexivity.
  - vm_compute. apply not_elem_of_nil.
Defined.

(** * More of the module

    Properties of the functions of the module beyond the ones proved
    above: what every run keeps, how reads subscribe and writes call, and
    what the handlers of arrays, Maps and Sets do at their edges. *)

(** ** The registry across runs *)

Lemma registerReactionForOperation_store r op σ :
  after (registerReactionForOperation r op σ)
    (λ σ', ∀ o, is_Some (connectionStore σ !! o) →
                is_Some (connectionStore σ' !! o)).
Proof.
  unfold registerReactionForOperation.
  destruct (connectionStore σ !! op_target op) as [T|] eqn:ET; [|simpl; auto].
  unfold reactionsForKey_of.
  destruct (T !! _) as [s|]; simpl.
  all: case_bool_decide; simpl; [try done|].
  all: try (intros o Ho; rewrite lookup_insert_is_Some;
            destruct (decide (op_target op = o)); by auto).
  all: unfold cleaners_push; simpl.
  all: destruct (reactions σ !! r) as [[f [cl|] u]|]; simpl; try done.
  all: intros o Ho; rewrite lookup_insert_is_Some;
            destruct (decide (op_target op = o)); by auto.
Qed.

Lemma unobserve_connectionStore r σ :
  connectionStore (unobserve r σ) = connectionStore σ.
Proof.
  unfold unobserve. destruct (reactions σ !! r) as [[f cl []]|]; try done.
  by destruct (releaseReaction_frame r
    (with_reactions (<[r := mkReaction f cl true]>) σ)) as (_ & _ & _ & _ & ->).
Qed.

Lemma tracked_frame σ σ' :
  frame σ' = frame σ →
  (∀ o, is_Some (connectionStore σ !! o) → is_Some (connectionStore σ' !! o)) →
  tracked σ → tracked σ'.
Proof.
  unfold frame, tracked, constructor_of. intros [= Hh Hr _ _] Hc Ht o p.
  rewrite Hh, Hr. intros Ho. destruct (Ht _ _ Ho). split; auto.
Qed.

Lemma registry_extends_frame σ σ' : frame σ' = frame σ → registry_extends σ σ'.
Proof. unfold frame, registry_extends. by intros [= _ -> -> _]. Qed.

Lemma write_data_tracked o d σ : tracked σ → tracked (write_data o d σ).
Proof.
  intros Ht o' p Ho. destruct (Ht _ _ Ho) as [Hs (c & Hc & Hi & Hp)].
  split; [done|]. exists c. split_and!; [|done|].
  - unfold constructor_of in *. simpl.
    destruct (decide (o = o')) as [->|Hne].
    + rewrite lookup_alter_eq. by destruct (heap σ !! o') as [[]|].
    + by rewrite lookup_alter_ne.
  - simpl. destruct (decide (o = p)) as [->|Hne].
    + by rewrite lookup_alter_eq, Hp.
    + by rewrite lookup_alter_ne.
Qed.

Lemma heap_fresh σ l :
  registry_wf σ → is_Some (heap σ !! l) → l ≠ nextLoc σ.
Proof.
  intros (_ & _ & H3 & _) Hl ->.
  assert (nextLoc σ < nextLoc σ)%nat by by apply H3. lia.
Qed.

Lemma constructor_of_heap σ o c :
  constructor_of σ o = Some c → is_Some (heap σ !! o).
Proof. unfold constructor_of. destruct (heap σ !! o); [eauto|done]. Qed.

Lemma alloc_tracked c d σ :
  registry_wf σ → tracked σ → after (alloc c d σ) tracked.
Proof.
  intros Hwf Ht. simpl. intros o p Ho. simpl in Ho.
  destruct (Ht _ _ Ho) as [Hs (c' & Hc & Hi & Hp)]. split; [done|].
  exists c'. split_and!; [|done|].
  - unfold constructor_of in *. simpl.
    rewrite lookup_insert_ne; [done|]. intros <-.
    eapply heap_fresh; [done| |done]. by eapply constructor_of_heap.
  - simpl. rewrite lookup_insert_ne; [done|]. intros <-.
    eapply heap_fresh; [done| |done]. eauto.
Qed.

Lemma reactive_tracked o σ :
  registry_wf σ → tracked σ → tracked (reactive o σ).2.
Proof.
  intros Hwf Ht. unfold reactive.
  case_bool_decide; [done|].
  destruct (constructor_of σ o) as [c|] eqn:Ec; [|done].
  destruct (shouldInstrument c) eqn:Es; simpl; [|done].
  destruct (rawToProxy σ !! o) eqn:Er; [done|]. simpl.
  assert (Ho : o ≠ nextLoc σ).
  { eapply heap_fresh; [done|]. by eapply constructor_of_heap. }
  intros o' p. simpl. destruct (decide (o' = o)) as [->|Hne].
  - rewrite !lookup_insert_eq. intros [= <-]. split; [eauto|].
    exists c. split_and!; [|done|by rewrite lookup_insert_eq].
    unfold constructor_of. simpl. by rewrite lookup_insert_ne.
  - rewrite !(lookup_insert_ne _ o) by done. intros Ho'.
    destruct (Ht _ _ Ho') as [Hs (c' & Hc & Hi & Hp)]. split; [done|].
    exists c'. split_and!; [|done|].
    + unfold constructor_of in *. simpl.
      rewrite lookup_insert_ne; [done|]. intros <-.
      eapply heap_fresh; [done| |done]. by eapply constructor_of_heap.
    + simpl. rewrite lookup_insert_ne; [done|]. intros <-.
      eapply heap_fresh; [done| |done]. eauto.
Qed.

Lemma reactive_extends o σ :
  registry_wf σ → registry_extends σ (reactive o σ).2.
Proof.
  intros Hwf. split; [|by apply reactive_grows].
  unfold reactive. case_bool_decide; [done|].
  destruct (constructor_of σ o) as [c|] eqn:Ec; [|done].
  destruct (negb (shouldInstrument c)); [done|].
  destruct (rawToProxy σ !! o) eqn:Er; [done|]. simpl.
  by apply insert_subseteq.
Qed.

(** Every run keeps the registry invariants and only extends the
    registry. *)
Lemma exec_registry_inv fuel p σ :
  registry_inv σ →
  after (exec fuel p σ) (λ σ', registry_inv σ' ∧ registry_extends σ σ').
Proof.
  intros Hinv.
  pose (Rel := λ σ σ' : state,
          registry_inv σ → registry_inv σ' ∧ registry_extends σ σ').
  assert (Hframe : ∀ σ1 σ2,
    frame σ2 = frame σ1 →
    (∀ o, is_Some (connectionStore σ1 !! o) →
          is_Some (connectionStore σ2 !! o)) → Rel σ1 σ2).
  { intros σ1 σ2 Hf Hc [Hw Ht]. split; [split|].
    - by eapply registry_wf_frame.
    - by eapply tracked_frame.
    - by apply registry_extends_frame. }
  assert (Htrans : ∀ σ1 σ2 σ3, Rel σ1 σ2 → Rel σ2 σ3 → Rel σ1 σ3).
  { intros σ1 σ2 σ3 H12 H23 Hw. destruct (H12 Hw) as [Hw2 [Ha2 Hb2]].
    destruct (H23 Hw2) as [Hw3 [Ha3 Hb3]]. split; [done|].
    split; by etrans. }
  eapply after_mono; [|apply (exec_respects Rel)].
  - intros σ' H. by apply H.
  - by intros σ0 Hw.
  - exact Htrans.
  - intros σ0 o d [Hw Ht]. split; [split|done].
    + by apply write_data_wf.
    + by apply write_data_tracked.
  - intros c d σ0 [Hw Ht]. split; [split|done].
    + by apply (alloc_wf c d σ0).
    + by apply (alloc_tracked c d σ0).
  - intros σ0 o [Hw Ht]. split; [split|].
    + by apply reactive_wf.
    + by apply reactive_tracked.
    + by apply reactive_extends.
  - intros σ0 r op _.
    pose proof (registerReactionForOperation_frame r op σ0) as Hf.
    pose proof (registerReactionForOperation_store r op σ0) as Hs.
    destruct (registerReactionForOperation r op σ0); simpl in *; try done.
    all: apply Hframe; [by destruct Hf|done].
  - intros σ0 r R σ' _ _ _ Hrel Hw.
    destruct (releaseReaction_frame r σ0) as (Hf & _ & _ & _ & Hc).
    assert (He : Rel σ0 (enter r σ0)).
    { apply Hframe; [exact Hf|]. unfold enter. simpl. by rewrite Hc. }
    assert (Hp : Rel σ' (stack_pop σ')) by by apply Hframe.
    by apply (Htrans _ _ _ (Htrans _ _ _ He Hrel) Hp).
  - intros σ0 r. apply Hframe; [apply unobserve_frame|].
    by rewrite unobserve_connectionStore.
  - intros σ0 f. by apply Hframe.
  - intros σ0 op rs σ' _ HL.
    refine (Loop_simple _ _ _ _ op rs σ0 σ' HL); [by intros ? ?|exact Htrans|].
    intros σ1 r o. by apply Hframe.
Qed.

Lemma registry_inv_empty : registry_inv empty_state.
Proof.
  split; [apply registry_wf_empty|]. intros o p. simpl.
  by rewrite lookup_empty.
Qed.

Lemma registry_inv_state_of fuel p :
  registry_inv (state_of (exec fuel p empty_state)).
Proof.
  pose proof (exec_registry_inv fuel p empty_state registry_inv_empty) as H.
  destruct (exec fuel p empty_state); simpl in *;
    [by destruct H..|apply registry_inv_empty].
Qed.

(** What the registry invariants say of a raw object and its wrapper. *)
Lemma registry_inv_pair σ o w :
  registry_inv σ → rawToProxy σ !! o = Some w →
  proxyToRaw σ !! w = Some o
  ∧ proxyToRaw σ !! o = None ∧ rawToProxy σ !! w = None
  ∧ is_Some (connectionStore σ !! o)
  ∧ ∃ c, constructor_of σ o = Some c ∧ shouldInstrument c = true
         ∧ heap σ !! w = Some (OProxy o (getHandlers c)).
Proof.
  intros [Hwf Ht] Ho. pose proof Hwf as (H1 & H2 & H3 & H4).
  destruct (Ht _ _ Ho) as [Hs (c & Hc & Hi & Hw)].
  split_and!; [by apply H1|by eapply wrapper_not_raw| |done|by eauto].
  destruct (rawToProxy σ !! w) as [x|] eqn:E; [|done].
  destruct (H4 _ _ E) as [c' Hc']. unfold constructor_of in Hc'.
  by rewrite Hw in Hc'.
Qed.

(** X1.  Whatever user code runs, the registry stays a one-to-one
    pairing: [rawToProxy] and [proxyToRaw] are inverse to each other; a raw
    object that has a wrapper is not itself a wrapper, and its wrapper has
    no wrapper; it has an entry in [connectionStore]; [shouldInstrument]
    accepts it; and its wrapper is a proxy over it with the handlers that
    [getHandlers] gives for its constructor. *)
Theorem registry_stays_paired (fuel : nat) (p : prog) (σ : state) :
  registry_inv σ →
  after (exec fuel p σ)
    (λ σ', (∀ o w, rawToProxy σ' !! o = Some w ↔ proxyToRaw σ' !! w = Some o)
           ∧ ∀ o w, rawToProxy σ' !! o = Some w →
               proxyToRaw σ' !! o = None ∧ rawToProxy σ' !! w = None
               ∧ is_Some (connectionStore σ' !! o)
               ∧ ∃ c, constructor_of σ' o = Some c
                      ∧ shouldInstrument c = true
                      ∧ heap σ' !! w = Some (OProxy o (getHandlers c))).
Proof.
  intros Hinv. eapply after_mono; [|by apply exec_registry_inv].
  intros σ' [Hinv' _]. split.
  - intros o w. destruct Hinv' as [(H1 & H2 & _) _]. split; [apply H1|].
    intros Hw. by destruct (H2 _ _ Hw).
  - intros o w Ho.
    by destruct (registry_inv_pair _ _ _ Hinv' Ho) as (_ & ? & ? & ? & ?).
Qed.

(** X2.  An object keeps the wrapper it has: after any run of user
    code [rawToProxy] still gives the same wrapper, [raw] of the wrapper is
    the object, and [reactive] of the object and of the wrapper both return
    that wrapper and change nothing. *)
Theorem wrapper_is_stable (fuel : nat) (p : prog) (σ : state) (o w : loc) :
  registry_inv σ → rawToProxy σ !! o = Some w →
  after (exec fuel p σ)
    (λ σ', rawToProxy σ' !! o = Some w
           ∧ raw (VObj w) σ' = VObj o
           ∧ reactive o σ' = (w, σ')
           ∧ reactive w σ' = (w, σ')).
Proof.
  intros Hinv Ho. eapply after_mono; [|by apply exec_registry_inv].
  intros σ' [Hinv' [Hr Hp]].
  assert (Ho' : rawToProxy σ' !! o = Some w) by by eapply lookup_weaken.
  destruct (registry_inv_pair _ _ _ Hinv' Ho')
    as (Hw & Hno & _ & _ & c & Hc & Hi & _).
  split_and!.
  - done.
  - simpl. by rewrite Hw.
  - unfold reactive. by rewrite Hno, Hc, Hi, Ho'.
  - unfold reactive. rewrite Hw. by rewrite bool_decide_eq_true_2.
Qed.

(** ** The dependency store across runs *)

Lemma store_inv_empty : store_inv empty_state.
Proof.
  split; [apply store_wf_empty|]. split; [split|split]; simpl.
  - intros *. by rewrite lookup_empty.
  - intros *. by rewrite lookup_empty.
  - intros s. unfold members. simpl. rewrite lookup_empty. constructor.
  - intros *. by rewrite lookup_empty.
Qed.

(** The part of the state the store invariants are about. *)
Lemma store_inv_same σ σ' :
  core σ' = core σ → connectionStore σ' = connectionStore σ →
  nextSet σ' = nextSet σ → store_inv σ → store_inv σ'.
Proof.
  intros Hc Hs Hn (Hwf & Hf & He).
  split; [by eapply store_wf_core|].
  unfold core in Hc. injection Hc as Hse Hre Hst Hnr.
  unfold store_fresh, cleaners_exact, members in *.
  rewrite Hs, Hn, Hse, Hre. done.
Qed.

Lemma reactive_store o σ :
  nextSet (reactive o σ).2 = nextSet σ
  ∧ (connectionStore (reactive o σ).2 = connectionStore σ
     ∨ connectionStore (reactive o σ).2 = <[o := ∅]> (connectionStore σ)).
Proof.
  unfold reactive. repeat case_match; simpl; auto.
Qed.

Lemma store_fresh_insert_empty o σ σ' :
  nextSet σ' = nextSet σ →
  connectionStore σ' = <[o := ∅]> (connectionStore σ) →
  store_fresh σ → store_fresh σ'.
Proof.
  intros Hn Hc [H1 H2]. unfold store_fresh. rewrite Hn, Hc.
  assert (Hlook : ∀ t T k s,
    <[o := ∅]> (connectionStore σ) !! t = Some T → T !! k = Some s →
    connectionStore σ !! t = Some T).
  { intros t T k s. destruct (decide (o = t)) as [->|Hne].
    - rewrite lookup_insert_eq. intros [= <-]. by rewrite lookup_empty.
    - by rewrite lookup_insert_ne. }
  split.
  - intros t T k s HT Hk. eapply H1; [|exact Hk]. by eapply Hlook.
  - intros t1 T1 k1 t2 T2 k2 s HT1 Hk1 HT2 Hk2.
    eapply H2; [|exact Hk1| |exact Hk2]; by eapply Hlook.
Qed.

Lemma reactive_store_inv o σ : store_inv σ → store_inv (reactive o σ).2.
Proof.
  intros (Hwf & Hf & He).
  destruct (reactive_core o σ) as (Hse & Hre & Hst & Hnr & _).
  destruct (reactive_store o σ) as [Hn Hc].
  split; [|split].
  - eapply store_wf_core; [|exact Hwf]. unfold core. by rewrite Hse, Hre, Hst, Hnr.
  - destruct Hc as [Hc|Hc].
    + unfold store_fresh. by rewrite Hn, Hc.
    + by eapply store_fresh_insert_empty.
  - unfold cleaners_exact, members. by rewrite Hn, Hse, Hre.
Qed.

(** *** [releaseReaction] *)

Lemma releaseReaction_nextSet r σ :
  nextSet (releaseReaction r σ) = nextSet σ.
Proof.
  unfold releaseReaction. by destruct (reactions σ !! r) as [[f [cl|] u]|].
Qed.

Lemma set_delete_absent r l : r ∉ l → set_delete r l = l.
Proof.
  intros Hr. unfold set_delete. induction l as [|x l IH]; [done|].
  rewrite filter_cons. rewrite not_elem_of_cons in Hr. destruct Hr as [Hx Hl].
  rewrite decide_True by done. by rewrite IH.
Qed.

(** The members of a Set after [releaseReaction], as a list. *)
Lemma members_releaseReaction_eq r σ R s :
  reactions σ !! r = Some R →
  members (releaseReaction r σ) s
  = if decide (s ∈ default [] (cleaners R)) then set_delete r (members σ s)
    else members σ s.
Proof.
  intros HR. unfold releaseReaction. rewrite HR.
  destruct R as [f [cl|] u]; unfold members; simpl.
  - rewrite foldl_alter_lookup. case_decide; [|done].
    by destruct (sets σ !! s).
  - done.
Qed.

Lemma members_releaseReaction_delete r σ s :
  store_wf σ →
  members (releaseReaction r σ) s = set_delete r (members σ s).
Proof.
  intros Hwf. destruct (reactions σ !! r) as [R|] eqn:HR.
  - rewrite (members_releaseReaction_eq _ _ _ _ HR). case_decide as Hs; [done|].
    symmetry. apply set_delete_absent. intros Hin.
    destruct Hwf as (H1 & _). destruct (H1 _ _ Hin) as (R' & cl & HR' & Hcl & Hs').
    apply Hs. assert (R' = R) as -> by congruence. by rewrite Hcl.
  - unfold releaseReaction. rewrite HR.
    symmetry. apply set_delete_absent. intros Hin.
    destruct Hwf as (H1 & _). destruct (H1 _ _ Hin) as (R' & cl & HR' & _).
    congruence.
Qed.

Lemma releaseReaction_store_inv r σ :
  store_inv σ → store_inv (releaseReaction r σ).
Proof.
  intros (Hwf & Hf & [He1 He2]).
  destruct (releaseReaction_frame r σ) as (_ & _ & _ & _ & Hc).
  pose proof (releaseReaction_nextSet r σ) as Hn.
  split; [by apply releaseReaction_wf|]. split; [|split].
  - unfold store_fresh. by rewrite Hc, Hn.
  - intros s. rewrite members_releaseReaction_delete by done.
    unfold set_delete. by apply NoDup_filter.
  - intros x R' cl HR' Hcl. rewrite Hn.
    destruct (reactions σ !! r) as [R|] eqn:HR; last first.
    { assert (releaseReaction r σ = σ) as Heq
        by (unfold releaseReaction; by rewrite HR).
      rewrite Heq in *. eauto. }
    rewrite (reactions_releaseReaction _ _ _ HR) in HR'.
    destruct (decide (x = r)) as [->|Hne].
    + rewrite lookup_insert_eq in HR'. injection HR' as <-. simpl in Hcl.
      injection Hcl as <-. split; [constructor|]. by intros s ?%elem_of_nil.
    + rewrite lookup_insert_ne in HR' by done.
      destruct (He2 _ _ _ HR' Hcl) as [Hnd Hall]. split; [done|].
      intros s Hs. destruct (Hall s Hs) as [Hm Hlt]. split; [|done].
      rewrite members_releaseReaction_delete by done.
      apply elem_of_set_delete. done.
Qed.

Lemma mark_unobserved_store_inv r f cl u u' σ :
  store_inv σ → reactions σ !! r = Some (mkReaction f cl u) →
  store_inv (with_reactions (<[r := mkReaction f cl u']>) σ).
Proof.
  intros (Hwf & Hf & [He1 He2]) HR.
  split; [by eapply mark_unobserved_wf|]. split; [done|]. split; [done|].
  intros x R' cl' HR' Hcl. simpl in HR'.
  destruct (decide (x = r)) as [->|Hne].
  - rewrite lookup_insert_eq in HR'. injection HR' as <-. simpl in Hcl.
    subst cl. by apply (He2 _ _ _ HR).
  - rewrite lookup_insert_ne in HR' by done. by apply (He2 _ _ _ HR').
Qed.

Lemma unobserve_store_inv r σ : store_inv σ → store_inv (unobserve r σ).
Proof.
  intros Hinv. unfold unobserve.
  destruct (reactions σ !! r) as [[f cl []]|] eqn:HR; try done.
  apply releaseReaction_store_inv. by eapply mark_unobserved_store_inv.
Qed.

Lemma new_reaction_store_inv f σ : store_inv σ → store_inv (new_reaction f σ).
Proof.
  intros (Hwf & Hf & [He1 He2]).
  split; [by apply new_reaction_wf|]. split; [done|]. split; [done|].
  intros x R' cl' HR' Hcl. simpl in HR'.
  destruct (decide (x = nextRid σ)) as [->|Hne].
  - rewrite lookup_insert_eq in HR'. by injection HR' as <-.
  - rewrite lookup_insert_ne in HR' by done. by apply (He2 _ _ _ HR').
Qed.

Lemma stack_store_inv f σ :
  store_wf (with_stack f σ) → store_inv σ → store_inv (with_stack f σ).
Proof. intros Hwf (_ & Hf & He). done. Qed.

Lemma enter_store_inv r R σ :
  store_inv σ → reactions σ !! r = Some R → store_inv (enter r σ).
Proof.
  intros Hinv HR. apply stack_store_inv.
  - destruct Hinv as [Hwf _]. by eapply enter_wf.
  - by apply releaseReaction_store_inv.
Qed.

Lemma stack_pop_store_inv σ : store_inv σ → store_inv (stack_pop σ).
Proof.
  intros Hinv. apply stack_store_inv; [|done].
  destruct Hinv as [Hwf _]. by apply stack_pop_wf.
Qed.

(** *** Registration *)

(** What [registerReactionForOperation] comes to for a reaction that has
    its [cleaners] assigned, on a target that has a store entry. *)
Lemma registerReactionForOperation_Done r op σ T :
  store_inv σ → last (reactionStack σ) = Some r →
  connectionStore σ !! op_target op = Some T →
  ∃ σ' s,
    registerReactionForOperation r op σ = Done () σ'
    ∧ connectionStore σ'
      = <[op_target op := <[registration_key op := s]> T]> (connectionStore σ)
    ∧ (T !! registration_key op = Some s
       ∨ (T !! registration_key op = None ∧ s = nextSet σ))
    ∧ (∀ s', members σ' s'
             = if decide (s' = s) then set_add r (members σ s')
               else members σ s')
    ∧ (s < nextSet σ')%nat ∧ (nextSet σ ≤ nextSet σ')%nat
    ∧ store_inv σ'.
Proof.
  intros Hinv Hlast HT.
  pose proof (registerReactionForOperation_wf r op σ (proj1 Hinv) Hlast) as Hwf'.
  destruct Hinv as (Hwf & [Hf1 Hf2] & [He1 He2]).
  assert (Hr : r ∈ reactionStack σ).
  { apply last_Some in Hlast as [l' ->].
    apply elem_of_app. right. apply list_elem_of_here. }
  destruct Hwf as (Hw1 & Hw2 & Hw3).
  destruct (Hw2 _ Hr) as ([f c u] & cl & HR & Hcl). simpl in Hcl. subst c.
  unfold registerReactionForOperation in *. rewrite HT in *.
  fold (registration_key op) in *.
  unfold reactionsForKey_of in *.
  destruct (T !! registration_key op) as [s|] eqn:Hk.
  - (* the key has a Set *)
    simpl in *. case_bool_decide as Hmem.
    + exists σ, s. split_and!; try done.
      * rewrite (insert_id T) by done. by rewrite insert_id.
      * by left.
      * intros s'. case_decide as Hs; [subst s'|done].
        unfold set_add. by rewrite bool_decide_eq_true_2.
      * by eapply Hf1.
    + unfold cleaners_push in *. simpl in *. rewrite HR in *. simpl in *.
      eexists _, s. split_and!; try done.
      * simpl. rewrite (insert_id T) by done. by rewrite insert_id.
      * by left.
      * intros s'. rewrite members_with_reactions, members_with_sets_insert.
        destruct (decide (s = s')) as [->|Hne].
        -- rewrite decide_True by done. unfold set_add.
           by rewrite bool_decide_eq_false_2.
        -- by rewrite decide_False by done.
      * simpl. by eapply Hf1.
      * split; [done|]. split; [done|]. split.
        -- intros s'. rewrite members_with_reactions, members_with_sets_insert.
           case_decide; [|done]. apply NoDup_app. split; [done|].
           split; [|apply NoDup_singleton].
           intros x Hx ->%list_elem_of_singleton. done.
        -- intros x R' cl' HR' Hcl'. simpl in HR'.
           assert (Hgrow : ∀ s' y, y ∈ members σ s' →
             y ∈ members (with_reactions (<[r:=mkReaction f (Some (cl ++ [s])) u]>)
                            (with_sets (<[s:=members σ s ++ [r]]>) σ)) s').
           { intros s' y Hy.
             rewrite members_with_reactions, members_with_sets_insert.
             case_decide; [subst s'; apply elem_of_app; by left|done]. }
           destruct (decide (x = r)) as [->|Hne].
           ++ rewrite lookup_insert_eq in HR'. injection HR' as <-.
              simpl in Hcl'. injection Hcl' as <-.
              destruct (He2 _ _ _ HR eq_refl) as [Hnd Hall]. split.
              ** apply NoDup_app. split; [done|].
                 split; [|apply NoDup_singleton].
                 intros y Hy ->%list_elem_of_singleton.
                 by destruct (Hall _ Hy).
              ** intros s' [Hs'| ->%list_elem_of_singleton]%elem_of_app.
                 --- destruct (Hall _ Hs'). split; [by apply Hgrow|done].
                 --- split; [|by eapply Hf1].
                     rewrite members_with_reactions, members_with_sets_insert.
                     rewrite decide_True by done. apply elem_of_app. right.
                     apply list_elem_of_here.
           ++ rewrite lookup_insert_ne in HR' by done.
              destruct (He2 _ _ _ HR' Hcl') as [Hnd Hall]. split; [done|].
              intros s' Hs'. destruct (Hall _ Hs'). split; [by apply Hgrow|done].
  - (* a new Set is allocated for the key *)
    simpl in *.
    assert (Hempty : members σ (nextSet σ) = []).
    { destruct (members σ (nextSet σ)) as [|y l] eqn:E; [done|].
      assert (Hy : y ∈ members σ (nextSet σ)) by (rewrite E; left).
      destruct (Hw1 _ _ Hy) as (R' & cl' & HR' & Hcl' & Hs').
      destruct (He2 _ _ _ HR' Hcl') as [_ Hall].
      destruct (Hall _ Hs') as [_ Hlt]. lia. }
    assert (Hm1 : ∀ s', members (mkState (heap σ) (rawToProxy σ) (proxyToRaw σ)
                 (<[op_target op:=<[registration_key op:=nextSet σ]> T]>
                    (connectionStore σ))
                 (<[nextSet σ:=[]]> (sets σ)) (reactions σ) (reactionStack σ)
                 (nextLoc σ) (S (nextSet σ)) (nextRid σ) (triggered σ)) s'
               = members σ s').
    { intros s'. unfold members at 1. simpl.
      destruct (decide (s' = nextSet σ)) as [->|Hne].
      - by rewrite lookup_insert_eq, Hempty.
      - by rewrite lookup_insert_ne. }
    rewrite bool_decide_eq_false_2 in *
      by (rewrite Hm1, Hempty; apply not_elem_of_nil).
    unfold cleaners_push in *. simpl in *. rewrite HR in *. simpl in *.
    eexists _, (nextSet σ). split_and!; try done.
    + by right.
    + intros s'. rewrite members_with_reactions, members_with_sets_insert.
      rewrite !Hm1. destruct (decide (nextSet σ = s')) as [<-|Hne].
      * rewrite decide_True by done. by rewrite Hempty.
      * by rewrite decide_False by done.
    + simpl. lia.
    + simpl. lia.
    + assert (Hmem : ∀ s', members
          (with_reactions (<[r:=mkReaction f (Some (cl ++ [nextSet σ])) u]>)
             (with_sets (<[nextSet σ:=members
                (mkState (heap σ) (rawToProxy σ) (proxyToRaw σ)
                 (<[op_target op:=<[registration_key op:=nextSet σ]> T]>
                    (connectionStore σ))
                 (<[nextSet σ:=[]]> (sets σ)) (reactions σ) (reactionStack σ)
                 (nextLoc σ) (S (nextSet σ)) (nextRid σ) (triggered σ))
                (nextSet σ) ++ [r]]>)
                (mkState (heap σ) (rawToProxy σ) (proxyToRaw σ)
                 (<[op_target op:=<[registration_key op:=nextSet σ]> T]>
                    (connectionStore σ))
                 (<[nextSet σ:=[]]> (sets σ)) (reactions σ) (reactionStack σ)
                 (nextLoc σ) (S (nextSet σ)) (nextRid σ) (triggered σ)))) s'
          = if decide (s' = nextSet σ) then [r] else members σ s').
      { intros s'. rewrite members_with_reactions, members_with_sets_insert.
        rewrite !Hm1, Hempty. simpl.
        destruct (decide (nextSet σ = s')) as [<-|Hne].
        - by rewrite decide_True.
        - by rewrite decide_False. }
      split; [done|]. split; [split|split].
      * simpl. intros t T0 k s HT0 Hk0.
        destruct (decide (op_target op = t)) as [<-|Hne].
        -- rewrite lookup_insert_eq in HT0. injection HT0 as <-.
           destruct (decide (registration_key op = k)) as [<-|Hnk].
           ++ rewrite lookup_insert_eq in Hk0. injection Hk0 as <-. lia.
           ++ rewrite lookup_insert_ne in Hk0 by done.
              pose proof (Hf1 _ _ _ _ HT Hk0). lia.
        -- rewrite lookup_insert_ne in HT0 by done.
           pose proof (Hf1 _ _ _ _ HT0 Hk0). lia.
      * simpl. intros t1 T1 k1 t2 T2 k2 s HT1 Hk1 HT2 Hk2.
        assert (Hcase : ∀ t T0 k,
          <[op_target op:=<[registration_key op:=nextSet σ]> T]>
             (connectionStore σ) !! t = Some T0 → T0 !! k = Some s →
          (t = op_target op ∧ k = registration_key op ∧ s = nextSet σ)
          ∨ (∃ T1, connectionStore σ !! t = Some T1 ∧ T1 !! k = Some s
                   ∧ (s < nextSet σ)%nat
                   ∧ ¬ (t = op_target op ∧ k = registration_key op))).
        { intros t T0 k HT0 Hk0.
          destruct (decide (op_target op = t)) as [<-|Hne].
          - rewrite lookup_insert_eq in HT0. injection HT0 as <-.
            destruct (decide (registration_key op = k)) as [<-|Hnk].
            + rewrite lookup_insert_eq in Hk0. injection Hk0 as <-. by left.
            + rewrite lookup_insert_ne in Hk0 by done. right.
              exists T. split_and!; try done; [by eapply Hf1|].
              by intros [_ ?].
          - rewrite lookup_insert_ne in HT0 by done. right.
            exists T0. split_and!; try done; [by eapply Hf1|].
            by intros [? _]. }
        destruct (Hcase _ _ _ HT1 Hk1) as [(-> & -> & Hs1)|(T1' & HT1' & Hk1' & Hlt1 & _)];
          destruct (Hcase _ _ _ HT2 Hk2) as [(-> & -> & Hs2)|(T2' & HT2' & Hk2' & Hlt2 & _)];
          try done; try lia.
        by eapply Hf2.
      * intros s'. rewrite Hmem. case_decide; [apply NoDup_singleton|done].
      * intros x R' cl' HR' Hcl'. simpl in HR'.
        destruct (decide (x = r)) as [->|Hne].
        -- rewrite lookup_insert_eq in HR'. injection HR' as <-.
           simpl in Hcl'. injection Hcl' as <-.
           destruct (He2 _ _ _ HR eq_refl) as [Hnd Hall]. split.
           ++ apply NoDup_app. split; [done|].
              split; [|apply NoDup_singleton].
              intros y Hy ->%list_elem_of_singleton.
              destruct (Hall _ Hy). lia.
           ++ intros s' [Hs'| ->%list_elem_of_singleton]%elem_of_app.
              ** destruct (Hall _ Hs') as [Hin Hlt]. rewrite Hmem.
                 rewrite decide_False by lia. simpl. split; [done|lia].
              ** rewrite Hmem. rewrite decide_True by done. simpl.
                 split; [apply list_elem_of_here|lia].
        -- rewrite lookup_insert_ne in HR' by done.
           destruct (He2 _ _ _ HR' Hcl') as [Hnd Hall]. split; [done|].
           intros s' Hs'. destruct (Hall _ Hs') as [Hin Hlt]. rewrite Hmem.
           rewrite decide_False by lia. simpl. split; [done|lia].
Qed.

Lemma registerReactionForOperation_store_inv r op σ :
  store_inv σ → last (reactionStack σ) = Some r →
  after (registerReactionForOperation r op σ) store_inv.
Proof.
  intros Hinv Hlast.
  destruct (connectionStore σ !! op_target op) as [T|] eqn:HT.
  - destruct (registerReactionForOperation_Done r op σ T Hinv Hlast HT)
      as (σ' & s & -> & _ & _ & _ & _ & _ & Hinv'). done.
  - unfold registerReactionForOperation. by rewrite HT.
Qed.

(** Every run keeps the invariants of the store. *)
Lemma exec_store_inv fuel p σ :
  store_inv σ → after (exec fuel p σ) store_inv.
Proof.
  intros Hinv.
  eapply after_mono;
    [|apply (exec_respects (λ σ σ', store_inv σ → store_inv σ'))].
  - simpl. auto.
  - done.
  - by auto.
  - intros σ0 o d. by apply store_inv_same.
  - intros c d σ0. simpl. by apply store_inv_same.
  - intros σ0 o. apply reactive_store_inv.
  - intros σ0 r op Hlast.
    pose proof (registerReactionForOperation_store_inv r op σ0) as H.
    destruct (registerReactionForOperation r op σ0); simpl in *; auto.
  - intros σ0 r R σ' HR _ _ Hrel Hw.
    apply stack_pop_store_inv, Hrel. by eapply enter_store_inv.
  - intros σ0 r. apply unobserve_store_inv.
  - intros σ0 f. apply new_reaction_store_inv.
  - intros σ0 op rs σ' _ HL.
    refine (Loop_simple _ _ _ _ op rs σ0 σ' HL); [done|by auto|].
    intros σ1 r o. by apply store_inv_same.
Qed.

Lemma store_inv_state_of fuel p :
  store_inv (state_of (exec fuel p empty_state)).
Proof.
  pose proof (exec_store_inv fuel p empty_state store_inv_empty) as H.
  destruct (exec fuel p empty_state); simpl in *; auto using store_inv_empty.
Qed.

(** ** Subscribers *)

Lemma subscribers_lookup σ t k T :
  connectionStore σ !! t = Some T →
  subscribers σ t k = match T !! k with Some s => members σ s | None => [] end.
Proof. intros HT. unfold subscribers. by rewrite HT. Qed.

Lemma subscribers_unwrapped σ t k :
  connectionStore σ !! t = None → subscribers σ t k = [].
Proof. intros HT. unfold subscribers. by rewrite HT. Qed.

Lemma foldl_set_add_NoDup (ms acc : list rid) :
  NoDup acc → NoDup (foldl (λ acc r, set_add r acc) acc ms).
Proof.
  revert acc. induction ms as [|m ms IH]; intros acc Hacc; [done|].
  simpl. apply IH. unfold set_add. case_bool_decide; [done|].
  apply NoDup_app. split; [done|]. split; [|apply NoDup_singleton].
  by intros x Hx ->%list_elem_of_singleton.
Qed.

Lemma addReactionsForKey_NoDup acc σ T key :
  NoDup acc → NoDup (addReactionsForKey acc σ T key).
Proof.
  intros Hacc. unfold addReactionsForKey. destruct (T !! key); [|done].
  by apply foldl_set_add_NoDup.
Qed.

Lemma elem_of_subscribers σ t k x :
  x ∈ subscribers σ t k
  ↔ ∃ T s, connectionStore σ !! t = Some T ∧ T !! k = Some s
           ∧ x ∈ members σ s.
Proof.
  unfold subscribers. destruct (connectionStore σ !! t) as [T|]; simpl.
  - destruct (T !! k) as [s|] eqn:Hk.
    + split; [intros Hx; by exists T, s|].
      intros (T' & s' & [= <-] & Hs & Hx). by rewrite Hk in Hs; injection Hs as <-.
    + split; [by intros ?%elem_of_nil|].
      intros (T' & s' & [= <-] & Hs & Hx). by rewrite Hk in Hs.
  - split; [by intros ?%elem_of_nil|]. by intros (T' & s' & ? & _).
Qed.

(** X3.  [getReactionsForOperation] fails exactly when the target has
    no entry in [connectionStore] (the lookup in [addReactionsForKey] then
    raises).  Otherwise it collects each reaction once, and a reaction is
    collected if and only if it subscribed under the key of the operation
    or, for an operation of type add, delete, clear or array, under
    ["length"] (for an array target) or [ITERATION_KEY] (for any other). *)
Theorem operation_reach (σ : state) (op : Operation) :
  (connectionStore σ !! op_target op = None ↔
   getReactionsForOperation σ op = None)
  ∧ ∀ rs, getReactionsForOperation σ op = Some rs →
      NoDup rs
      ∧ ∀ x, x ∈ rs ↔
          x ∈ subscribers σ (op_target op) (key_of (op_key op))
          ∨ (structural (op_type op) = true
             ∧ x ∈ subscribers σ (op_target op)
                     (iteration_key σ (op_target op))).
Proof.
  split.
  - unfold getReactionsForOperation.
    by destruct (connectionStore σ !! op_target op).
  - intros rs Hg. split.
    + unfold getReactionsForOperation in Hg.
      destruct (connectionStore σ !! op_target op) as [T|]; [|done].
      injection Hg as <-. destruct (structural (op_type op)).
      * do 2 apply addReactionsForKey_NoDup. constructor.
      * apply addReactionsForKey_NoDup. constructor.
    + intros x. rewrite (elem_of_getReactionsForOperation _ _ _ _ Hg).
      rewrite !elem_of_subscribers. unfold iteration_key. split.
      * intros (T & s & HT & Hx & [Hs|[Hst Hs]]); [left|right; split; [done|]];
          by exists T, s.
      * intros [(T & s & HT & Hs & Hx)|[Hst (T & s & HT & Hs & Hx)]];
          exists T, s; auto.
Qed.

Lemma members_unallocated σ s :
  store_inv σ → (nextSet σ ≤ s)%nat → members σ s = [].
Proof.
  intros ((Hw1 & _) & _ & [_ He2]) Hle.
  destruct (members σ s) as [|y l] eqn:E; [done|].
  assert (Hy : y ∈ members σ s) by (rewrite E; left).
  destruct (Hw1 _ _ Hy) as (R' & cl' & HR' & Hcl' & Hs').
  destruct (He2 _ _ _ HR' Hcl') as [_ Hall].
  destruct (Hall _ Hs') as [_ Hlt]. lia.
Qed.

(** Registering a dependency that is registered changes nothing. *)
Lemma registerReactionForOperation_idemp r op σ σ' :
  registerReactionForOperation r op σ = Done () σ' →
  registerReactionForOperation r op σ' = Done () σ'.
Proof.
  unfold registerReactionForOperation. fold (registration_key op).
  destruct (connectionStore σ !! op_target op) as [T|] eqn:HT; [|done].
  unfold reactionsForKey_of.
  destruct (T !! registration_key op) as [s|] eqn:Hk.
  - case_bool_decide as Hmem.
    + intros [= <-]. rewrite HT, Hk. by rewrite bool_decide_eq_true_2.
    + unfold cleaners_push. simpl.
      destruct (reactions σ !! r) as [[f [cl|] u]|] eqn:HR; try done.
      intros [= <-]. simpl. rewrite HT, Hk.
      rewrite bool_decide_eq_true_2; [done|].
      rewrite members_with_reactions, members_with_sets_insert.
      rewrite decide_True by done. apply elem_of_app. right.
      apply list_elem_of_here.
  - simpl. case_bool_decide as Hmem.
    + intros [= <-]. simpl. rewrite !lookup_insert_eq.
      by rewrite bool_decide_eq_true_2.
    + unfold cleaners_push. simpl.
      destruct (reactions σ !! r) as [[f [cl|] u]|] eqn:HR; try done.
      intros [= <-]. simpl. rewrite !lookup_insert_eq.
      rewrite bool_decide_eq_true_2; [done|].
      rewrite members_with_reactions, members_with_sets_insert.
      rewrite decide_True by done. apply elem_of_app. right.
      apply list_elem_of_here.
Qed.

(** The subscribers after a registration: the reaction is added to the
    list of the key it is registered for, and every other list is as it
    was. *)
Lemma registerReactionForOperation_subscribers r op σ T :
  store_inv σ → last (reactionStack σ) = Some r →
  connectionStore σ !! op_target op = Some T →
  ∃ σ', registerReactionForOperation r op σ = Done () σ'
    ∧ (∀ t k, subscribers σ' t k
              = if decide (t = op_target op ∧ k = registration_key op)
                then set_add r (subscribers σ t k)
                else subscribers σ t k)
    ∧ store_inv σ'.
Proof.
  intros Hinv Hr HT.
  destruct (registerReactionForOperation_Done r op σ T Hinv Hr HT)
    as (σ' & s & Hreg & Hcs & Hs & Hmem & Hlt & Hle & Hinv').
  exists σ'. split_and!; try done.
  intros t k. unfold subscribers. rewrite Hcs.
  pose proof Hinv as (_ & [Hf1 Hf2] & _).
  destruct (decide (t = op_target op)) as [->|Hnt].
  - rewrite lookup_insert_eq, HT. simpl.
    destruct (decide (k = registration_key op)) as [->|Hnk].
    + rewrite decide_True by done. rewrite lookup_insert_eq.
      rewrite Hmem, decide_True by done.
      destruct Hs as [->|[-> ->]]; [done|].
      by rewrite (members_unallocated σ (nextSet σ)).
    + rewrite decide_False by (by intros [_ ?]).
      rewrite lookup_insert_ne by done.
      destruct (T !! k) as [s'|] eqn:Hk'; [|done].
      rewrite Hmem. rewrite decide_False; [done|]. intros ->.
      destruct Hs as [Hs|[_ ->]].
      * by destruct (Hf2 _ _ _ _ _ _ _ HT Hk' HT Hs).
      * pose proof (Hf1 _ _ _ _ HT Hk'). lia.
  - rewrite decide_False by (by intros [? _]).
    rewrite lookup_insert_ne by done.
    destruct (connectionStore σ !! t) as [T'|] eqn:HT'; [|done]. simpl.
    destruct (T' !! k) as [s'|] eqn:Hk'; [|done].
    rewrite Hmem. rewrite decide_False; [done|]. intros ->.
    destruct Hs as [Hs|[_ ->]].
    + by destruct (Hf2 _ _ _ _ _ _ _ HT' Hk' HT Hs).
    + pose proof (Hf1 _ _ _ _ HT' Hk'). lia.
Qed.


(** X4.  [registerRunningReaction].  With no reaction running
    nothing is registered.  With a reaction running and no store entry for
    the target the lookup raises.  Otherwise the running reaction is added
    to the subscribers of the one key the operation is registered under
    ([ITERATION_KEY] for type iterate), every other subscriber list, the
    heap, the registry and the stack are as before, and registering the
    same operation again changes nothing. *)
Theorem registration_exact (σ : state) (op : Operation) :
  store_inv σ →
  (getRunningReaction σ = None → registerRunningReaction op σ = Done () σ)
  ∧ (∀ r, getRunningReaction σ = Some r →
          connectionStore σ !! op_target op = None →
          registerRunningReaction op σ = Thrown TypeError σ)
  ∧ (∀ r, getRunningReaction σ = Some r →
          is_Some (connectionStore σ !! op_target op) →
          ∃ σ', registerRunningReaction op σ = Done () σ'
            ∧ (∀ t k, subscribers σ' t k
                      = if decide (t = op_target op ∧ k = registration_key op)
                        then set_add r (subscribers σ t k)
                        else subscribers σ t k)
            ∧ frame σ' = frame σ
            ∧ reactionStack σ' = reactionStack σ
            ∧ registerRunningReaction op σ' = Done () σ'
            ∧ store_inv σ').
Proof.
  intros Hinv. split_and!.
  - intros Hnone. unfold registerRunningReaction. by rewrite Hnone.
  - intros r Hr Hnone. unfold registerRunningReaction. rewrite Hr.
    unfold registerReactionForOperation. by rewrite Hnone.
  - intros r Hr [T HT]. unfold registerRunningReaction at 1. rewrite Hr.
    destruct (registerReactionForOperation_subscribers r op σ T Hinv Hr HT)
      as (σ' & Hreg & Hsub & Hinv').
    pose proof (registerReactionForOperation_frame r op σ) as Hfr.
    rewrite Hreg in Hfr. simpl in Hfr. destruct Hfr as (Hf & Hst & _).
    exists σ'. split_and!; try done.
    unfold registerRunningReaction, getRunningReaction. rewrite Hst.
    unfold getRunningReaction in Hr. rewrite Hr.
    by eapply registerReactionForOperation_idemp.
Qed.

Lemma subscribers_releaseReaction r σ t k :
  store_wf σ →
  subscribers (releaseReaction r σ) t k = set_delete r (subscribers σ t k).
Proof.
  intros Hwf. destruct (releaseReaction_frame r σ) as (_ & _ & _ & _ & Hc).
  unfold subscribers. rewrite Hc.
  destruct (connectionStore σ !! t ≫= λ T, T !! k) as [s|]; [|done].
  by apply members_releaseReaction_delete.
Qed.

Lemma subscribers_enter r σ t k :
  store_wf σ →
  subscribers (enter r σ) t k = set_delete r (subscribers σ t k).
Proof. intros Hwf. by rewrite <- subscribers_releaseReaction. Qed.

(** X5.  [releaseReaction] removes the reaction from every
    subscriber list and leaves the other subscribers in place and in
    order; the [cleaners] of the reaction are emptied, its function and its
    stopped flag are kept, no other reaction is touched, and releasing
    twice is releasing once. *)
Theorem releaseReaction_exact (σ : state) (r : rid) :
  store_inv σ →
  (∀ t k, subscribers (releaseReaction r σ) t k
          = set_delete r (subscribers σ t k))
  ∧ (∀ R, reactions σ !! r = Some R →
          reactions (releaseReaction r σ) !! r
          = Some (mkReaction (fn R) (Some []) (unobserved R)))
  ∧ (∀ x, x ≠ r → reactions (releaseReaction r σ) !! x = reactions σ !! x)
  ∧ releaseReaction r (releaseReaction r σ) = releaseReaction r σ
  ∧ store_inv (releaseReaction r σ).
Proof.
  intros Hinv. pose proof Hinv as (Hwf & _).
  destruct (releaseReaction_frame r σ) as (_ & _ & _ & _ & Hc).
  split_and!.
  - intros t k. by apply subscribers_releaseReaction.
  - intros R HR. rewrite (reactions_releaseReaction _ _ _ HR).
    apply lookup_insert_eq.
  - apply releaseReaction_others.
  - destruct (reactions σ !! r) as [[f cl u]|] eqn:HR.
    + unfold releaseReaction at 1.
      rewrite (reactions_releaseReaction _ _ _ HR), lookup_insert_eq.
      simpl. unfold with_reactions. simpl.
      rewrite (reactions_releaseReaction _ _ _ HR). simpl.
      rewrite insert_insert_eq.
      unfold releaseReaction. rewrite HR. by destruct cl.
    + unfold releaseReaction. rewrite HR. by rewrite HR.
  - by apply releaseReaction_store_inv.
Qed.

(** X6.  In every state that a run of user code ends in, a Set
    of the store holds no reaction twice, and the [cleaners] of a reaction
    list exactly the Sets the reaction is a member of, each once: nothing
    that [releaseReaction] has to clean is missing from the list. *)
Theorem cleaners_are_memberships (fuel : nat) (p : prog) (σ : state) :
  store_inv σ →
  after (exec fuel p σ)
    (λ σ', (∀ s, NoDup (members σ' s))
           ∧ ∀ r R cl, reactions σ' !! r = Some R → cleaners R = Some cl →
               NoDup cl ∧ ∀ s, s ∈ cl ↔ r ∈ members σ' s).
Proof.
  intros Hinv. eapply after_mono; [|by apply exec_store_inv].
  intros σ' ((Hw1 & _) & _ & [He1 He2]). split; [done|].
  intros r R cl HR Hcl. destruct (He2 _ _ _ HR Hcl) as [Hnd Hall].
  split; [done|]. intros s. split.
  - intros Hs. by destruct (Hall _ Hs).
  - intros Hin. destruct (Hw1 _ _ Hin) as (R' & cl' & HR' & Hcl' & Hs).
    congruence.
Qed.

Lemma reactions_persist_refl σ : reactions_persist σ σ.
Proof. split; [done|]. intros r R HR. exists R. done. Qed.

Lemma reactions_persist_trans σ1 σ2 σ3 :
  reactions_persist σ1 σ2 → reactions_persist σ2 σ3 →
  reactions_persist σ1 σ3.
Proof.
  intros [Hn1 H1] [Hn2 H2]. split; [lia|]. intros r R HR.
  destruct (H1 _ _ HR) as (R' & HR' & Hf' & Hu' & Hc').
  destruct (H2 _ _ HR') as (R'' & HR'' & Hf'' & Hu'' & Hc'').
  exists R''. split_and!; [done|congruence|auto|auto].
Qed.

Lemma reactions_persist_same σ σ' :
  reactions σ' = reactions σ → nextRid σ' = nextRid σ →
  reactions_persist σ σ'.
Proof.
  intros Hr Hn. split; [lia|]. intros r R HR. exists R. by rewrite Hr.
Qed.

Lemma reactions_persist_insert σ σ' r f cl u cl' u' :
  nextRid σ' = nextRid σ →
  reactions σ !! r = Some (mkReaction f cl u) →
  reactions σ' = <[r := mkReaction f cl' u']> (reactions σ) →
  (u = true → u' = true) → (is_Some cl → is_Some cl') →
  reactions_persist σ σ'.
Proof.
  intros Hn HR Hr Hu Hc. split; [lia|]. intros x R Hx. rewrite Hr.
  destruct (decide (x = r)) as [->|Hne].
  - rewrite lookup_insert_eq. rewrite HR in Hx. injection Hx as <-.
    eexists. split; [done|]. done.
  - rewrite lookup_insert_ne by done. exists R. done.
Qed.

Lemma releaseReaction_persist r σ : reactions_persist σ (releaseReaction r σ).
Proof.
  destruct (releaseReaction_frame r σ) as (_ & _ & Hn & _).
  destruct (reactions σ !! r) as [[f cl u]|] eqn:HR.
  - apply (reactions_persist_insert σ _ r f cl u (Some []) u);
      [done|exact HR| |done|by eauto].
    by rewrite (reactions_releaseReaction _ _ _ HR).
  - unfold releaseReaction. rewrite HR. apply reactions_persist_refl.
Qed.

Lemma unobserve_persist r σ : reactions_persist σ (unobserve r σ).
Proof.
  unfold unobserve.
  destruct (reactions σ !! r) as [[f cl []]|] eqn:HR;
    try apply reactions_persist_refl.
  eapply reactions_persist_trans; [|apply releaseReaction_persist].
  by apply (reactions_persist_insert σ _ r f cl false cl true).
Qed.

Lemma registerReactionForOperation_persist r op σ :
  after (registerReactionForOperation r op σ) (reactions_persist σ).
Proof.
  unfold registerReactionForOperation.
  destruct (connectionStore σ !! op_target op) as [T|];
    [|apply reactions_persist_refl].
  unfold reactionsForKey_of.
  destruct (T !! _) as [s|]; simpl.
  all: case_bool_decide; simpl; [by apply reactions_persist_same|].
  all: unfold cleaners_push; simpl.
  all: destruct (reactions σ !! r) as [[f [cl|] u]|] eqn:HR; simpl.
  all: try (by apply reactions_persist_same).
  all: eapply (reactions_persist_insert _ _ r f (Some cl) u (Some _) u);
    [done|exact HR|simpl; reflexivity|done|by eauto].
Qed.

(** Every run keeps the reactions there are. *)
Lemma exec_reactions_persist fuel p σ :
  store_wf σ → after (exec fuel p σ) (reactions_persist σ).
Proof.
  intros Hwf.
  pose (Rel := λ σ σ' : state,
          store_wf σ → store_wf σ' ∧ reactions_persist σ σ').
  assert (Hsame : ∀ σ1 σ2, core σ2 = core σ1 → Rel σ1 σ2).
  { intros σ1 σ2 Hc Hw. split; [by eapply store_wf_core|].
    unfold core in Hc. injection Hc as _ Hr _ Hn.
    by apply reactions_persist_same. }
  assert (Htrans : ∀ σ1 σ2 σ3, Rel σ1 σ2 → Rel σ2 σ3 → Rel σ1 σ3).
  { intros σ1 σ2 σ3 H12 H23 Hw. destruct (H12 Hw) as [Hw2 Hp2].
    destruct (H23 Hw2) as [Hw3 Hp3]. split; [done|].
    by eapply reactions_persist_trans. }
  eapply after_mono; [|apply (exec_respects Rel)].
  - intros σ' H. by apply H.
  - intros σ0 Hw. split; [done|apply reactions_persist_refl].
  - exact Htrans.
  - intros σ0 o d. by apply Hsame.
  - intros c d σ0. simpl. by apply Hsame.
  - intros σ0 o. apply Hsame. unfold core.
    by destruct (reactive_core o σ0) as (-> & -> & -> & -> & _).
  - intros σ0 r op Hlast.
    pose proof (registerReactionForOperation_wf r op σ0) as H1.
    pose proof (registerReactionForOperation_persist r op σ0) as H2.
    destruct (registerReactionForOperation r op σ0); simpl in *; try done.
    all: intros Hw; split; auto.
  - intros σ0 r R σ' HR _ _ Hrel Hw.
    destruct (Hrel (enter_wf _ _ _ Hw HR)) as [Hw' Hp'].
    split; [by apply stack_pop_wf|].
    eapply reactions_persist_trans; [apply (releaseReaction_persist r)|].
    eapply reactions_persist_trans; [|by apply reactions_persist_same].
    destruct Hp' as [Hn' Hp']. split; [exact Hn'|exact Hp'].
  - intros σ0 r Hw. split; [by apply unobserve_wf|apply unobserve_persist].
  - intros σ0 f Hw. split; [by apply new_reaction_wf|].
    split; [simpl; lia|]. intros x R HR. exists R. split; [|done]. simpl.
    rewrite lookup_insert_ne; [done|]. intros <-.
    destruct Hw as (_ & _ & H3).
    assert (nextRid σ0 < nextRid σ0)%nat by (apply H3; eauto). lia.
  - intros σ0 op rs σ' _ HL.
    refine (Loop_simple _ _ _ _ op rs σ0 σ' HL);
      [|exact Htrans|].
    + intros σ1 Hw. split; [done|apply reactions_persist_refl].
    + intros σ1 r o. by apply Hsame.
Qed.

(** X7.  Across any run of user code a reaction is never removed,
    its function is never replaced, a reaction that was stopped by
    [unobserve] stays stopped, and [cleaners], once assigned, stay
    assigned. *)
Theorem reactions_are_kept (fuel : nat) (p : prog) (σ : state) :
  store_wf σ →
  after (exec fuel p σ)
    (λ σ', ∀ r R, reactions σ !! r = Some R →
       ∃ R', reactions σ' !! r = Some R' ∧ fn R' = fn R
         ∧ (unobserved R = true → unobserved R' = true)
         ∧ (is_Some (cleaners R) → is_Some (cleaners R'))).
Proof.
  intros Hwf. eapply after_mono; [|by apply exec_reactions_persist].
  by intros σ' [_ H].
Qed.

Lemma stack_pop_push r σ σ' :
  reactionStack σ' = reactionStack σ ++ [r] →
  reactionStack (stack_pop σ') = reactionStack σ.
Proof.
  intros Hb. unfold stack_pop. simpl. rewrite Hb, length_app. simpl.
  replace (Nat.pred (length (reactionStack σ) + 1))
    with (length (reactionStack σ)) by lia.
  by rewrite take_app_length.
Qed.

Lemma reactionStack_enter r σ :
  reactionStack (enter r σ) = reactionStack σ ++ [r].
Proof.
  unfold enter, stack_push. simpl.
  by destruct (releaseReaction_frame r σ) as (_ & -> & _).
Qed.

(** [observe] runs the new reaction in [enter r (new_reaction f σ)]. *)
Lemma observe_eq (apply_fn : prog → M value) (f : option Operation → prog)
    (σ : state) :
  store_wf σ →
  let r := nextRid σ in
  let σ0 := enter r (new_reaction f σ) in
  observe apply_fn f σ
  = match apply_fn (f None) σ0 with
    | Done _ σ' => Done r (stack_pop σ')
    | Thrown e σ' => Thrown e (stack_pop σ')
    | Stuck w => Stuck w
    end.
Proof.
  intros Hwf r σ0.
  assert (HR : reactions (new_reaction f σ) !! r = Some (mkReaction f None false)).
  { simpl. apply lookup_insert_eq. }
  assert (Hidle : r ∉ reactionStack (new_reaction f σ)).
  { simpl. intros Hin. destruct Hwf as (_ & H2 & H3).
    destruct (H2 _ Hin) as (R & cl & HR' & _).
    assert (r < nextRid σ)%nat by (apply H3; eauto). unfold r in *. lia. }
  unfold observe, bind, runReactionWrap, isRunning. cbv beta zeta.
  fold r. rewrite HR. cbn [unobserved fn].
  rewrite bool_decide_eq_false_2 by done.
  fold (enter r (new_reaction f σ)). fold σ0.
  by destruct (apply_fn (f None) σ0).
Qed.

(** X8.  [observe] creates a reaction with a fresh identity and
    calls it at once, with no operation: the function runs with the new
    reaction on top of the stack and subscribed to nothing, on the heap and
    registry as they were.  An exception of the first run reaches the
    caller of [observe].  Either way the stack is afterwards what it was
    and the reaction exists, with its function and with [cleaners]
    assigned. *)
Theorem observe_first_run (fuel : nat) (f : option Operation → prog)
    (σ : state) :
  store_wf σ →
  let r := nextRid σ in
  let σ0 := enter r (new_reaction f σ) in
  observe (exec fuel) f σ
  = match exec fuel (f None) σ0 with
    | Done _ σ' => Done r (stack_pop σ')
    | Thrown e σ' => Thrown e (stack_pop σ')
    | Stuck w => Stuck w
    end
  ∧ getRunningReaction σ0 = Some r
  ∧ (∀ s, r ∉ members σ0 s)
  ∧ frame σ0 = frame σ
  ∧ after (observe (exec fuel) f σ)
      (λ σ', reactionStack σ' = reactionStack σ
             ∧ (nextRid σ < nextRid σ')%nat
             ∧ ∃ R, reactions σ' !! r = Some R ∧ fn R = f
                    ∧ is_Some (cleaners R)).
Proof.
  intros Hwf r σ0.
  assert (HR : reactions (new_reaction f σ) !! r = Some (mkReaction f None false)).
  { simpl. apply lookup_insert_eq. }
  pose proof (observe_eq (exec fuel) f σ Hwf) as Heq.
  cbv zeta in Heq. fold r in Heq. fold σ0 in Heq.
  pose proof (new_reaction_wf f σ Hwf) as Hwf1.
  pose proof (enter_wf _ _ _ Hwf1 HR) as Hwf0. fold σ0 in Hwf0.
  split_and!.
  - exact Heq.
  - unfold σ0, getRunningReaction. rewrite reactionStack_enter.
    apply last_snoc.
  - intros s. unfold σ0. rewrite members_enter.
    by eapply releaseReaction_clears.
  - unfold σ0, enter. by destruct (releaseReaction_frame r (new_reaction f σ)).
  - rewrite Heq.
    pose proof (exec_stack fuel (f None) σ0) as Hst.
    pose proof (exec_reactions_persist fuel (f None) σ0 Hwf0) as Hp.
    assert (HR0 : reactions σ0 !! r = Some (mkReaction f (Some []) false)).
    { unfold σ0, enter. simpl.
      rewrite (reactions_releaseReaction _ _ _ HR). apply lookup_insert_eq. }
    assert (Hn0 : nextRid σ0 = S (nextRid σ)).
    { unfold σ0, enter. simpl.
      by destruct (releaseReaction_frame r (new_reaction f σ)) as (_ & _ & -> & _). }
    assert (Hs0 : reactionStack σ0 = reactionStack σ ++ [r]).
    { unfold σ0. by rewrite reactionStack_enter. }
    destruct (exec fuel (f None) σ0) as [v σ'|e σ'|w];
      unfold after in Hst, Hp |- *; [..|done].
    all: destruct Hp as [Hn Hp];
      destruct (Hp _ _ HR0) as (R' & HR' & Hf' & _ & Hc').
    all: split_and!;
      [ apply (stack_pop_push r); by rewrite Hst
      | rewrite Hn0 in Hn; simpl; lia
      | exists R'; split_and!; [done|done|apply Hc'; by eauto] ].
Qed.

(** ** Reads and writes through a plain-object wrapper *)

(** What a write through a plain-object wrapper comes to. *)
Lemma do_set_base (apply_fn : prog → M value) σ p t ps k v :
  heap σ !! p = Some (OProxy t baseHandlers) →
  raw_data σ t = Some (DProps ps) →
  do_set apply_fn p k v σ
  = ((if negb (bool_decide (is_Some (assoc k ps))) then
        queueReactionsForOperation apply_fn
          (op_trap OpAdd t (SKProp k) (Some p) (Some (stored σ v)) None)
      else if negb (strict_eq (default VUndefined (assoc k ps))
                      (stored σ v)) then
        queueReactionsForOperation apply_fn
          (op_trap OpSet t (SKProp k) (Some p) (Some (stored σ v))
             (Some (default VUndefined (assoc k ps))))
      else ret ()) >> ret v)
      (write_data t (DProps (assoc_set k (stored σ v) ps)) σ).
Proof.
  intros Hp Ht. unfold do_set. rewrite Hp.
  unfold baseHandlers_set, bind, gets, hasOwnProperty, Reflect_get,
    Reflect_set. fold (stored σ v). repeat (rewrite Ht; simpl).
  by match goal with
     | |- match match ?m with _ => _ end with _ => _ end = _ => destruct m
     end.
Qed.

Lemma foldl_set_add_nil (ms : list rid) :
  NoDup ms → foldl (λ acc r, set_add r acc) [] ms = ms.
Proof.
  intros Hnd.
  assert (H : ∀ acc, NoDup (acc ++ ms) →
            foldl (λ acc r, set_add r acc) acc ms = acc ++ ms).
  { clear Hnd. induction ms as [|m ms IH]; intros acc Hacc; simpl.
    - by rewrite app_nil_r.
    - unfold set_add at 2. rewrite bool_decide_eq_false_2.
      + rewrite IH.
        * by rewrite <- app_assoc.
        * by rewrite <- app_assoc.
      + apply NoDup_app in Hacc as (_ & Hd & _). intros Hin.
        apply (Hd _ Hin). left. }
  by apply (H []).
Qed.

(** The reactions that an operation which is not structural reaches are
    the subscribers of its key, in the order they subscribed. *)
Lemma getReactionsForOperation_plain σ op T :
  store_inv σ → connectionStore σ !! op_target op = Some T →
  structural (op_type op) = false →
  getReactionsForOperation σ op
  = Some (subscribers σ (op_target op) (key_of (op_key op))).
Proof.
  intros (_ & _ & [Hnd _]) HT Hs. unfold getReactionsForOperation, subscribers.
  rewrite HT, Hs. simpl. unfold addReactionsForKey.
  destruct (T !! key_of (op_key op)) as [s|]; [|done].
  by rewrite foldl_set_add_nil.
Qed.

(** A write of a different value to an existing key of a plain object
    comes to calling the subscribers of the key. *)
Lemma do_set_queues (apply_fn : prog → M value) σ p t ps k v old T :
  store_inv σ →
  heap σ !! p = Some (OProxy t baseHandlers) →
  raw_data σ t = Some (DProps ps) →
  connectionStore σ !! t = Some T →
  assoc k ps = Some old → strict_eq old (stored σ v) = false →
  let op := op_trap OpSet t (SKProp k) (Some p) (Some (stored σ v))
              (Some old) in
  let σw := write_data t (DProps (assoc_set k (stored σ v) ps)) σ in
  do_set apply_fn p k v σ
  = (forEach_reaction apply_fn (subscribers σ t (SKProp k)) op >> ret v) σw.
Proof.
  intros Hinv Hp Ht HT Hk Hne op σw.
  assert (Hinvw : store_inv σw) by by apply (store_inv_same σ).
  rewrite (do_set_base _ _ _ _ _ _ _ Hp Ht), Hk. simpl. rewrite Hne. simpl.
  fold op σw. unfold bind, queueReactionsForOperation.
  by rewrite (getReactionsForOperation_plain σw op T).
Qed.

(** Calling the one reaction of a list. *)
Lemma forEach_reaction_single (apply_fn : prog → M value) r R op σ :
  reactions σ !! r = Some R → unobserved R = false →
  r ∉ reactionStack σ →
  forEach_reaction apply_fn [r] op σ
  = match apply_fn (fn R (Some op)) (enter r (log r op σ)) with
    | Done _ σ' => Done () (stack_pop σ')
    | Thrown e σ' => Thrown e (stack_pop σ')
    | Stuck w => Stuck w
    end.
Proof.
  intros HR HU Hidle. simpl.
  unfold bind, modify, runReactionWrap, isRunning.
  simpl. rewrite HR, HU. rewrite bool_decide_eq_false_2 by done.
  fold (enter r (log r op σ)).
  by destruct (apply_fn (fn R (Some op)) (enter r (log r op σ))).
Qed.

(** X9.  A write, through a plain-object wrapper, of a different
    value to an existing key stores the value and then calls the
    subscribers of that key, in the order in which they subscribed, with
    an operation of type set.  With no subscriber the write returns at
    once.  With one subscriber that is neither stopped nor running, the
    function of that reaction runs once, after the write, with the reaction
    on top of the stack and its subscription to the key released; its
    result or exception is what the write comes to.  With one subscriber
    that is the reaction now running, the call returns at once and the
    function is not entered again. *)
Theorem tracked_write_reruns (fuel : nat) (σ : state) (p t : loc)
    (ps : list (PropertyKey * value)) (k : PropertyKey) (v old : value) :
  store_inv σ →
  heap σ !! p = Some (OProxy t baseHandlers) →
  raw_data σ t = Some (DProps ps) →
  is_Some (connectionStore σ !! t) →
  assoc k ps = Some old → strict_eq old (stored σ v) = false →
  let op := op_trap OpSet t (SKProp k) (Some p) (Some (stored σ v))
              (Some old) in
  let σw := write_data t (DProps (assoc_set k (stored σ v) ps)) σ in
  do_set (exec fuel) p k v σ
  = (forEach_reaction (exec fuel) (subscribers σ t (SKProp k)) op >> ret v) σw
  ∧ (subscribers σ t (SKProp k) = [] →
     do_set (exec fuel) p k v σ = Done v σw)
  ∧ (∀ r R, subscribers σ t (SKProp k) = [r] →
       reactions σ !! r = Some R → unobserved R = false →
       r ∉ reactionStack σ →
       let σ0 := enter r (log r op σw) in
       do_set (exec fuel) p k v σ
       = match exec fuel (fn R (Some op)) σ0 with
         | Done _ σ' => Done v (stack_pop σ')
         | Thrown e σ' => Thrown e (stack_pop σ')
         | Stuck w => Stuck w
         end
       ∧ raw_data σ0 t = Some (DProps (assoc_set k (stored σ v) ps))
       ∧ getRunningReaction σ0 = Some r
       ∧ subscribers σ0 t (SKProp k) = [])
  ∧ (∀ r R, subscribers σ t (SKProp k) = [r] →
       reactions σ !! r = Some R → unobserved R = false →
       r ∈ reactionStack σ →
       do_set (exec fuel) p k v σ = Done v (log r op σw)).
Proof.
  intros Hinv Hp Ht [T HT] Hk Hne op σw.
  pose proof (do_set_queues (exec fuel) σ p t ps k v old T
                Hinv Hp Ht HT Hk Hne) as Hset.
  cbv zeta in Hset. fold op σw in Hset.
  split_and!.
  - exact Hset.
  - intros Hs. rewrite Hset, Hs. done.
  - intros r R Hs HR HU Hidle σ0. split_and!.
    + rewrite Hset, Hs. unfold bind.
      rewrite (forEach_reaction_single _ r R op σw) by done. fold σ0.
      by destruct (exec fuel (fn R (Some op)) σ0).
    + unfold σ0, enter, raw_data. simpl.
      destruct (releaseReaction_frame r (log r op σw)) as (Hf & _).
      unfold frame in Hf. injection Hf as -> _ _ _. simpl.
      apply raw_data_heap in Ht as [c Hc]. by rewrite lookup_alter_eq, Hc.
    + unfold σ0, getRunningReaction. rewrite reactionStack_enter.
      apply last_snoc.
    + unfold σ0. rewrite subscribers_enter.
      * change (subscribers (log r op σw) t (SKProp k))
          with (subscribers σ t (SKProp k)). rewrite Hs.
        unfold set_delete. rewrite filter_cons, decide_False by (by intros ?).
        done.
      * eapply store_wf_core; [|apply Hinv]. done.
  - intros r R Hs HR HU Hrun. rewrite Hset, Hs. simpl.
    unfold bind, modify, runReactionWrap, isRunning. simpl.
    rewrite HR, HU. by rewrite bool_decide_eq_true_2.
Qed.

Lemma consistent_empty : consistent empty_state.
Proof. split; [apply registry_inv_empty|apply store_inv_empty]. Qed.

Lemma exec_consistent fuel p σ :
  consistent σ → after (exec fuel p σ) consistent.
Proof.
  intros [Hr Hs].
  pose proof (exec_registry_inv fuel p σ Hr) as H1.
  pose proof (exec_store_inv fuel p σ Hs) as H2.
  destruct (exec fuel p σ); simpl in *; [..|done].
  all: by destruct H1.
Qed.

Lemma consistent_state_of fuel p :
  consistent (state_of (exec fuel p empty_state)).
Proof.
  split; [apply registry_inv_state_of|apply store_inv_state_of].
Qed.

Lemma registry_inv_frame σ σ' :
  frame σ' = frame σ →
  (∀ o, is_Some (connectionStore σ !! o) → is_Some (connectionStore σ' !! o)) →
  registry_inv σ → registry_inv σ'.
Proof.
  intros Hf Hc [Hw Ht]. split; [by eapply registry_wf_frame|].
  by eapply tracked_frame.
Qed.

(** Registering the running reaction for a target that has a store
    entry. *)
Lemma registerRunningReaction_Done op σ :
  consistent σ → is_Some (connectionStore σ !! op_target op) →
  ∃ σ1, registerRunningReaction op σ = Done () σ1
    ∧ consistent σ1 ∧ frame σ1 = frame σ
    ∧ reactionStack σ1 = reactionStack σ
    ∧ (∀ o, is_Some (connectionStore σ !! o) →
            is_Some (connectionStore σ1 !! o))
    ∧ (reactionStack σ = [] → σ1 = σ).
Proof.
  intros [Hr Hs] [T HT]. unfold registerRunningReaction.
  destruct (getRunningReaction σ) as [r|] eqn:Hrun.
  - destruct (registerReactionForOperation_Done r op σ T Hs Hrun HT)
      as (σ1 & s & Hreg & _ & _ & _ & _ & _ & Hs1).
    pose proof (registerReactionForOperation_frame r op σ) as Hf.
    pose proof (registerReactionForOperation_store r op σ) as Hc.
    rewrite Hreg in Hf, Hc. simpl in Hf, Hc. destruct Hf as (Hf & Hst & _).
    exists σ1. split_and!; try done.
    + split; [|done]. by eapply registry_inv_frame.
    + intros Hnil. unfold getRunningReaction in Hrun. by rewrite Hnil in Hrun.
  - exists σ. split_and!; done.
Qed.

Lemma frame_heap σ σ' : frame σ' = frame σ → heap σ' = heap σ.
Proof. unfold frame. by intros [= -> _ _ _]. Qed.

Lemma frame_raw_data σ σ' t :
  frame σ' = frame σ → raw_data σ' t = raw_data σ t.
Proof. intros Hf. unfold raw_data. by rewrite (frame_heap _ _ Hf). Qed.

Lemma frame_rawToProxy σ σ' : frame σ' = frame σ → rawToProxy σ' = rawToProxy σ.
Proof. unfold frame. by intros [= _ -> _ _]. Qed.

Lemma frame_constructor_of σ σ' o :
  frame σ' = frame σ → constructor_of σ' o = constructor_of σ o.
Proof. intros Hf. unfold constructor_of. by rewrite (frame_heap _ _ Hf). Qed.

Lemma reactive_consistent o σ : consistent σ → consistent (reactive o σ).2.
Proof.
  intros [[Hw Ht] Hs]. split; [split|].
  - by apply reactive_wf.
  - by apply reactive_tracked.
  - by apply reactive_store_inv.
Qed.

(** One read of a nested object through a plain-object wrapper. *)
Lemma nested_read σ p t l ps k c :
  consistent σ →
  heap σ !! p = Some (OProxy t baseHandlers) →
  is_Some (connectionStore σ !! t) →
  raw_data σ t = Some (DProps ps) →
  (∀ s, k ≠ PSym s) →
  assoc k ps = Some (VObj l) →
  constructor_of σ l = Some c → shouldInstrument c = true →
  ∃ w σ', do_get p k σ = Done (VObj w) σ'
    ∧ consistent σ'
    ∧ rawToProxy σ' !! l = Some w
    ∧ (∀ w0, rawToProxy σ !! l = Some w0 → w = w0 ∧ frame σ' = frame σ)
    ∧ (rawToProxy σ !! l = None →
       w = nextLoc σ ∧ heap σ' !! w = Some (OProxy l (getHandlers c)))
    ∧ heap σ' !! p = Some (OProxy t baseHandlers)
    ∧ is_Some (connectionStore σ' !! t)
    ∧ raw_data σ' t = Some (DProps ps)
    ∧ constructor_of σ' l = Some c.
Proof.
  intros Hcons Hp Hcs Ht Hk Hl Hc Hi.
  destruct (registerRunningReaction_Done
              (op_trap OpGet t (SKProp k) (Some p) None None) σ Hcons Hcs)
    as (σ1 & Hreg & Hcons1 & Hf & Hst & Hmono & _).
  assert (Hget : do_get p k σ
    = match rawToProxy σ1 !! l with
      | Some w => Done (VObj w) σ1
      | None => let '(w, σ') := reactive l σ1 in Done (VObj w) σ'
      end).
  { unfold do_get. rewrite Hp. unfold baseHandlers_get, bind at 1.
    unfold Reflect_get. rewrite Ht. simpl. rewrite Hl. simpl.
    destruct k as [s|i|s]; [..|by destruct (Hk s)].
    all: unfold bind; by rewrite Hreg. }
  rewrite Hget. rewrite (frame_rawToProxy _ _ Hf).
  destruct (rawToProxy σ !! l) as [w0|] eqn:Hw0.
  - exists w0, σ1. split_and!; try done.
    + by rewrite (frame_rawToProxy _ _ Hf).
    + by intros w [= <-].
    + by rewrite (frame_heap _ _ Hf).
    + by apply Hmono.
    + by rewrite (frame_raw_data _ _ _ Hf).
    + by rewrite (frame_constructor_of _ _ _ Hf).
  - pose proof Hcons1 as [[Hwf1 _] _].
    assert (Hc1 : constructor_of σ1 l = Some c)
      by by rewrite (frame_constructor_of _ _ _ Hf).
    assert (Hr1 : rawToProxy σ1 !! l = None)
      by by rewrite (frame_rawToProxy _ _ Hf).
    pose proof (reactive_consistent l σ1 Hcons1) as Hcons'.
    assert (Hreact : reactive l σ1 = createReactive l c σ1).
    { unfold reactive. rewrite (wrapper_not_raw _ _ _ Hwf1 Hc1), Hc1, Hi, Hr1.
      done. }
    rewrite Hreact in Hcons' |- *. unfold createReactive.
    assert (Hn : nextLoc σ1 = nextLoc σ).
    { unfold frame in Hf. by injection Hf. }
    assert (Hfresh : ∀ x, is_Some (heap σ1 !! x) → x ≠ nextLoc σ1).
    { intros x Hx. by eapply heap_fresh. }
    eexists _, _. split; [reflexivity|]. split_and!; try done.
    + simpl. apply lookup_insert_eq.
    + simpl. rewrite lookup_insert_eq. by rewrite Hn.
    + simpl. rewrite lookup_insert_ne.
      * by rewrite (frame_heap _ _ Hf).
      * intros Heq. apply (Hfresh p); [|done].
        rewrite (frame_heap _ _ Hf). eauto.
    + simpl. rewrite lookup_insert_is_Some.
      destruct (decide (l = t)); [by left|right]. split; [done|].
      by apply Hmono.
    + unfold raw_data. simpl. rewrite lookup_insert_ne.
      * fold (raw_data σ1 t). by rewrite (frame_raw_data _ _ _ Hf).
      * intros Heq. apply (Hfresh t); [|done].
        rewrite (frame_heap _ _ Hf). apply raw_data_heap in Ht as [? ->]. eauto.
    + unfold constructor_of. simpl. rewrite lookup_insert_ne.
      * done.
      * intros Heq. apply (Hfresh l); [|done].
        by eapply constructor_of_heap.
Qed.

(** X10.  Reading, through a plain-object wrapper, a property that
    holds a raw object which [shouldInstrument] accepts returns the wrapper
    of that object, inside or outside of a reaction: the wrapper it has, or
    else a new proxy with the handlers of its constructor, which is then
    registered.  The object read from is left as it is, and a second read
    returns the same wrapper and leaves the heap and the registry alone. *)
Theorem nested_read_wraps (σ : state) (p t l : loc)
    (ps : list (PropertyKey * value)) (k : PropertyKey) (c : Ctor) :
  consistent σ →
  heap σ !! p = Some (OProxy t baseHandlers) →
  is_Some (connectionStore σ !! t) →
  raw_data σ t = Some (DProps ps) →
  (∀ s, k ≠ PSym s) →
  assoc k ps = Some (VObj l) →
  constructor_of σ l = Some c → shouldInstrument c = true →
  ∃ w σ', do_get p k σ = Done (VObj w) σ'
    ∧ rawToProxy σ' !! l = Some w ∧ proxyToRaw σ' !! w = Some l
    ∧ heap σ' !! w = Some (OProxy l (getHandlers c))
    ∧ raw_data σ' t = Some (DProps ps)
    ∧ (∀ w0, rawToProxy σ !! l = Some w0 → w = w0)
    ∧ (rawToProxy σ !! l = None → w = nextLoc σ)
    ∧ ∃ σ'', do_get p k σ' = Done (VObj w) σ'' ∧ frame σ'' = frame σ'.
Proof.
  intros Hcons Hp Hcs Ht Hk Hl Hc Hi.
  destruct (nested_read σ p t l ps k c Hcons Hp Hcs Ht Hk Hl Hc Hi)
    as (w & σ' & Hget & Hcons' & Hw & Hold & Hnew & Hp' & Hcs' & Ht' & Hc').
  destruct (nested_read σ' p t l ps k c Hcons' Hp' Hcs' Ht' Hk Hl Hc' Hi)
    as (w' & σ'' & Hget' & _ & _ & Hold' & _).
  destruct (Hold' _ Hw) as [-> Hf'].
  destruct Hcons' as [Hr' _].
  destruct (registry_inv_pair _ _ _ Hr' Hw)
    as (Hpw & _ & _ & _ & c' & Hc'' & _ & Hh).
  assert (c' = c) as -> by congruence.
  exists w, σ'. split_and!; try done.
  - intros w0 Hw0. by destruct (Hold _ Hw0).
  - intros Hnone. by destruct (Hnew Hnone).
  - by exists σ''.
Qed.

(** X11.  Reading an element or the length through an array
    wrapper returns what the raw array holds, as it is: no wrapper is made
    for an element that is an object, the heap and the registry are
    unchanged, and outside of a reaction the whole state is unchanged. *)
Theorem array_read_is_shallow (σ : state) (p t : loc) (es : list value)
    (k : PropertyKey) (v : value) :
  consistent σ →
  heap σ !! p = Some (OProxy t arrayHandlers) →
  is_Some (connectionStore σ !! t) →
  raw_data σ t = Some (DArray es) →
  data_get (DArray es) k = Some v →
  ∃ σ', do_get p k σ = Done v σ'
    ∧ frame σ' = frame σ
    ∧ (reactionStack σ = [] → σ' = σ).
Proof.
  intros Hcons Hp Hcs Ht Hv.
  destruct (registerRunningReaction_Done
              (op_trap OpGet t (SKProp k) (Some p) None None) σ Hcons Hcs)
    as (σ1 & Hreg & _ & Hf & _ & _ & Hnil).
  unfold do_get. rewrite Hp. unfold arrayHandlers_get, bind at 1.
  unfold Reflect_get. rewrite Ht.
  change (Some (DArray es) ≫= λ d, data_get d k)
    with (data_get (DArray es) k). rewrite Hv.
  destruct k as [s|i|s]; [..|done].
  all: unfold bind; rewrite Hreg; by exists σ1.
Qed.

(** ** Maps and Sets *)

Lemma state_eq σ σ' :
  heap σ = heap σ' → rawToProxy σ = rawToProxy σ' →
  proxyToRaw σ = proxyToRaw σ' → connectionStore σ = connectionStore σ' →
  sets σ = sets σ' → reactions σ = reactions σ' →
  reactionStack σ = reactionStack σ' → nextLoc σ = nextLoc σ' →
  nextSet σ = nextSet σ' → nextRid σ = nextRid σ' →
  triggered σ = triggered σ' → σ = σ'.
Proof. destruct σ, σ'. simpl. by intros -> -> -> -> -> -> -> -> -> -> ->. Qed.

(** Writing to an object the data it has changes nothing. *)
Lemma write_data_same σ t d : raw_data σ t = Some d → write_data t d σ = σ.
Proof.
  intros [c Hc]%raw_data_heap. apply state_eq; try done. simpl.
  apply map_eq. intros l. destruct (decide (t = l)) as [<-|Hne].
  - by rewrite lookup_alter_eq, Hc.
  - by rewrite lookup_alter_ne.
Qed.

Lemma write_data_twice σ t d d' :
  write_data t d' (write_data t d σ) = write_data t d' σ.
Proof.
  apply state_eq; try done. simpl.
  apply map_eq. intros l. destruct (decide (t = l)) as [<-|Hne].
  - rewrite !lookup_alter_eq. by destruct (heap σ !! t) as [[]|].
  - by rewrite !lookup_alter_ne.
Qed.

Lemma raw_data_write_data σ t d d0 :
  raw_data σ t = Some d0 → raw_data (write_data t d σ) t = Some d.
Proof.
  intros [c Hc]%raw_data_heap. unfold raw_data. simpl.
  by rewrite lookup_alter_eq, Hc.
Qed.

(** A native method of a Map or Set that the prototype has. *)
Lemma apply_native_collection_Some m t args σ d d' v :
  raw_data σ t = Some d →
  native_collection m t args d = Some (Some (d', v)) →
  apply_native_collection m t args σ = Done v (write_data t d' σ).
Proof.
  intros Ht Hn. unfold apply_native_collection. rewrite Ht. simpl.
  by rewrite Hn.
Qed.

(** X12.  [set] through the wrapper of a Map stores the entry in
    the raw Map and returns the raw Map, not the wrapper.  For a key the
    Map does not have it publishes an operation of type add; for a key
    whose value is [===] to the new one it calls no reaction; for a key
    with a different value it publishes an operation of type set. *)
Theorem map_set_semantics (fuel : nat) (σ : state) (p t : loc)
    (es : list (value * value)) (args : list value) :
  heap σ !! p = Some (OProxy t collectionHandlers) →
  proxyToRaw σ !! p = Some t →
  raw_data σ t = Some (DMap es) →
  let key := arg args 0 in
  let val := arg args 1 in
  let σ' := write_data t (DMap (assoc_set key val es)) σ in
  (assoc key es = None →
   publishes fuel (do_method (exec fuel) p set args) σ
     (op_trap OpAdd t (SKVal key) None None None) σ' (VObj t))
  ∧ (∀ old, assoc key es = Some old → strict_eq val old = true →
       do_method (exec fuel) p set args σ = Done (VObj t) σ')
  ∧ (∀ old, assoc key es = Some old → strict_eq val old = false →
       publishes fuel (do_method (exec fuel) p set args) σ
         (op_trap OpSet t (SKVal key) None None None) σ' (VObj t)).
Proof.
  intros Hp Hpt Ht key val σ'.
  assert (Hhas : native_collection has t [key] (DMap es)
    = Some (Some (DMap es, VBool (bool_decide (is_Some (assoc key es))))))
    by done.
  assert (Hget : native_collection get t [key] (DMap es)
    = Some (Some (DMap es, default VUndefined (assoc key es)))) by done.
  assert (Hnat : native_collection set t args (DMap es)
    = Some (Some (DMap (assoc_set key val es), VObj t))) by done.
  assert (Hset : do_method (exec fuel) p set args σ
    = ((if negb (bool_decide (is_Some (assoc key es))) then
          queueReactionsForOperation (exec fuel)
            (op_trap OpAdd t (SKVal key) None None None)
        else if negb (strict_eq val (default VUndefined (assoc key es))) then
          queueReactionsForOperation (exec fuel)
            (op_trap OpSet t (SKVal key) None None None)
        else ret ()) >> ret (VObj t)) σ').
  { unfold do_method. rewrite Hp. unfold instrumentations_set.
    fold key val. unfold bind at 1. unfold this_target. rewrite Hpt.
    unfold bind at 1.
    rewrite (apply_native_collection_Some _ _ _ _ _ _ _ Ht Hhas).
    rewrite (write_data_same _ _ _ Ht).
    unfold bind at 1.
    rewrite (apply_native_collection_Some _ _ _ _ _ _ _ Ht Hget).
    rewrite (write_data_same _ _ _ Ht).
    unfold bind at 1.
    rewrite (apply_native_collection_Some _ _ _ _ _ _ _ Ht Hnat).
    fold σ'.
    destruct (assoc key es) as [old|]; simpl; [|done].
    by destruct (strict_eq val old). }
  split_and!.
  - intros Hk. apply publishes_intro; [|done]. by rewrite Hset, Hk.
  - intros old Hk Heq. rewrite Hset, Hk. simpl. by rewrite Heq.
  - intros old Hk Hne. apply publishes_intro; [|done].
    rewrite Hset, Hk. simpl. by rewrite Hne.
Qed.

(** X13.  Through the wrapper of a Set, [add] of a member
    changes nothing and calls no reaction, and [add] of a new value appends
    it, publishes an operation of type add and returns the raw Set.
    Through the wrapper of a Set or a Map, [delete] of an absent key
    returns false, changes nothing and calls no reaction, and [delete] of a
    present key removes it, publishes an operation of type delete and
    returns true. *)
Theorem set_add_delete_semantics (fuel : nat) (σ : state) (p t : loc)
    (args : list value) :
  heap σ !! p = Some (OProxy t collectionHandlers) →
  proxyToRaw σ !! p = Some t →
  let key := arg args 0 in
  (∀ ms, raw_data σ t = Some (DSet ms) →
     (key ∈ ms → do_method (exec fuel) p add args σ = Done (VObj t) σ)
     ∧ (key ∉ ms →
        publishes fuel (do_method (exec fuel) p add args) σ
          (op_trap OpAdd t (SKVal key) None None None)
          (write_data t (DSet (ms ++ [key])) σ) (VObj t))
     ∧ (key ∉ ms →
        do_method (exec fuel) p delete args σ = Done (VBool false) σ)
     ∧ (key ∈ ms →
        publishes fuel (do_method (exec fuel) p delete args) σ
          (op_trap OpDelete t (SKVal key) None None None)
          (write_data t (DSet (filter (λ x, x ≠ key) ms)) σ) (VBool true)))
  ∧ (∀ es, raw_data σ t = Some (DMap es) →
     (assoc key es = None →
      do_method (exec fuel) p delete args σ = Done (VBool false) σ)
     ∧ (is_Some (assoc key es) →
        publishes fuel (do_method (exec fuel) p delete args) σ
          (op_trap OpDelete t (SKVal key) None None None)
          (write_data t (DMap (assoc_delete key es)) σ) (VBool true))).
Proof.
  intros Hp Hpt key. split.
  - intros ms Ht.
    assert (Hhas : native_collection has t [key] (DSet ms)
      = Some (Some (DSet ms, VBool (bool_decide (key ∈ ms))))) by done.
    assert (Hadd : native_collection add t args (DSet ms)
      = Some (Some (DSet (if bool_decide (key ∈ ms) then ms else ms ++ [key]),
                    VObj t))) by done.
    assert (Hdel : native_collection delete t args (DSet ms)
      = Some (Some (DSet (filter (λ x, x ≠ key) ms),
                    VBool (bool_decide (key ∈ ms))))) by done.
    assert (Ha : do_method (exec fuel) p add args σ
      = ((if negb (bool_decide (key ∈ ms)) then
            queueReactionsForOperation (exec fuel)
              (op_trap OpAdd t (SKVal key) None None None)
          else ret ()) >> ret (VObj t))
          (write_data t
             (DSet (if bool_decide (key ∈ ms) then ms else ms ++ [key])) σ)).
    { unfold do_method. rewrite Hp. unfold instrumentations_add.
      fold key. unfold bind at 1. unfold this_target. rewrite Hpt.
      unfold bind at 1.
      rewrite (apply_native_collection_Some _ _ _ _ _ _ _ Ht Hhas).
      rewrite (write_data_same _ _ _ Ht).
      unfold bind at 1.
      rewrite (apply_native_collection_Some _ _ _ _ _ _ _ Ht Hadd).
      by destruct (bool_decide (key ∈ ms)). }
    assert (Hd : do_method (exec fuel) p delete args σ
      = ((if bool_decide (key ∈ ms) then
            queueReactionsForOperation (exec fuel)
              (op_trap OpDelete t (SKVal key) None None None)
          else ret ()) >> ret (VBool (bool_decide (key ∈ ms))))
          (write_data t (DSet (filter (λ x, x ≠ key) ms)) σ)).
    { unfold do_method. rewrite Hp. unfold instrumentations_delete.
      fold key. unfold bind at 1. unfold this_target. rewrite Hpt.
      unfold bind at 1.
      rewrite (apply_native_collection_Some _ _ _ _ _ _ _ Ht Hhas).
      rewrite (write_data_same _ _ _ Ht).
      unfold bind at 1.
      rewrite (apply_native_collection_Some _ _ _ _ _ _ _ Ht Hdel).
      by destruct (bool_decide (key ∈ ms)). }
    split_and!.
    + intros Hin. rewrite Ha. rewrite !bool_decide_eq_true_2 by done.
      simpl. unfold bind, ret. by rewrite (write_data_same _ _ _ Ht).
    + intros Hnin. apply publishes_intro; [|done].
      rewrite Ha. by rewrite !bool_decide_eq_false_2 by done.
    + intros Hnin. rewrite Hd. rewrite !bool_decide_eq_false_2 by done.
      simpl. unfold bind, ret.
      assert (Hf : filter (λ x, x ≠ key) ms = ms).
      { clear -Hnin. induction ms as [|x ms IH]; [done|].
        rewrite not_elem_of_cons in Hnin. destruct Hnin as [Hx Hms].
        rewrite filter_cons, decide_True by done. by rewrite IH. }
      by rewrite Hf, (write_data_same _ _ _ Ht).
    + intros Hin. apply publishes_intro; [|done].
      rewrite Hd. by rewrite !bool_decide_eq_true_2 by done.
  - intros es Ht.
    assert (Hhas : native_collection has t [key] (DMap es)
      = Some (Some (DMap es, VBool (bool_decide (is_Some (assoc key es))))))
      by done.
    assert (Hdel : native_collection delete t args (DMap es)
      = Some (Some (DMap (assoc_delete key es),
                    VBool (bool_decide (is_Some (assoc key es)))))) by done.
    assert (Hd : do_method (exec fuel) p delete args σ
      = ((if bool_decide (is_Some (assoc key es)) then
            queueReactionsForOperation (exec fuel)
              (op_trap OpDelete t (SKVal key) None None None)
          else ret ()) >> ret (VBool (bool_decide (is_Some (assoc key es)))))
          (write_data t (DMap (assoc_delete key es)) σ)).
    { unfold do_method. rewrite Hp. unfold instrumentations_delete.
      fold key. unfold bind at 1. unfold this_target. rewrite Hpt.
      unfold bind at 1.
      rewrite (apply_native_collection_Some _ _ _ _ _ _ _ Ht Hhas).
      rewrite (write_data_same _ _ _ Ht).
      unfold bind at 1.
      rewrite (apply_native_collection_Some _ _ _ _ _ _ _ Ht Hdel).
      by destruct (bool_decide (is_Some (assoc key es))). }
    split.
    + intros Hnone. rewrite Hd, Hnone. simpl. unfold bind, ret.
      assert (Hf : assoc_delete key es = es).
      { clear -Hnone. unfold assoc_delete.
        induction es as [|[k' v'] es IH]; [done|]. simpl in Hnone.
        destruct (decide (key = k')) as [->|Hne]; [done|].
        rewrite filter_cons. simpl. rewrite decide_True by done.
        by rewrite IH. }
      by rewrite Hf, (write_data_same _ _ _ Ht).
    + intros Hsome. apply publishes_intro; [|done].
      rewrite Hd. by rewrite !bool_decide_eq_true_2 by done.
Qed.

(** X14.  [clear] through the wrapper of a Map or a Set.  On an
    empty collection it changes nothing and calls no reaction; otherwise it
    empties the raw collection and publishes an operation of type clear,
    which has no key.  Such an operation reaches the reactions that
    subscribed under [ITERATION_KEY] and those that subscribed under the
    key [undefined], and no reaction that subscribed only under another
    key. *)
Theorem clear_semantics (fuel : nat) (σ : state) (p t : loc) (d : Data)
    (args : list value) :
  heap σ !! p = Some (OProxy t collectionHandlers) →
  proxyToRaw σ !! p = Some t →
  raw_data σ t = Some d → is_collection d = true →
  (data_size d = 0%nat →
   do_method (exec fuel) p clear args σ = Done VUndefined σ)
  ∧ (data_size d ≠ 0%nat →
     publishes fuel (do_method (exec fuel) p clear args) σ
       (operation OpClear t) (write_data t (cleared d) σ) VUndefined)
  ∧ (∀ σ0 rs,
       getReactionsForOperation σ0 (operation OpClear t) = Some rs →
       isArray σ0 t = false →
       ∀ x, x ∈ rs ↔ x ∈ subscribers σ0 t (SKVal VUndefined)
                     ∨ x ∈ subscribers σ0 t ITERATION_KEY).
Proof.
  intros Hp Hpt Ht Hd.
  assert (Hsize : collection_size t σ
                  = Done (VNum (Z.of_nat (data_size d))) σ).
  { unfold collection_size. rewrite Ht. by destruct d. }
  assert (Hnat : native_collection clear t args d
                 = Some (Some (cleared d, VUndefined))) by by destruct d.
  assert (Hc : do_method (exec fuel) p clear args σ
    = ((if negb (bool_decide (data_size d = 0%nat)) then
          queueReactionsForOperation (exec fuel) (operation OpClear t)
        else ret ()) >> ret VUndefined) (write_data t (cleared d) σ)).
  { unfold do_method. rewrite Hp. unfold instrumentations_clear.
    unfold bind at 1. unfold this_target. rewrite Hpt.
    unfold bind at 1. rewrite Hsize.
    unfold bind at 1.
    rewrite (apply_native_collection_Some _ _ _ _ _ _ _ Ht Hnat).
    destruct (decide (data_size d = 0%nat)) as [Hz|Hnz].
    - rewrite Hz. simpl. done.
    - rewrite (bool_decide_eq_false_2 (data_size d = 0%nat)) by done.
      rewrite bool_decide_eq_false_2; [done|]. intros [= Hz]. lia. }
  split_and!.
  - intros Hz. rewrite Hc, Hz. simpl. unfold bind, ret.
    assert (Hsame : cleared d = d).
    { destruct d as [|?|[|]|[|]|]; done. }
    by rewrite Hsame, (write_data_same _ _ _ Ht).
  - intros Hnz. apply publishes_intro; [|done].
    rewrite Hc. by rewrite bool_decide_eq_false_2 by done.
  - intros σ0 rs Hg Harr x.
    rewrite (elem_of_getReactionsForOperation _ _ _ _ Hg).
    rewrite !elem_of_subscribers. simpl. rewrite Harr. split.
    + intros (T & s & HT & Hx & [Hs|[_ Hs]]); [left|right]; by exists T, s.
    + intros [(T & s & HT & Hs & Hx)|(T & s & HT & Hs & Hx)];
        exists T, s; auto.
Qed.

(** X15.  A method that the prototype of the raw collection
    does not have raises a TypeError: [add] on the wrapper of a Map and
    [set] on the wrapper of a Set raise it with the state unchanged, and
    [get] on the wrapper of a Set raises it after the running reaction was
    registered for the key. *)
Theorem collection_missing_method (apply_fn : prog → M value) (σ : state)
    (p t : loc) (args : list value) :
  heap σ !! p = Some (OProxy t collectionHandlers) →
  proxyToRaw σ !! p = Some t →
  (∀ es, raw_data σ t = Some (DMap es) →
     do_method apply_fn p add args σ = Thrown TypeError σ)
  ∧ (∀ ms, raw_data σ t = Some (DSet ms) →
       do_method apply_fn p set args σ = Thrown TypeError σ
       ∧ do_method apply_fn p get args σ
         = (registerRunningReaction
              (op_trap OpGet t (SKVal (arg args 0)) None None None) >>
            throw TypeError) σ).
Proof.
  intros Hp Hpt. split.
  - intros es Ht. unfold do_method. rewrite Hp. unfold instrumentations_add.
    unfold bind at 1. unfold this_target. rewrite Hpt.
    unfold bind at 1.
    rewrite (apply_native_collection_Some has t [arg args 0] σ (DMap es)
               (DMap es)
               (VBool (bool_decide (is_Some (assoc (arg args 0) es)))) Ht)
      by done.
    rewrite (write_data_same _ _ _ Ht).
    unfold bind, apply_native_collection. by rewrite Ht.
  - intros ms Ht. split.
    + unfold do_method. rewrite Hp. unfold instrumentations_set.
      unfold bind at 1. unfold this_target. rewrite Hpt.
      unfold bind at 1.
      rewrite (apply_native_collection_Some has t [arg args 0] σ (DSet ms)
                 (DSet ms) (VBool (bool_decide (arg args 0 ∈ ms))) Ht)
        by done.
      rewrite (write_data_same _ _ _ Ht).
      unfold bind, apply_native_collection. by rewrite Ht.
    + unfold do_method. rewrite Hp. unfold instrumentations_get.
      unfold bind at 1. unfold this_target. rewrite Hpt.
      unfold bind.
      pose proof (registerReactionForOperation_frame) as Hfr.
      destruct (registerRunningReaction _ σ) as [[] σ1|e σ1|w] eqn:Hreg;
        try done.
      assert (Ht1 : raw_data σ1 t = Some (DSet ms)).
      { unfold registerRunningReaction in Hreg.
        destruct (getRunningReaction σ) as [r|]; [|by injection Hreg as <-].
        specialize (Hfr r (op_trap OpGet t (SKVal (arg args 0)) None None None) σ).
        rewrite Hreg in Hfr. destruct Hfr as (Hf & _).
        by rewrite (frame_raw_data _ _ _ Hf). }
      unfold apply_native_collection, throw. by rewrite Ht1.
Qed.

(** X16.  [get] through the wrapper of a Map, on a key that
    holds a raw object which [shouldInstrument] accepts.  If the object has
    a wrapper, the wrapper is returned.  If it has none, then outside of a
    reaction the raw object itself is returned and nothing is created,
    and while a reaction runs a new wrapper is created, registered and
    returned. *)
Theorem collection_get_wraps_lazily (apply_fn : prog → M value) (σ : state)
    (p t l : loc) (es : list (value * value)) (args : list value) (c : Ctor) :
  consistent σ →
  heap σ !! p = Some (OProxy t collectionHandlers) →
  proxyToRaw σ !! p = Some t →
  is_Some (connectionStore σ !! t) →
  raw_data σ t = Some (DMap es) →
  assoc (arg args 0) es = Some (VObj l) →
  constructor_of σ l = Some c → shouldInstrument c = true →
  (∀ w, rawToProxy σ !! l = Some w →
     ∃ σ', do_method apply_fn p get args σ = Done (VObj w) σ'
           ∧ frame σ' = frame σ)
  ∧ (rawToProxy σ !! l = None → reactionStack σ = [] →
     do_method apply_fn p get args σ = Done (VObj l) σ)
  ∧ (rawToProxy σ !! l = None → reactionStack σ ≠ [] →
     ∃ σ', do_method apply_fn p get args σ = Done (VObj (nextLoc σ)) σ'
           ∧ rawToProxy σ' !! l = Some (nextLoc σ)
           ∧ heap σ' !! nextLoc σ = Some (OProxy l (getHandlers c))).
Proof.
  intros Hcons Hp Hpt Hcs Ht Hl Hc Hi.
  destruct (registerRunningReaction_Done
              (op_trap OpGet t (SKVal (arg args 0)) None None None) σ Hcons Hcs)
    as (σ1 & Hreg & Hcons1 & Hf & Hst & _ & Hnil).
  assert (Ht1 : raw_data σ1 t = Some (DMap es))
    by by rewrite (frame_raw_data _ _ _ Hf).
  assert (Hget : do_method apply_fn p get args σ = findReactive (VObj l) σ1).
  { unfold do_method. rewrite Hp. unfold instrumentations_get.
    unfold bind at 1. unfold this_target. rewrite Hpt.
    unfold bind at 1. rewrite Hreg. unfold bind.
    rewrite (apply_native_collection_Some get t args σ1 (DMap es) (DMap es)
               (VObj l) Ht1) by (unfold arg in Hl; simpl; by rewrite Hl).
    by rewrite (write_data_same _ _ _ Ht1). }
  rewrite Hget. unfold findReactive, hasRunningReaction.
  rewrite Hst, (frame_rawToProxy _ _ Hf). simpl. split_and!.
  - intros w Hw. rewrite Hw. simpl. exists σ1. split; [|done].
    by destruct (bool_decide _).
  - intros Hnone Hempty. rewrite Hnone, Hempty. simpl. by rewrite Hnil.
  - intros Hnone Hne. rewrite Hnone.
    rewrite bool_decide_eq_true_2
      by (destruct (reactionStack σ); [done|simpl; lia]).
    simpl. pose proof Hcons1 as [[Hwf1 _] _].
    assert (Hc1 : constructor_of σ1 l = Some c)
      by by rewrite (frame_constructor_of _ _ _ Hf).
    assert (Hr1 : rawToProxy σ1 !! l = None)
      by by rewrite (frame_rawToProxy _ _ Hf).
    assert (Hreact : reactive l σ1 = createReactive l c σ1).
    { unfold reactive. by rewrite (wrapper_not_raw _ _ _ Hwf1 Hc1), Hc1, Hi, Hr1. }
    rewrite Hreact. unfold createReactive.
    assert (Hn : nextLoc σ1 = nextLoc σ).
    { unfold frame in Hf. by injection Hf. }
    rewrite Hn. eexists. split; [reflexivity|]. simpl.
    by rewrite !lookup_insert_eq.
Qed.

(** ** Array methods *)

(** A call, outside of any reaction, of a method that [doArrayKeys]
    handles. *)
Lemma arrayHandlers_call_top (apply_fn : prog → M value) σ p t es m args
    es' r :
  heap σ !! p = Some (OProxy t arrayHandlers) →
  raw_data σ t = Some (DArray es) →
  reactionStack σ = [] →
  is_array_method m = true → m ≠ indexOf → m ≠ lastIndexOf → m ≠ forEach →
  native_array m t args es = Some (es', r) →
  do_method apply_fn p m args σ
  = (doArrayKeys apply_fn t p m args r >> result_value r)
      (write_data t (DArray es') σ).
Proof.
  intros Hp Ht Hst Hm H1 H2 H3 Hn.
  unfold do_method. rewrite Hp.
  assert (Hcall : match m with
                  | forEach => Stuck Unmodelled
                  | _ => arrayHandlers_call apply_fn t m p args σ
                  end = arrayHandlers_call apply_fn t m p args σ)
    by by destruct m.
  rewrite Hcall. unfold arrayHandlers_call.
  unfold bind at 1. unfold registerRunningReaction, getRunningReaction.
  rewrite Hst. simpl. rewrite Hm. simpl.
  assert (Hnat : apply_native_array m t args σ
                 = Done r (write_data t (DArray es') σ)).
  { unfold apply_native_array. by rewrite Ht, Hn. }
  destruct m; try done; unfold bind at 1; by rewrite Hnat.
Qed.

Lemma doArrayKeys_length (apply_fn : prog → M value) σ t p m args r es :
  raw_data σ t = Some (DArray es) →
  doArrayKeys apply_fn t p m args r σ
  = (let length := Z.of_nat (length es) in
     let single := match r with RValue v => [v] | RArray _ => [] end in
     let '(inserted, insertedStart, deleted, deletedStart) :=
       match m with
       | push => (Some args, length - Z.of_nat (List.length args), None, -1)
       | pop => (None, -1, Some single, length)
       | shift => (None, -1, Some single, 0)
       | unshift => (Some args, 0, None, -1)
       | splice =>
           let startIdx := match args !! 0%nat with
                           | Some (VNum z) => z | _ => 0 end in
           let deleteCount := match args !! 1%nat with
                              | Some (VNum z) => z | _ => 0 end in
           let items := drop 2 args in
           (Some items,
            if bool_decide (0 ≤ startIdx) then startIdx else length,
            match r with RArray es => Some es | RValue _ => None end,
            if bool_decide (0 < deleteCount) then startIdx else -1)
       | _ => (None, -1, None, -1)
       end in
     queueReactionsForOperation apply_fn
       (descriptor t p m inserted insertedStart deleted deletedStart)) σ.
Proof.
  intros Ht. unfold doArrayKeys, bind, array_length. by rewrite Ht.
Qed.

(** X17.  Called outside of a reaction through an array wrapper,
    [push] and [unshift] publish their arguments as inserted, at the old
    length and at 0, with nothing deleted; [pop] and [shift] publish the
    removed element as deleted, at the new length and at 0, with nothing
    inserted.  On an empty array [pop] and [shift] still publish a
    deletion, of [undefined] at 0. *)
Theorem array_mutator_descriptors (fuel : nat) (σ : state) (p t : loc)
    (es args : list value) :
  heap σ !! p = Some (OProxy t arrayHandlers) →
  raw_data σ t = Some (DArray es) →
  reactionStack σ = [] →
  publishes fuel (do_method (exec fuel) p push args) σ
    (descriptor t p push (Some args) (Z.of_nat (length es)) None (-1))
    (write_data t (DArray (es ++ args)) σ)
    (VNum (Z.of_nat (length es + length args)))
  ∧ publishes fuel (do_method (exec fuel) p unshift args) σ
      (descriptor t p unshift (Some args) 0 None (-1))
      (write_data t (DArray (args ++ es)) σ)
      (VNum (Z.of_nat (length es + length args)))
  ∧ publishes fuel (do_method (exec fuel) p pop args) σ
      (descriptor t p pop None (-1) (Some [default VUndefined (last es)])
         (Z.of_nat (length es - 1)))
      (write_data t (DArray (take (length es - 1) es)) σ)
      (default VUndefined (last es))
  ∧ publishes fuel (do_method (exec fuel) p shift args) σ
      (descriptor t p shift None (-1) (Some [default VUndefined (head es)]) 0)
      (write_data t (DArray (drop 1 es)) σ)
      (default VUndefined (head es)).
Proof.
  intros Hp Ht Hst. split_and!.
  - apply publishes_intro; [|done].
    rewrite (arrayHandlers_call_top _ σ p t es push args (es ++ args)
               (RValue (VNum (Z.of_nat (length (es ++ args))))))
      by done.
    unfold bind at 1.
    rewrite (doArrayKeys_length _ _ _ _ _ _ _ (es ++ args))
      by by eapply raw_data_write_data.
    cbv zeta. rewrite !length_app.
    replace (Z.of_nat (length es + length args) - Z.of_nat (length args))
      with (Z.of_nat (length es)) by lia.
    done.
  - apply publishes_intro; [|done].
    rewrite (arrayHandlers_call_top _ σ p t es unshift args (args ++ es)
               (RValue (VNum (Z.of_nat (length (args ++ es))))))
      by done.
    unfold bind at 1.
    rewrite (doArrayKeys_length _ _ _ _ _ _ _ (args ++ es))
      by by eapply raw_data_write_data.
    cbv zeta. rewrite !length_app.
    by replace (length args + length es)%nat
      with (length es + length args)%nat by lia.
  - apply publishes_intro; [|done].
    replace (length es - 1)%nat with (Nat.pred (length es)) by lia.
    rewrite (arrayHandlers_call_top _ σ p t es pop args
               (take (Nat.pred (length es)) es)
               (RValue (default VUndefined (last es))))
      by done.
    unfold bind at 1.
    rewrite (doArrayKeys_length _ _ _ _ _ _ _ (take (Nat.pred (length es)) es))
      by by eapply raw_data_write_data.
    cbv zeta. rewrite length_take.
    by replace (Nat.pred (length es) `min` length es)%nat
      with (Nat.pred (length es)) by lia.
  - apply publishes_intro; [|done].
    rewrite (arrayHandlers_call_top _ σ p t es shift args (drop 1 es)
               (RValue (default VUndefined (head es))))
      by done.
    unfold bind at 1.
    by rewrite (doArrayKeys_length _ _ _ _ _ _ _ (drop 1 es))
      by by eapply raw_data_write_data.
Qed.

(** X18.  [splice(start, ...rest)] called outside of a reaction
    through an array wrapper publishes the items of the call as inserted
    and the removed elements as deleted.  The inserted start is [start] as
    it was passed when that is not negative, and the new length otherwise;
    the deleted start is [start] as it was passed when the delete count
    that was passed is positive, and -1 otherwise: also when the count was
    left out and the rest of the array was removed. *)
Theorem splice_descriptor (apply_fn : prog → M value) (σ : state)
    (p t : loc) (es rest : list value) (start : Z) (count : nat) :
  heap σ !! p = Some (OProxy t arrayHandlers) →
  raw_data σ t = Some (DArray es) →
  reactionStack σ = [] →
  let a := splice_start (length es) start in
  splice_count (length es) a rest = Some count →
  let removed := take count (drop a es) in
  let es' := take a es ++ drop 1 rest ++ drop (a + count) es in
  do_method apply_fn p splice (VNum start :: rest) σ
  = (queueReactionsForOperation apply_fn
       (descriptor t p splice (Some (drop 1 rest))
          (if bool_decide (0 ≤ start) then start else Z.of_nat (length es'))
          (Some removed)
          (if bool_decide (0 < requested_count rest) then start else -1)) >>
     result_value (RArray removed))
      (write_data t (DArray es') σ).
Proof.
  intros Hp Ht Hst a Hcount removed es'.
  rewrite (arrayHandlers_call_top _ σ p t es splice (VNum start :: rest) es'
             (RArray removed)); try done.
  - unfold bind at 1.
    rewrite (doArrayKeys_length _ _ _ _ _ _ _ es')
      by by eapply raw_data_write_data.
    cbv zeta. simpl.
    assert (Hrc : match rest !! 0%nat with
                  | Some (VNum z) => z
                  | _ => 0
                  end = requested_count rest).
    { by destruct rest as [|[] ?]. }
    by rewrite Hrc.
  - simpl. fold a. by rewrite Hcount.
Qed.

Lemma index_from_found x es i :
  0 ≤ index_from x es i ↔ ∃ e, e ∈ es ∧ strict_eq e x = true.
Proof.
  revert i. induction es as [|e es IH]; intros i; simpl.
  - split; [lia|]. by intros (e & ?%elem_of_nil & _).
  - destruct (strict_eq e x) eqn:He.
    + split; [|lia]. intros _. exists e. split; [left|done].
    + rewrite IH. split.
      * intros (e' & Hin & Heq). exists e'. split; [by right|done].
      * intros (e' & [->|Hin]%elem_of_cons & Heq); [congruence|eauto].
Qed.

(** X19.  Outside of a reaction, [indexOf] and [lastIndexOf] through
    an array wrapper look for the raw object of their argument, leave the
    state as it is and publish nothing, so that a wrapper whose raw object
    is an element is found; [includes] looks for its argument as it is and
    publishes an operation of type array with nothing inserted or
    deleted. *)
Theorem indexOf_unwraps (fuel : nat) (σ : state) (p t : loc)
    (es : list value) (x : value) :
  heap σ !! p = Some (OProxy t arrayHandlers) →
  raw_data σ t = Some (DArray es) →
  reactionStack σ = [] →
  do_method (exec fuel) p indexOf [x] σ
  = Done (VNum (index_from (toRaw σ x) es 0)) σ
  ∧ do_method (exec fuel) p lastIndexOf [x] σ
    = Done (VNum (last_index_from (toRaw σ x) es 0)) σ
  ∧ publishes fuel (do_method (exec fuel) p includes [x]) σ
      (descriptor t p includes None (-1) None (-1)) σ
      (VBool (bool_decide (x ∈ es)))
  ∧ (∀ w o, x = VObj w → proxyToRaw σ !! w = Some o → VObj o ∈ es →
       0 ≤ index_from (toRaw σ x) es 0).
Proof.
  intros Hp Ht Hst.
  assert (Hcall : ∀ m r,
    m = indexOf ∨ m = lastIndexOf →
    native_array m t [toRaw σ x] es = Some (es, RValue r) →
    do_method (exec fuel) p m [x] σ = Done r σ).
  { intros m r Hm Hn. unfold do_method. rewrite Hp.
    assert (Hc : match m with
                 | forEach => Stuck Unmodelled
                 | _ => arrayHandlers_call (exec fuel) t m p [x] σ
                 end = arrayHandlers_call (exec fuel) t m p [x] σ)
      by by destruct Hm as [-> | ->].
    rewrite Hc. unfold arrayHandlers_call.
    unfold bind at 1. unfold registerRunningReaction, getRunningReaction.
    rewrite Hst. simpl.
    assert (Hnat : apply_native_array m t [toRaw σ x] σ = Done (RValue r) σ).
    { unfold apply_native_array. rewrite Ht, Hn.
      by rewrite (write_data_same _ _ _ Ht). }
    destruct Hm as [-> | ->]; simpl; unfold bind, gets; simpl;
      by rewrite Hnat. }
  split_and!.
  - by apply Hcall; [left|].
  - by apply Hcall; [right|].
  - apply publishes_intro; [|done].
    rewrite (arrayHandlers_call_top _ σ p t es includes [x] es
               (RValue (VBool (bool_decide (x ∈ es))))) by done.
    rewrite (write_data_same _ _ _ Ht). unfold bind at 1.
    by rewrite (doArrayKeys_length _ _ _ _ _ _ _ es).
  - intros w o -> Hw Hin. simpl. rewrite Hw.
    apply index_from_found. exists (VObj o). split; [done|].
    simpl. by rewrite bool_decide_eq_true_2.
Qed.

(** ** Subscription by reading, and [onSet] *)






Lemma enter_frame r σ :
  frame (enter r σ) = frame σ
  ∧ connectionStore (enter r σ) = connectionStore σ
  ∧ triggered (enter r σ) = triggered σ.
Proof.
  destruct (releaseReaction_frame r σ) as (Hf & _ & _ & Ht & Hc).
  split_and!; [exact Hf|exact Hc|exact Ht].
Qed.

Lemma enter_consistent r R σ :
  consistent σ → reactions σ !! r = Some R → consistent (enter r σ).
Proof.
  intros [Hr Hs] HR. destruct (enter_frame r σ) as (Hf & Hc & _).
  split; [|by eapply enter_store_inv].
  eapply registry_inv_frame; [exact Hf| |exact Hr]. by rewrite Hc.
Qed.







(** ** Enumeration *)





(** ** The theorems at concrete states *)

Lemma consistent_running_state : consistent running_state.
Proof.
  destruct (reactions branch_state !! 0%nat) as [R|] eqn:HR;
    [|vm_compute in HR; discriminate HR].
  exact (enter_consistent 0%nat R branch_state (consistent_state_of _ _) HR).
Qed.

Lemma registry_stays_paired_witness :
  registry_inv object_state
  ∧ after (exec 5 (Call (ASet 1%nat (PStr "b") (VObj 0%nat)) Ret) object_state)
      (λ σ', ∀ o w, rawToProxy σ' !! o = Some w ↔ proxyToRaw σ' !! w = Some o).
Proof.
  split; [apply registry_inv_state_of|].
  eapply after_mono;
    [|exact (registry_stays_paired 5 _ object_state
               (registry_inv_state_of _ _))].
  intros σ' H. exact (proj1 H).
Defined.

Lemma wrapper_is_stable_witness :
  registry_inv object_state
  ∧ rawToProxy object_state !! 0%nat = Some 1%nat
  ∧ after (exec 5 (Call (ASet 1%nat (PStr "a") (VNum 2)) Ret) object_state)
      (λ σ', reactive 0%nat σ' = (1%nat, σ')).
Proof.
  split; [apply registry_inv_state_of|]. split; [reflexivity|].
  eapply after_mono;
    [|exact (wrapper_is_stable 5 _ object_state 0%nat 1%nat
               (registry_inv_state_of _ _) eq_refl)].
  intros σ' H. exact (proj1 (proj2 (proj2 H))).
Defined.

Lemma registration_exact_witness :
  store_inv running_state
  ∧ getRunningReaction running_state = Some 0%nat
  ∧ subscribers running_state 0%nat (SKProp (PStr "a")) = []
  ∧ ∃ σ', registerRunningReaction
            (op_trap OpGet 0%nat (SKProp (PStr "a")) (Some 1%nat) None None)
            running_state = Done () σ'
          ∧ subscribers σ' 0%nat (SKProp (PStr "a")) = [0%nat].
Proof.
  split; [apply consistent_running_state|].
  split; [reflexivity|]. split; [reflexivity|].
  destruct (proj2 (proj2 (registration_exact running_state
              (op_trap OpGet 0%nat (SKProp (PStr "a")) (Some 1%nat) None None)
              (proj2 consistent_running_state))) 0%nat eq_refl)
    as (σ' & Hreg & Hsub & _).
  { apply (bool_decide_unpack _). vm_compute. exact I. }
  exists σ'. split; [exact Hreg|]. rewrite Hsub. reflexivity.
Defined.

Lemma releaseReaction_exact_witness :
  store_inv branch_state
  ∧ subscribers branch_state 0%nat (SKProp (PStr "a")) = [0%nat]
  ∧ subscribers (releaseReaction 0%nat branch_state) 0%nat (SKProp (PStr "a"))
    = [].
Proof.
  split; [apply store_inv_state_of|]. split; [reflexivity|].
  rewrite (proj1 (releaseReaction_exact branch_state 0%nat
                    (store_inv_state_of _ _))).
  reflexivity.
Defined.

Lemma cleaners_are_memberships_witness :
  store_inv branch_state
  ∧ after (exec 10 (Call (ASet 1%nat (PStr "flag") (VBool false)) Ret)
             branch_state)
      (λ σ', ∀ s, NoDup (members σ' s)).
Proof.
  split; [apply store_inv_state_of|].
  eapply after_mono;
    [|exact (cleaners_are_memberships 10 _ branch_state
               (store_inv_state_of _ _))].
  intros σ' H. exact (proj1 H).
Defined.

Lemma reactions_are_kept_witness :
  store_wf branch_state
  ∧ after (exec 10 (Call (AUnobserve 0%nat) Ret) branch_state)
      (λ σ', is_Some (reactions σ' !! 0%nat)).
Proof.
  split; [apply store_wf_state_of|].
  destruct (reactions branch_state !! 0%nat) as [R|] eqn:HR;
    [|vm_compute in HR; discriminate HR].
  eapply after_mono;
    [|exact (reactions_are_kept 10 _ branch_state (store_wf_state_of _ _))].
  intros σ' H. destruct (H 0%nat R HR) as (R' & HR' & _). by exists R'.
Defined.

Lemma observe_first_run_witness :
  store_wf object_state
  ∧ getRunningReaction
      (enter 0%nat
         (new_reaction (λ _, Call (AGet 1%nat (PStr "a")) Ret) object_state))
    = Some 0%nat.
Proof.
  split; [apply store_wf_state_of|].
  exact (proj1 (proj2 (observe_first_run 5
                  (λ _, Call (AGet 1%nat (PStr "a")) Ret) object_state
                  (store_wf_state_of _ _)))).
Defined.

Lemma tracked_write_reruns_witness :
  store_inv branch_state
  ∧ heap branch_state !! 1%nat = Some (OProxy 0%nat baseHandlers)
  ∧ subscribers branch_state 0%nat (SKProp (PStr "a")) = [0%nat]
  ∧ do_set (exec 10) 1%nat (PStr "a") (VNum 2) branch_state
    = (forEach_reaction (exec 10) [0%nat]
         (op_trap OpSet 0%nat (SKProp (PStr "a")) (Some 1%nat)
            (Some (VNum 2)) (Some (VNum 1))) >> ret (VNum 2))
        (write_data 0%nat
           (DProps [(PStr "flag", VBool true); (PStr "a", VNum 2)])
           branch_state).
Proof.
  split; [apply store_inv_state_of|].
  split; [reflexivity|]. split; [reflexivity|].
  refine (proj1 (tracked_write_reruns 10 branch_state 1%nat 0%nat
                   [(PStr "flag", VBool true); (PStr "a", VNum 1)]
                   (PStr "a") (VNum 2) (VNum 1)
                   (store_inv_state_of _ _) eq_refl eq_refl _ eq_refl eq_refl)).
  apply (bool_decide_unpack _). vm_compute. exact I.
Defined.

Lemma nested_read_wraps_witness :
  consistent nested_state
  ∧ raw_data nested_state 1%nat = Some (DProps [(PStr "child", VObj 0%nat)])
  ∧ rawToProxy nested_state !! 0%nat = None
  ∧ ∃ w σ', do_get 2%nat (PStr "child") nested_state = Done (VObj w) σ'
            ∧ proxyToRaw σ' !! w = Some 0%nat.
Proof.
  split; [apply consistent_state_of|].
  split; [reflexivity|]. split; [reflexivity|].
  destruct (nested_read_wraps nested_state 2%nat 1%nat 0%nat
              [(PStr "child", VObj 0%nat)] (PStr "child") CObject
              (consistent_state_of _ _) eq_refl)
    as (w & σ' & Hget & _ & Hw & _).
  - apply (bool_decide_unpack _). vm_compute. exact I.
  - reflexivity.
  - intros s. discriminate.
  - reflexivity.
  - reflexivity.
  - reflexivity.
  - exists w, σ'. split; [exact Hget|exact Hw].
Defined.

Lemma array_read_is_shallow_witness :
  consistent array_state
  ∧ ∃ σ', do_get 1%nat (PIdx 0) array_state = Done (VNum 1) σ'
          ∧ frame σ' = frame array_state.
Proof.
  split; [apply consistent_state_of|].
  destruct (array_read_is_shallow array_state 1%nat 0%nat
              [VNum 1; VNum 2; VNum 3] (PIdx 0) (VNum 1)
              (consistent_state_of _ _) eq_refl)
    as (σ' & Hget & Hf & _).
  - apply (bool_decide_unpack _). vm_compute. exact I.
  - reflexivity.
  - reflexivity.
  - exists σ'. split; [exact Hget|exact Hf].
Defined.

Lemma map_set_semantics_witness :
  heap map_state !! 1%nat = Some (OProxy 0%nat collectionHandlers)
  ∧ raw_data map_state 0%nat = Some (DMap [(VStr "k", VNum 1)])
  ∧ do_method (exec 5) 1%nat set [VStr "k"; VNum 1] map_state
    = Done (VObj 0%nat)
        (write_data 0%nat (DMap [(VStr "k", VNum 1)]) map_state).
Proof.
  split; [reflexivity|]. split; [reflexivity|].
  exact (proj1 (proj2 (map_set_semantics 5 map_state 1%nat 0%nat
                         [(VStr "k", VNum 1)] [VStr "k"; VNum 1]
                         eq_refl eq_refl eq_refl))
           (VNum 1) eq_refl eq_refl).
Defined.

Lemma set_add_delete_semantics_witness :
  heap set_state !! 1%nat = Some (OProxy 0%nat collectionHandlers)
  ∧ raw_data set_state 0%nat = Some (DSet [VNum 1])
  ∧ do_method (exec 5) 1%nat add [VNum 1] set_state = Done (VObj 0%nat) set_state
  ∧ do_method (exec 5) 1%nat delete [VNum 2] set_state
    = Done (VBool false) set_state.
Proof.
  split; [reflexivity|]. split; [reflexivity|].
  destruct (proj1 (set_add_delete_semantics 5 set_state 1%nat 0%nat [VNum 1]
                     eq_refl eq_refl) [VNum 1] eq_refl) as (Hadd & _).
  destruct (proj1 (set_add_delete_semantics 5 set_state 1%nat 0%nat [VNum 2]
                     eq_refl eq_refl) [VNum 1] eq_refl) as (_ & _ & Hdel & _).
  split.
  - apply Hadd. apply list_elem_of_here.
  - apply Hdel. intros Hin. apply list_elem_of_singleton in Hin. discriminate Hin.
Defined.

Lemma clear_semantics_witness :
  heap map_state !! 1%nat = Some (OProxy 0%nat collectionHandlers)
  ∧ raw_data map_state 0%nat = Some (DMap [(VStr "k", VNum 1)])
  ∧ publishes 5 (do_method (exec 5) 1%nat clear []) map_state
      (operation OpClear 0%nat) (write_data 0%nat (DMap []) map_state)
      VUndefined.
Proof.
  split; [reflexivity|]. split; [reflexivity|].
  refine (proj1 (proj2 (clear_semantics 5 map_state 1%nat 0%nat
                          (DMap [(VStr "k", VNum 1)]) []
                          eq_refl eq_refl eq_refl eq_refl)) _).
  simpl. lia.
Defined.

Lemma collection_missing_method_witness :
  heap map_state !! 1%nat = Some (OProxy 0%nat collectionHandlers)
  ∧ do_method (exec 5) 1%nat add [VNum 1] map_state
    = Thrown TypeError map_state.
Proof.
  split; [reflexivity|].
  exact (proj1 (collection_missing_method (exec 5) map_state 1%nat 0%nat
                  [VNum 1] eq_refl eq_refl)
           [(VStr "k", VNum 1)] eq_refl).
Defined.

Lemma collection_get_wraps_lazily_witness :
  consistent map_nested_state
  ∧ raw_data map_nested_state 1%nat = Some (DMap [(VStr "k", VObj 0%nat)])
  ∧ do_method (exec 5) 2%nat get [VStr "k"] map_nested_state
    = Done (VObj 0%nat) map_nested_state.
Proof.
  split; [apply consistent_state_of|]. split; [reflexivity|].
  refine (proj1 (proj2 (collection_get_wraps_lazily (exec 5) map_nested_state
                          2%nat 1%nat 0%nat [(VStr "k", VObj 0%nat)]
                          [VStr "k"] CObject (consistent_state_of _ _)
                          eq_refl eq_refl _ eq_refl eq_refl eq_refl eq_refl))
            eq_refl eq_refl).
  apply (bool_decide_unpack _). vm_compute. exact I.
Defined.

Lemma array_mutator_descriptors_witness :
  heap array_state !! 1%nat = Some (OProxy 0%nat arrayHandlers)
  ∧ raw_data array_state 0%nat = Some (DArray [VNum 1; VNum 2; VNum 3])
  ∧ publishes 5 (do_method (exec 5) 1%nat pop []) array_state
      (descriptor 0%nat 1%nat pop None (-1) (Some [VNum 3]) 2)
      (write_data 0%nat (DArray [VNum 1; VNum 2]) array_state) (VNum 3).
Proof.
  split; [reflexivity|]. split; [reflexivity|].
  exact (proj1 (proj2 (proj2
           (array_mutator_descriptors 5 array_state 1%nat 0%nat
              [VNum 1; VNum 2; VNum 3] [] eq_refl eq_refl eq_refl)))).
Defined.

Lemma splice_descriptor_witness :
  heap array_state !! 1%nat = Some (OProxy 0%nat arrayHandlers)
  ∧ raw_data array_state 0%nat = Some (DArray [VNum 1; VNum 2; VNum 3])
  ∧ do_method (exec 5) 1%nat splice [VNum (-1)] array_state
    = (queueReactionsForOperation (exec 5)
         (descriptor 0%nat 1%nat splice (Some []) 2 (Some [VNum 3]) (-1)) >>
       result_value (RArray [VNum 3]))
        (write_data 0%nat (DArray [VNum 1; VNum 2]) array_state).
Proof.
  split; [reflexivity|]. split; [reflexivity|].
  exact (splice_descriptor (exec 5) array_state 1%nat 0%nat
           [VNum 1; VNum 2; VNum 3] [] (-1) 1%nat
           eq_refl eq_refl eq_refl eq_refl).
Defined.

Lemma indexOf_unwraps_witness :
  heap array_state !! 1%nat = Some (OProxy 0%nat arrayHandlers)
  ∧ do_method (exec 5) 1%nat indexOf [VNum 2] array_state
    = Done (VNum 1) array_state.
Proof.
  split; [reflexivity|].
  exact (proj1 (indexOf_unwraps 5 array_state 1%nat 0%nat
                  [VNum 1; VNum 2; VNum 3] (VNum 2)
                  eq_refl eq_refl eq_refl)).
Defined.



